(** * pytorch_quantum.functional: the unitary-application engine and the
      gate-matrix library

    A shallow embedding of [src/pytorch_quantum/functional.py].

    - Scalars.  The tensors of the program hold [complex64] values.  They
      are modelled by exact complex numbers, pairs of reals: rounding is
      not part of the model, every statement below is about the exact
      value the floating-point code approximates.
    - Tensors.  A tensor is a shape together with its entries in row-major
      (contiguous) order, as the array backend stores them; [reshape]
      keeps the entries and changes the shape.
    - Exceptions.  A call that raises returns [Err] with the exception. *)

From stdpp Require Import gmap.
From Stdlib Require Import Ascii String.
From Stdlib Require Import Reals Lra Lia ZArith Bool List Permutation.
Import ListNotations.

Local Open Scope nat_scope.

(** ** Complex scalars *)

Module Cx.
Local Open Scope R_scope.

Definition C : Type := R * R.

Definition RtoC (x : R) : C := (x, 0).
Definition C0 : C := (0, 0).
Definition C1 : C := (1, 0).
(** Python's [1j]. *)
Definition Ci : C := (0, 1).

Definition Cadd (x y : C) : C := (fst x + fst y, snd x + snd y).
Definition Copp (x : C) : C := (- fst x, - snd x).
Definition Cmul (x y : C) : C :=
  (fst x * fst y - snd x * snd y, fst x * snd y + snd x * fst y).
(** Division of a complex number by a real one ([theta / 2]). *)
Definition Cdivr (x : C) (r : R) : C := (fst x / r, snd x / r).
Definition Cconj (x : C) : C := (fst x, - snd x).

(** [exp], [cos] and [sin] on a complex argument [a + b i]. *)
Definition Cexp (x : C) : C := (exp (fst x) * cos (snd x), exp (fst x) * sin (snd x)).
Definition Ccos (x : C) : C :=
  (cos (fst x) * cosh (snd x), - (sin (fst x) * sinh (snd x))).
Definition Csin (x : C) : C :=
  (sin (fst x) * cosh (snd x), cos (fst x) * sinh (snd x)).

Definition Csum (l : list C) : C := fold_right Cadd C0 l.

End Cx.
Export Cx.

(** ** Exceptions and results *)

Inductive exn : Type :=
| AssertionError_batch     (* functional.py:25, batch sizes differ *)
| AssertionError_qubits    (* functional.py:60, the alphabet is exhausted *)
| IndexError               (* an index outside the indexed object *)
| AttributeError           (* attribute access on None *)
| TypeError                (* a callable applied to the wrong number of arguments *)
| RuntimeError.            (* raised by the array backend: shapes do not fit *)

Inductive result (A : Type) : Type :=
| Ok (a : A)
| Err (e : exn).
Arguments Ok {A} a.
Arguments Err {A} e.

Definition bind {A B} (r : result A) (k : A -> result B) : result B :=
  match r with
  | Ok a => k a
  | Err e => Err e
  end.

Notation "'let*' x := e 'in' k" := (bind e (fun x => k))
  (at level 10, x name, e at level 100, k at level 200).

Definition is_ok {A} (r : result A) : bool :=
  match r with Ok _ => true | Err _ => false end.

(** ** Tensors *)

Record tensor (A : Type) : Type := mkTensor { shape : list nat; data : list A }.
Arguments mkTensor {A} shape data.
Arguments shape {A} t.
Arguments data {A} t.

Definition numel (s : list nat) : nat := fold_right Nat.mul 1 s.
Definition rank {A} (t : tensor A) : nat := length (shape t).

(** The invariant the array backend keeps: as many entries as the shape says. *)
Definition wf {A} (t : tensor A) : Prop := length (data t) = numel (shape t).

Definition tmap {A B} (f : A -> B) (t : tensor A) : tensor B :=
  mkTensor (shape t) (map f (data t)).

(** Offset of a multi-index in row-major order. *)
Fixpoint ravel (s idx : list nat) : nat :=
  match s, idx with
  | _ :: s', i :: idx' => i * numel s' + ravel s' idx'
  | _, _ => 0
  end.

(** The multi-index of an offset, most significant axis first. *)
Fixpoint unravel (s : list nat) (off : nat) : list nat :=
  match s with
  | [] => []
  | _ :: s' => off / numel s' :: unravel s' (off mod numel s')
  end.

Definition tget (t : tensor C) (idx : list nat) : C :=
  nth (ravel (shape t) idx) (data t) C0.

(** All multi-indices of a shape, in row-major order. *)
Fixpoint all_indices (s : list nat) : list (list nat) :=
  match s with
  | [] => [[]]
  | d :: s' => flat_map (fun i => map (cons i) (all_indices s')) (seq 0 d)
  end.

Definition shape_eqb (s1 s2 : list nat) : bool :=
  bool_decide (s1 = s2).

(** *** The backend operations the program calls *)

(** [torch.reshape(t, s)]. *)
Definition torch_reshape {A} (t : tensor A) (s : list nat) : result (tensor A) :=
  if numel (shape t) =? numel s then Ok (mkTensor s (data t)) else Err RuntimeError.

(** [t.unsqueeze(-1)]. *)
Definition unsqueeze_last {A} (t : tensor A) : tensor A :=
  mkTensor (shape t ++ [1]) (data t).

(** [t.unsqueeze(0)]. *)
Definition unsqueeze0 {A} (t : tensor A) : tensor A :=
  mkTensor (1 :: shape t) (data t).

(** [t.squeeze(0)]: drops the leading axis when its size is 1, and only then. *)
Definition squeeze0 {A} (t : tensor A) : tensor A :=
  match shape t with
  | 1 :: s => mkTensor s (data t)
  | _ => t
  end.

(** Row [r] after row [r]: the entries of [torch.cat(ts, dim=-1)], where each
    part is given with the size of its last axis. *)
Fixpoint cat_rows {A} (rows : nat) (parts : list (nat * list A)) : list A :=
  match rows with
  | 0 => []
  | S r =>
      flat_map (fun p => firstn (fst p) (snd p)) parts
      ++ cat_rows r (map (fun p => (fst p, skipn (fst p) (snd p))) parts)
  end.

(** [torch.cat(ts, dim=-1)]. *)
Definition torch_cat {A} (ts : list (tensor A)) : result (tensor A) :=
  match ts with
  | [] => Err RuntimeError
  | t :: _ =>
      let pre := removelast (shape t) in
      if forallb (fun u => negb (rank u =? 0) && shape_eqb (removelast (shape u)) pre) ts
      then Ok (mkTensor (pre ++ [list_sum (map (fun u => last (shape u) 0) ts)])
                 (cat_rows (numel pre) (map (fun u => (last (shape u) 0, data u)) ts)))
      else Err RuntimeError
  end.

(** Entry [i] of every tensor, then entry [i+1] of every tensor, ...: the
    entries of [torch.stack(ts, dim=-1)]. *)
Fixpoint stack_rows {A} (n : nat) (ls : list (list A)) : list A :=
  match n with
  | 0 => []
  | S n' => flat_map (firstn 1) ls ++ stack_rows n' (map (@tl A) ls)
  end.

(** [torch.stack(ts, dim=-1)]: a new LAST axis indexes the stacked tensors,
    [stack(ts)[..., j] = ts[j][...]]. *)
Definition torch_stack {A} (ts : list (tensor A)) : result (tensor A) :=
  match ts with
  | [] => Err RuntimeError
  | t :: _ =>
      if forallb (fun u => shape_eqb (shape u) (shape t)) ts
      then Ok (mkTensor (shape t ++ [length ts])
                 (stack_rows (numel (shape t)) (map data ts)))
      else Err RuntimeError
  end.

(** [torch.zeros(s)] and [torch.ones(s)] (cast to complex where they meet
    complex entries in [torch.cat]). *)
Definition torch_zeros (s : list nat) : tensor C := mkTensor s (repeat C0 (numel s)).
Definition torch_ones (s : list nat) : tensor C := mkTensor s (repeat C1 (numel s)).

(** [C_DTYPE] is [torch.complex64]; [t.type(C_DTYPE)] casts real entries. *)
Definition type_C_DTYPE (t : tensor R) : tensor C := tmap RtoC t.

Definition torch_cos : tensor C -> tensor C := tmap Ccos.
Definition torch_sin : tensor C -> tensor C := tmap Csin.
Definition torch_exp : tensor C -> tensor C := tmap Cexp.
Definition torch_conj : tensor C -> tensor C := tmap Cconj.
(** [-t], [t / r], [c * t] for a scalar [c]. *)
Definition tneg : tensor C -> tensor C := tmap Copp.
Definition tdiv (t : tensor C) (r : R) : tensor C := tmap (fun z => Cdivr z r) t.
Definition tscale (c : C) : tensor C -> tensor C := tmap (Cmul c).

(** Broadcasting of two shapes, aligned at the last axis: sizes must agree
    or one of them must be 1. *)
Fixpoint bshape_rev (r1 r2 : list nat) : option (list nat) :=
  match r1, r2 with
  | [], r => Some r
  | r, [] => Some r
  | d1 :: r1', d2 :: r2' =>
      match bshape_rev r1' r2' with
      | None => None
      | Some r =>
          if d1 =? d2 then Some (d1 :: r)
          else if d1 =? 1 then Some (d2 :: r)
          else if d2 =? 1 then Some (d1 :: r)
          else None
      end
  end.

Definition bshape (s1 s2 : list nat) : option (list nat) :=
  option_map (@rev nat) (bshape_rev (rev s1) (rev s2)).

(** The index into an operand of shape [s] for the index [idx] of the
    broadcast result: leading axes the operand lacks are dropped, and an
    axis of size 1 is read at 0. *)
Definition bindex (s idx : list nat) : list nat :=
  map (fun p => if fst p =? 1 then 0 else snd p)
      (combine s (skipn (length idx - length s) idx)).

(** [a op b] with broadcasting. *)
Definition tbroadcast (f : C -> C -> C) (a b : tensor C) : result (tensor C) :=
  match bshape (shape a) (shape b) with
  | None => Err RuntimeError
  | Some s =>
      Ok (mkTensor s
            (map (fun idx => f (tget a (bindex (shape a) idx)) (tget b (bindex (shape b) idx)))
                 (all_indices s)))
  end.

(** [t.shape[0]]. *)
Definition shape0 {A} (t : tensor A) : result nat :=
  match shape t with
  | [] => Err IndexError
  | d :: _ => Ok d
  end.

(** [t[:, j]]: axis 1 is indexed at [j] and disappears. *)
Definition select_col {A} (t : tensor A) (j : nat) : result (tensor A) :=
  match shape t with
  | b :: m :: rest =>
      if j <? m
      then Ok (mkTensor (b :: rest)
                 (flat_map (fun i => firstn (numel rest) (skipn ((i * m + j) * numel rest) (data t)))
                           (seq 0 b)))
      else Err IndexError
  | _ => Err IndexError
  end.

(** [t.repeat(b, 1, 1)] on a tensor of rank 3. *)
Definition repeat0 {A} (t : tensor A) (b : nat) : result (tensor A) :=
  match shape t with
  | [d0; d1; d2] => Ok (mkTensor [b * d0; d1; d2] (concat (repeat (data t) b)))
  | _ => Err RuntimeError
  end.

(** [m[:, i, j] = v]: the in-place assignment of [crx_matrix], on a matrix
    the function has just built; [v] has one entry per batch element. *)
Definition setitem_ij (m : tensor C) (i j : nat) (v : tensor C) : result (tensor C) :=
  match shape m with
  | [b; r; c] =>
      if negb ((i <? r) && (j <? c)) then Err IndexError
      else if shape_eqb (shape v) [b]
      then Ok (mkTensor (shape m)
                 (fold_left (fun d k => <[(k * r + i) * c + j := nth k (data v) C0]> d)
                            (seq 0 b) (data m)))
      else Err RuntimeError
  | _ => Err IndexError
  end.

(** [torch.tensor(rows)] for a literal matrix. *)
Definition torch_tensor2 {A} (rows : list (list A)) : tensor A :=
  mkTensor [length rows; length (hd [] rows)] (concat rows).

(** [torch.tensor(xs)] for a literal vector. *)
Definition torch_tensor1 {A} (xs : list A) : tensor A := mkTensor [length xs] xs.

(** ** Names imported from [.macro] and [.utils] *)

Local Open Scope R_scope.

(** Modelled from the spec: [INV_SQRT2] is defined in [macro.py], which is
    not among the sources; the spec gives Hadamard as (1/sqrt 2)[[1,1],[1,-1]]. *)
Definition INV_SQRT2 : R := 1 / sqrt 2.

(** Modelled from the spec: [pauli_eigs] is defined in [utils.py], which is
    not among the sources.  The spec: the ordered +1/-1 eigenvalues of the
    n-fold Pauli-Z tensor product, indexed by the basis bitstrings in
    lexicographic order, value (-1)^popcount. *)
Fixpoint pauli_eigs (n : nat) : list R :=
  match n with
  | O => [1]
  | S n' => pauli_eigs n' ++ map Ropp (pauli_eigs n')
  end.

Local Close Scope R_scope.

(** The rows of [d] entries of a flat list. *)
Fixpoint rows_of {A} (n d : nat) (l : list A) : list (list A) :=
  match n with
  | 0 => []
  | S n' => firstn d l :: rows_of n' d (skipn d l)
  end.

Definition diag_row (row : list C) : list C :=
  flat_map (fun i => map (fun j => if i =? j then nth i row C0 else C0)
                         (seq 0 (length row)))
           (seq 0 (length row)).

(** Modelled from the spec: [diag] is defined in [utils.py], which is not
    among the sources.  The spec: the diagonal matrix of the eigenvalue
    sequence, one matrix per batch row; a tensor without axes is returned
    as it is. *)
Definition diag (x : tensor C) : tensor C :=
  match shape x with
  | [] => x
  | _ =>
      let d := last (shape x) 0 in
      let pre := removelast (shape x) in
      mkTensor (pre ++ [d; d]) (flat_map diag_row (rows_of (numel pre) d (data x)))
  end.

(** ** Parametric gate matrices (functional.py:101-202) *)

Definition rx_matrix (params : tensor R) : result (tensor C) :=
  let theta := type_C_DTYPE params in
  let co := torch_cos (tdiv theta 2) in
  let jsi := tscale Ci (torch_sin (tdiv (tneg theta) 2)) in
  let* row0 := torch_cat [co; jsi] in
  let* row1 := torch_cat [jsi; co] in
  let* m := torch_stack [row0; row1] in
  Ok (squeeze0 m).

Definition ry_matrix (params : tensor R) : result (tensor C) :=
  let theta := type_C_DTYPE params in
  let co := torch_cos (tdiv theta 2) in
  let si := torch_sin (tdiv theta 2) in
  let* row0 := torch_cat [co; tneg si] in
  let* row1 := torch_cat [si; co] in
  let* m := torch_stack [row0; row1] in
  Ok (squeeze0 m).

Definition rz_matrix (params : tensor R) : result (tensor C) :=
  let theta := type_C_DTYPE params in
  let p := torch_exp (tscale (0, - (1 / 2))%R theta) in
  let* row0 := torch_cat [p; torch_zeros (shape p)] in
  let* row1 := torch_cat [torch_zeros (shape p); torch_conj p] in
  let* m := torch_stack [row0; row1] in
  Ok (squeeze0 m).

Definition phaseshift_matrix (params : tensor R) : result (tensor C) :=
  let phi := type_C_DTYPE params in
  let p := torch_exp (tscale Ci phi) in
  let* row0 := torch_cat [torch_ones (shape p); torch_zeros (shape p)] in
  let* row1 := torch_cat [torch_zeros (shape p); p] in
  let* m := torch_stack [row0; row1] in
  Ok (squeeze0 m).

Definition rot_matrix (params : tensor R) : result (tensor C) :=
  let* c0 := select_col params 0 in
  let phi := type_C_DTYPE (unsqueeze_last c0) in
  let* c1 := select_col params 1 in
  let theta := type_C_DTYPE (unsqueeze_last c1) in
  let* c2 := select_col params 2 in
  let omega := type_C_DTYPE (unsqueeze_last c2) in
  let co := torch_cos (tdiv theta 2) in
  let si := torch_sin (tdiv theta 2) in
  let* phi_plus_omega := tbroadcast Cadd phi omega in
  let* phi_minus_omega := tbroadcast (fun a b => Cadd a (Copp b)) phi omega in
  let* m00 := tbroadcast Cmul (torch_exp (tscale (0, - (1 / 2))%R phi_plus_omega)) co in
  let* m01 := tbroadcast Cmul (tneg (torch_exp (tscale (0, (1 / 2))%R phi_minus_omega))) si in
  let* m10 := tbroadcast Cmul (torch_exp (tscale (0, - (1 / 2))%R phi_minus_omega)) si in
  let* m11 := tbroadcast Cmul (torch_exp (tscale (0, (1 / 2))%R phi_plus_omega)) co in
  let* row0 := torch_cat [m00; m01] in
  let* row1 := torch_cat [m10; m11] in
  let* m := torch_stack [row0; row1] in
  Ok (squeeze0 m).

Definition multirz_eigvals (params : tensor R) (n_wires : nat) : result (tensor C) :=
  let theta := type_C_DTYPE params in
  let* e := tbroadcast Cmul (tdiv (tscale (Copp Ci) theta) 2)
                      (type_C_DTYPE (torch_tensor1 (pauli_eigs n_wires))) in
  Ok (torch_exp e).

Definition multirz_matrix (params : tensor R) (n_wires : nat) : result (tensor C) :=
  let* eigvals := multirz_eigvals params n_wires in
  let dia := diag eigvals in
  Ok (squeeze0 dia).

Definition crx_matrix (params : tensor R) : result (tensor C) :=
  let theta := type_C_DTYPE params in
  let co := torch_cos (tdiv theta 2) in
  let jsi := tscale Ci (torch_sin (tdiv (tneg theta) 2)) in
  let* b := shape0 co in
  let* matrix := repeat0 (unsqueeze0 (torch_tensor2
                    [[C1; C0; C0; C0];
                     [C0; C1; C0; C0];
                     [C0; C0; C0; C0];
                     [C0; C0; C0; C0]])) b in
  let* co0 := select_col co 0 in
  let* jsi0 := select_col jsi 0 in
  let* matrix := setitem_ij matrix 2 2 co0 in
  let* matrix := setitem_ij matrix 2 3 jsi0 in
  let* matrix := setitem_ij matrix 3 2 jsi0 in
  let* matrix := setitem_ij matrix 3 3 co0 in
  Ok (squeeze0 matrix).

(** ** The dispatch table (functional.py:205-254) *)

(** A table entry is a constant matrix or a callable that builds one:
    from the parameters, or from the parameters and the number of wires. *)
Inductive mat_entry : Type :=
| Matrix (m : tensor C)
| Callable1 (f : tensor R -> result (tensor C))
| Callable2 (f : tensor R -> nat -> result (tensor C)).

Definition Cn (x : R) : C := RtoC x.
Definition mIi : C := Copp Ci.

Definition hadamard_mat : tensor C :=
  torch_tensor2 [[Cn INV_SQRT2; Cn INV_SQRT2]; [Cn INV_SQRT2; Cn (- INV_SQRT2)]].
Definition paulix_mat : tensor C := torch_tensor2 [[C0; C1]; [C1; C0]].
Definition pauliy_mat : tensor C := torch_tensor2 [[C0; mIi]; [Ci; C0]].
Definition pauliz_mat : tensor C := torch_tensor2 [[C1; C0]; [C0; Cn (-1)]].
Definition s_mat : tensor C := torch_tensor2 [[C1; C0]; [C0; Ci]].
(** [np.exp(1j * np.pi / 4)]. *)
Definition t_mat : tensor C :=
  torch_tensor2 [[C1; C0]; [C0; Cexp (Cdivr (Cmul Ci (Cn PI)) 4)]].
Definition sx_mat : tensor C :=
  tscale (Cn (1 / 2))
    (torch_tensor2 [[Cadd C1 Ci; Cadd C1 mIi]; [Cadd C1 mIi; Cadd C1 Ci]]).
Definition cnot_mat : tensor C :=
  torch_tensor2 [[C1; C0; C0; C0];
                 [C0; C1; C0; C0];
                 [C0; C0; C0; C1];
                 [C0; C0; C1; C0]].
Definition cz_mat : tensor C :=
  torch_tensor2 [[C1; C0; C0; C0];
                 [C0; C1; C0; C0];
                 [C0; C0; C1; C0];
                 [C0; C0; C0; Cn (-1)]].
Definition cy_mat : tensor C :=
  torch_tensor2 [[C1; C0; C0; C0];
                 [C0; C1; C0; C0];
                 [C0; C0; C0; mIi];
                 [C0; C0; mIi; C0]].
Definition swap_mat : tensor C :=
  torch_tensor2 [[C1; C0; C0; C0];
                 [C0; C0; C1; C0];
                 [C0; C1; C0; C0];
                 [C0; C0; C0; C1]].
Definition cswap_mat : tensor C :=
  torch_tensor2 [[C1; C0; C0; C0; C0; C0; C0; C0];
                 [C0; C1; C0; C0; C0; C0; C0; C0];
                 [C0; C0; C1; C0; C0; C0; C0; C0];
                 [C0; C0; C0; C1; C0; C0; C0; C0];
                 [C0; C0; C0; C0; C1; C0; C0; C0];
                 [C0; C0; C0; C0; C0; C0; C1; C0];
                 [C0; C0; C0; C0; C0; C1; C0; C0];
                 [C0; C0; C0; C0; C0; C0; C0; C1]].
Definition toffoli_mat : tensor C :=
  torch_tensor2 [[C1; C0; C0; C0; C0; C0; C0; C0];
                 [C0; C1; C0; C0; C0; C0; C0; C0];
                 [C0; C0; C1; C0; C0; C0; C0; C0];
                 [C0; C0; C0; C1; C0; C0; C0; C0];
                 [C0; C0; C0; C0; C1; C0; C0; C0];
                 [C0; C0; C0; C0; C0; C1; C0; C0];
                 [C0; C0; C0; C0; C0; C0; C0; C1];
                 [C0; C0; C0; C0; C0; C0; C1; C0]].

Definition mat_dict : list (string * mat_entry) :=
  [ ("hadamard", Matrix hadamard_mat);
    ("paulix", Matrix paulix_mat);
    ("pauliy", Matrix pauliy_mat);
    ("pauliz", Matrix pauliz_mat);
    ("s", Matrix s_mat);
    ("t", Matrix t_mat);
    ("sx", Matrix sx_mat);
    ("cnot", Matrix cnot_mat);
    ("cz", Matrix cz_mat);
    ("cy", Matrix cy_mat);
    ("swap", Matrix swap_mat);
    ("cswap", Matrix cswap_mat);
    ("toffoli", Matrix toffoli_mat);
    ("rx", Callable1 rx_matrix);
    ("ry", Callable1 ry_matrix);
    ("rz", Callable1 rz_matrix);
    ("phaseshift", Callable1 phaseshift_matrix);
    ("rot", Callable1 rot_matrix);
    ("multirz", Callable2 multirz_matrix);
    ("crx", Callable1 crx_matrix) ]%string.

(** [mat_dict[key]]. *)
Fixpoint dict_get {V} (d : list (string * V)) (key : string) : option V :=
  match d with
  | [] => None
  | (k, v) :: d' => if String.eqb k key then Some v else dict_get d' key
  end.

(** The constant matrix stored under a key, if the entry is one. *)
Definition mat_const (key : string) : option (tensor C) :=
  match dict_get mat_dict key with
  | Some (Matrix m) => Some m
  | _ => None
  end.

(** ** The contraction-index scheme and the engine (functional.py:15-78) *)

(** Python strings are lists of characters. *)
Definition str : Type := list ascii.

(** Modelled from the spec: [ABC] and [ABC_ARRAY] are defined in [macro.py],
    which is not among the sources.  The spec: a bounded symbol alphabet of
    26 letters, the last of which is reserved for the batch axis. *)
Definition ABC : str := list_ascii_of_string "abcdefghijklmnopqrstuvwxyz".
Definition ABC_ARRAY : list ascii := ABC.

(** A slice bound of a sequence of length [len]: a negative bound counts
    from the end, and every bound is clipped to the sequence. *)
Definition py_bound (len : nat) (i : Z) : nat :=
  let n := Z.of_nat len in
  Z.to_nat (Z.min n (Z.max 0 (if (i <? 0)%Z then (i + n)%Z else i))).

(** [l[lo:hi]]. *)
Definition py_slice {A} (l : list A) (lo hi : Z) : list A :=
  let a := py_bound (length l) lo in
  let b := py_bound (length l) hi in
  firstn (b - a) (skipn a l).

(** [l[-1]] of a non-empty sequence. *)
Definition py_last (l : str) : ascii := last l "000"%char.

(** [l * n] for a list. *)
Definition py_list_mul {A} (l : list A) (n : nat) : list A := concat (repeat l n).

Fixpoint mapM {A B} (f : A -> result B) (l : list A) : result (list B) :=
  match l with
  | [] => Ok []
  | x :: l' => let* y := f x in let* ys := mapM f l' in Ok (y :: ys)
  end.

(** [arr[i]] for a numpy array: a negative index counts from the end; an
    index outside [-len, len) raises. *)
Definition np_item {A} (arr : list A) (i : Z) : result A :=
  let n := Z.of_nat (length arr) in
  if ((- n <=? i) && (i <? n))%Z
  then match nth_error arr (Z.to_nat (if (i <? 0)%Z then (i + n)%Z else i)) with
       | Some x => Ok x
       | None => Err IndexError
       end
  else Err IndexError.

(** [arr[list(idxs)].tolist()]. *)
Definition np_take {A} (arr : list A) (idxs : list Z) : result (list A) :=
  mapM (np_item arr) idxs.

(** [s.replace(old, new)] for one-character [old] and [new]. *)
Definition str_replace (s : str) (old new : ascii) : str :=
  map (fun c => if Ascii.eqb c old then new else c) s.

(** [c in s]. *)
Definition str_mem (c : ascii) (s : str) : bool := existsb (Ascii.eqb c) s.

(** The three index strings of the expression ["{lhs1},{lhs2}->{rhs}"]. *)
Record einsum_expr : Type := mkExpr { lhs1 : str; lhs2 : str; rhs : str }.

Fixpoint assoc {V} (e : list (ascii * V)) (c : ascii) : option V :=
  match e with
  | [] => None
  | (k, v) :: e' => if Ascii.eqb k c then Some v else assoc e' c
  end.

Definition assoc0 (e : list (ascii * nat)) (c : ascii) : nat :=
  match assoc e c with Some v => v | None => 0 end.

(** Every occurrence of a label has the size of its first occurrence. *)
Definition dims_consistent (e : list (ascii * nat)) : bool :=
  forallb (fun p => assoc0 e (fst p) =? snd p) e.

(** The distinct elements, in the order of their first occurrence. *)
Definition dedup (s : str) : str :=
  fold_left (fun acc c => if str_mem c acc then acc else acc ++ [c]) s [].

Fixpoint str_nodup (s : str) : bool :=
  match s with
  | [] => true
  | c :: s' => negb (str_mem c s') && str_nodup s'
  end.

(** [torch.einsum(expr, a, b)] for two operands and explicit output labels:
    an output entry is the sum, over all values of the labels that are not
    in the output, of the product of the operands' entries.  A label that
    occurs twice in an operand reads its diagonal.  The sizes of one label
    must agree (the backend also accepts a size-1 axis against a larger
    one; neither a state of shape (batch, 2, ..., 2) nor a reshaped matrix
    has such axes against each other). *)
Definition einsum (expr : einsum_expr) (a b : tensor C) : result (tensor C) :=
  let l1 := lhs1 expr in
  let l2 := lhs2 expr in
  let out := rhs expr in
  if negb ((length l1 =? rank a) && (length l2 =? rank b)) then Err RuntimeError
  else
    let dims := combine l1 (shape a) ++ combine l2 (shape b) in
    if negb (dims_consistent dims) then Err RuntimeError
    else if negb (forallb (fun c => str_mem c (l1 ++ l2)) out) then Err RuntimeError
    else if negb (str_nodup out) then Err RuntimeError
    else
      let summed := dedup (filter (fun c => negb (str_mem c out)) (l1 ++ l2)) in
      let out_shape := map (assoc0 dims) out in
      let sum_shape := map (assoc0 dims) summed in
      Ok (mkTensor out_shape
            (map (fun oi =>
                    Csum (map (fun si =>
                                 let env := combine out oi ++ combine summed si in
                                 Cmul (tget a (map (assoc0 env) l1))
                                      (tget b (map (assoc0 env) l2)))
                              (all_indices sum_shape)))
                 (all_indices out_shape))).

Definition apply_unitary_einsum (state mat : tensor C) (wires : list Z)
  : result (tensor C) :=
  let device_wires := wires in
  let total_wires := (Z.of_nat (rank state) - 1)%Z in
  let* batch :=
    (if 2 <? rank mat
     then
       let* bsz := shape0 mat in
       let* b := shape0 state in
       if b =? bsz then Ok (true, [bsz]) else Err AssertionError_batch
     else Ok (false, [])) in
  let is_batch_unitary := fst batch in
  let shape_extension := snd batch in
  let* mat := torch_reshape mat
                (shape_extension ++ py_list_mul (py_list_mul [2] (length device_wires)) 2) in
  (* mat.type(C_DTYPE).to(state): the entries are complex already *)
  let state_indices := py_slice ABC 0 total_wires in
  let* affected_indices := np_take ABC_ARRAY device_wires in
  let new_indices :=
    py_slice ABC total_wires (total_wires + Z.of_nat (length device_wires)) in
  let new_state_indices :=
    fold_left (fun old_string idx_pair => str_replace old_string (fst idx_pair) (snd idx_pair))
              (combine affected_indices new_indices) state_indices in
  if str_mem (py_last ABC)
       (state_indices ++ new_state_indices ++ new_indices ++ affected_indices)
  then Err AssertionError_qubits
  else
    let state_indices := py_last ABC :: state_indices in
    let new_state_indices := py_last ABC :: new_state_indices in
    let new_indices := if is_batch_unitary then py_last ABC :: new_indices else new_indices in
    let einsum_indices :=
      mkExpr (new_indices ++ affected_indices) state_indices new_state_indices in
    einsum einsum_indices mat state.

(** ** Objects, references and the dispatcher (functional.py:81-98) *)

(** Tensor objects and device objects live in a store and are passed by
    reference.  A [QuantumDevice] holds, in its attribute [states], a
    reference to its state tensor. *)
Definition loc : Type := positive.

Record QuantumDevice : Type := mkDevice { states : loc }.

Record world : Type := mkWorld {
  tensors : gmap loc (tensor C);
  devices : gmap loc QuantumDevice
}.

(** A computation on the store that may raise; the store is returned in
    both cases, as the exception leaves it. *)
Definition M (A : Type) : Type := world -> result A * world.

Definition ret {A} (a : A) : M A := fun w => (Ok a, w).
Definition raise {A} (e : exn) : M A := fun w => (Err e, w).
Definition mbind {A B} (m : M A) (k : A -> M B) : M B :=
  fun w => match m w with
           | (Ok a, w') => k a w'
           | (Err e, w') => (Err e, w')
           end.
Definition lift {A} (r : result A) : M A := fun w => (r, w).

Notation "'do' x <- e ; k" := (mbind e (fun x => k))
  (at level 10, x name, e at level 100, k at level 200).

(** Reading a tensor object.  Python has no dangling reference; a store
    that lacks the object is outside the model and reported as an error. *)
Definition read_tensor (l : loc) : M (tensor C) :=
  fun w => match tensors w !! l with
           | Some t => (Ok t, w)
           | None => (Err RuntimeError, w)
           end.

(** A new tensor object, at an address no tensor object has. *)
Definition new_tensor (t : tensor C) : M loc :=
  fun w => let l := fresh (dom (tensors w)) in
           (Ok l, mkWorld (<[l := t]> (tensors w)) (devices w)).

(** [q_device.states] *)
Definition get_states (q_device : loc) : M loc :=
  fun w => match devices w !! q_device with
           | Some d => (Ok (states d), w)
           | None => (Err RuntimeError, w)
           end.

(** [q_device.states = l] *)
Definition set_states (q_device : loc) (l : loc) : M unit :=
  fun w => (Ok tt, mkWorld (tensors w) (<[q_device := mkDevice l]> (devices w))).

(** [apply_unitary_einsum] on tensor objects: the operands are read, none
    of the operations of the function writes to them ([reshape], [type],
    [to] and [einsum] return tensors), and the result of [einsum] is a new
    object. *)
Definition apply_unitary_einsum_obj (state mat : loc) (wires : list Z) : M loc :=
  do s <- read_tensor state;
  do m <- read_tensor mat;
  do out <- lift (apply_unitary_einsum s m wires);
  new_tensor out.

(** The first argument of [gate_wrapper]: a tensor object of the table, or
    a callable. *)
Inductive mat_arg : Type :=
| MatTensor (m : loc)
| MatCallable1 (f : tensor R -> result (tensor C))
| MatCallable2 (f : tensor R -> nat -> result (tensor C)).

(** [isinstance(mat, Callable)] *)
Definition is_callable (mat : mat_arg) : bool :=
  match mat with MatTensor _ => false | _ => true end.

(** [mat(params)] and [mat(params, n_wires)] *)
Definition call1 (mat : mat_arg) (params : tensor R) : result (tensor C) :=
  match mat with
  | MatCallable1 f => f params
  | _ => Err TypeError
  end.
Definition call2 (mat : mat_arg) (params : tensor R) (n_wires : nat) : result (tensor C) :=
  match mat with
  | MatCallable2 f => f params n_wires
  | _ => Err TypeError
  end.

(** The argument [wires]: an int or a list of ints. *)
Inductive wires_arg : Type :=
| WInt (w : Z)
| WList (ws : list Z).

Definition gate_wrapper (mat : mat_arg) (q_device : loc) (wires : wires_arg)
    (params : option (tensor R)) (n_wires : option nat) : M unit :=
  do matrix <-
    (if is_callable mat
     then
       do params <-
         match params with
         | None => raise AttributeError        (* None has no method dim *)
         | Some p => ret (if rank p =? 1 then unsqueeze_last p else p)
         end;
       do m <- lift (match n_wires with
                     | None => call1 mat params
                     | Some n => call2 mat params n
                     end);
       new_tensor m
     else
       match mat with
       | MatTensor l => ret l
       | _ => raise TypeError
       end);
  do state <- get_states q_device;
  let wires := match wires with WInt w => [w] | WList ws => ws end in
  do new_state <- apply_unitary_einsum_obj state matrix wires;
  set_states q_device new_state.

(** ** The specification's operator on the whole register

    The definitions of this section follow the words of the specification,
    not the code: they are what the engine is compared with. *)

(** First position of [q] in [ws]. *)
Fixpoint index_of (q : nat) (ws : list nat) : option nat :=
  match ws with
  | [] => None
  | w :: ws' => if q =? w then Some 0 else option_map S (index_of q ws')
  end.

(** The bits of a basis state at the wires, in the order of the wires. *)
Definition select (ws : list nat) (bits : list nat) : list nat :=
  map (fun w => nth w bits 0) ws.

(** Two basis states agree at every position that is not a wire. *)
Definition agree_outside (ws : list nat) (r c : list nat) : bool :=
  forallb (fun q => match index_of q ws with
                    | Some _ => true
                    | None => nth q r 0 =? nth q c 0
                    end)
          (seq 0 (length r)).

(** The [2^n x 2^n] operator of a [2^k x 2^k] matrix on the wires [ws] of
    an [n]-qubit register: the matrix tensored with identities on the
    other qubits, its factors placed at the positions the wires name, in
    their order.  Entry (r, c): the matrix entry at the wire bits of [r]
    and of [c] when [r] and [c] agree elsewhere, and zero otherwise.
    Qubit 0 is the most significant bit, as in the row-major state. *)
Definition full_operator (n : nat) (mat : tensor C) (ws : list nat) : tensor C :=
  let s := repeat 2 n in
  let k := length ws in
  mkTensor [2 ^ n; 2 ^ n]
    (flat_map (fun r =>
       map (fun c =>
              if agree_outside ws (unravel s r) (unravel s c)
              then nth (ravel (repeat 2 k) (select ws (unravel s r)) * 2 ^ k
                        + ravel (repeat 2 k) (select ws (unravel s c)))
                       (data mat) C0
              else C0)
           (seq 0 (2 ^ n)))
       (seq 0 (2 ^ n))).

(** Every row [x] of a [(batch, N)] tensor replaced by [u x], for an
    [N x N] matrix [u]. *)
Definition apply_rows (u x : tensor C) : tensor C :=
  let b := nth 0 (shape x) 0 in
  let n := nth 1 (shape x) 0 in
  mkTensor [b; n]
    (flat_map (fun i =>
       map (fun r => Csum (map (fun c => Cmul (tget u [r; c]) (tget x [i; c])) (seq 0 n)))
           (seq 0 n))
       (seq 0 b)).

(** Reshape the state to (batch, 2^n), apply the full operator, reshape back. *)
Definition apply_full_operator (state mat : tensor C) (ws : list nat) : tensor C :=
  let n := rank state - 1 in
  let b := nth 0 (shape state) 0 in
  let x := mkTensor [b; 2 ^ n] (data state) in
  mkTensor (shape state) (data (apply_rows (full_operator n mat ws) x)).

(** The Kronecker product of two square matrices. *)
Definition kron (a b : tensor C) : tensor C :=
  let na := nth 0 (shape a) 0 in
  let nb := nth 0 (shape b) 0 in
  mkTensor [na * nb; na * nb]
    (flat_map (fun r =>
       map (fun c => Cmul (tget a [r / nb; c / nb]) (tget b [r mod nb; c mod nb]))
           (seq 0 (na * nb)))
       (seq 0 (na * nb))).

Definition eye2 : tensor C := torch_tensor2 [[C1; C0]; [C0; C1]].

(** The controlled version of a one-qubit gate [u]: the identity where the
    control is 0, [u] where it is 1. *)
Definition controlled (u : tensor C) : tensor C :=
  torch_tensor2 [[C1; C0; C0; C0];
                 [C0; C1; C0; C0];
                 [C0; C0; tget u [0; 0]; tget u [0; 1]];
                 [C0; C0; tget u [1; 0]; tget u [1; 1]]].

(** The standard rotations. *)
Definition ry_standard (theta : R) : tensor C :=
  torch_tensor2 [[Cn (cos (theta / 2)); Cn (- sin (theta / 2))];
                 [Cn (sin (theta / 2)); Cn (cos (theta / 2))]].

Definition rz_standard (theta : R) : tensor C :=
  torch_tensor2 [[Cexp (Cmul (Copp Ci) (Cn (theta / 2))); C0];
                 [C0; Cexp (Cmul Ci (Cn (theta / 2)))]].

(** A parameter tensor with one row per batch element. *)
Definition params_rows (b cols : nat) (xs : list R) : tensor R := mkTensor [b; cols] xs.

(** ** Auxiliary notions of the statements *)

(** The shape of a returned tensor. *)
Definition shape_of {A} (r : result (tensor A)) : option (list nat) :=
  match r with Ok m => Some (shape m) | Err _ => None end.

(** The shape after [squeeze(0)] of a [(b, d, d)] tensor. *)
Definition squeezed_shape (b d : nat) : list nat :=
  if b =? 1 then [d; d] else [b; d; d].

(** The tensor objects of [w] are objects of [w'], with the same shape
    and entries. *)
Definition preserved (w w' : world) : Prop := tensors w ⊆ tensors w'.

(** The matrix [gate_wrapper] passes to the engine: a computation that
    may allocate the matrix a callable has built, and does nothing else. *)
Definition wrapper_matrix (mat : mat_arg) (params : option (tensor R))
    (n_wires : option nat) : M loc :=
  if is_callable mat
  then
    do params <-
      match params with
      | None => raise AttributeError
      | Some p => ret (if rank p =? 1 then unsqueeze_last p else p)
      end;
    do m <- lift (match n_wires with
                  | None => call1 mat params
                  | Some n => call2 mat params n
                  end);
    new_tensor m
  else
    match mat with
    | MatTensor l => ret l
    | _ => raise TypeError
    end.

(** Every device of the store refers to a tensor object of the store. *)
Definition world_ok (w : world) : Prop :=
  forall q d, devices w !! q = Some d -> is_Some (tensors w !! states d).

(** A store with a one-qubit device in state |0> (object 1) and the
    table's Pauli-X (object 2). *)
Definition example_world : world :=
  mkWorld (<[1%positive := mkTensor [1; 2] [C1; C0]]> {[2%positive := paulix_mat]})
          {[1%positive := mkDevice 1%positive]}.

(** The i-th letter of the alphabet. *)
Definition letter (i : nat) : ascii := nth i ABC (py_last ABC).

(** The label of axis [q] of the new state, for wires [ws] on [n] qubits:
    the fresh label paired with the wire, or the old label. *)
Definition relabel (n : nat) (ws : list nat) (q : nat) : ascii :=
  match index_of q ws with
  | Some j => letter (n + j)
  | None => letter q
  end.

(** The basis state with the bits [si] at the wires [ws] and the bits of
    [o] elsewhere. *)
Definition merge (ws : list nat) (o si : list nat) : list nat :=
  map (fun q => match index_of q ws with
                | Some j => nth j si 0
                | None => nth q o 0
                end)
      (seq 0 (length o)).

(** The state |0...0> of [n] qubits, batch size 1. *)
Definition basis0 (n : nat) : tensor C :=
  mkTensor (1 :: repeat 2 n) (C1 :: repeat C0 (2 ^ n - 1)).

(** The labels of the new state for the wires [ws] on [n] qubits, as the
    engine computes them: the old labels, with the label of every wire
    replaced by its fresh label, one wire after the other. *)
Definition new_state_labels (n : nat) (ws : list nat) : str :=
  fold_left (fun old_string idx_pair => str_replace old_string (fst idx_pair) (snd idx_pair))
            (combine (map letter ws) (map letter (seq n (length ws))))
            (map letter (seq 0 n)).

(** The expression and the operands of the contraction. *)
Definition engine_expr (n : nat) (ws : list nat) : einsum_expr :=
  mkExpr (map letter (seq n (length ws)) ++ map letter ws)
         (letter 25 :: map letter (seq 0 n))
         (letter 25 :: new_state_labels n ws).

Definition engine_mat (mat : tensor C) (ws : list nat) : tensor C :=
  mkTensor (repeat 2 (length ws) ++ repeat 2 (length ws)) (data mat).

(** The labels the contraction sums over. *)
Definition engine_summed (n : nat) (ws : list nat) : str :=
  let e := engine_expr n ws in
  dedup (filter (fun c => negb (str_mem c (rhs e))) (lhs1 e ++ lhs2 e)).

(** The entry of the contraction's result at the output index [oi]. *)
Definition engine_entry (state mat : tensor C) (n : nat) (ws : list nat)
    (oi : list nat) : C :=
  let e := engine_expr n ws in
  Csum (map (fun si =>
               let env := combine (rhs e) oi ++ combine (engine_summed n ws) si in
               Cmul (tget (engine_mat mat ws) (map (assoc0 env) (lhs1 e)))
                    (tget state (map (assoc0 env) (lhs2 e))))
            (all_indices (repeat 2 (length (engine_summed n ws))))).

(** The state |01> of two qubits. *)
Definition ket01 : tensor C := mkTensor [1; 2; 2] [C0; C1; C0; C0].

(** ** Matrices: product, adjoint, identity

    Notions of the statements about how gates compose; they are not part
    of the program. *)

(** The product of two square matrices of one size. *)
Definition matmul (a b : tensor C) : tensor C :=
  let n := nth 0 (shape a) 0 in
  mkTensor [n; n]
    (flat_map (fun r =>
       map (fun c => Csum (map (fun t => Cmul (tget a [r; t]) (tget b [t; c])) (seq 0 n)))
           (seq 0 n))
       (seq 0 n)).

(** The identity matrix of size [n]. *)
Definition eye (n : nat) : tensor C :=
  mkTensor [n; n]
    (flat_map (fun r => map (fun c => if r =? c then C1 else C0) (seq 0 n)) (seq 0 n)).

(** The conjugate transpose of a square matrix. *)
Definition dagger (a : tensor C) : tensor C :=
  let n := nth 0 (shape a) 0 in
  mkTensor [n; n]
    (flat_map (fun r => map (fun c => Cconj (tget a [c; r])) (seq 0 n)) (seq 0 n)).

(** A square matrix is unitary when its adjoint is its left inverse. *)
Definition unitary (a : tensor C) : Prop :=
  matmul (dagger a) a = eye (nth 0 (shape a) 0).

(** The entry of the engine's result at batch element [i] and basis state
    [o], as a sum over the bits [si] of the wires: the matrix entry at (the
    wire bits of [o], [si]) times the amplitude of the basis state that has
    [si] at the wires and the bits of [o] elsewhere. *)
Definition wire_sum (state mat : tensor C) (n : nat) (ws : list nat)
    (i : nat) (o : list nat) : C :=
  Csum (map (fun si =>
               Cmul (nth (ravel (repeat 2 (length ws)) (select ws o) * 2 ^ length ws
                          + ravel (repeat 2 (length ws)) si) (data mat) C0)
                    (nth (i * 2 ^ n + ravel (repeat 2 n) (merge ws o si)) (data state) C0))
            (all_indices (repeat 2 (length ws)))).

(** The keys of the constant gates that are their own inverse. *)
Definition self_inverse_keys : list string :=
  ["hadamard"; "paulix"; "pauliy"; "pauliz"; "cnot"; "cz"; "swap"; "cswap"; "toffoli"]%string.

(** ** A matrix per batch element *)

(** [t[i]] and [t[i:i+1]] along the first axis. *)
Definition titem {A} (t : tensor A) (i : nat) : tensor A :=
  let s := tl (shape t) in
  mkTensor s (firstn (numel s) (skipn (i * numel s) (data t))).

Definition tslice1 {A} (t : tensor A) (i : nat) : tensor A :=
  let s := tl (shape t) in
  mkTensor (1 :: s) (firstn (numel s) (skipn (i * numel s) (data t))).

(** The expression and the matrix operand of the contraction when the
    matrix has a batch axis: the axis carries the letter of the batch. *)
Definition engine_expr_batched (n : nat) (ws : list nat) : einsum_expr :=
  mkExpr (letter 25 :: lhs1 (engine_expr n ws))
         (lhs2 (engine_expr n ws))
         (rhs (engine_expr n ws)).

Definition engine_mat_batched (mat : tensor C) (b : nat) (ws : list nat) : tensor C :=
  mkTensor (b :: repeat 2 (length ws) ++ repeat 2 (length ws)) (data mat).

Definition engine_entry_batched (state mat : tensor C) (b n : nat) (ws : list nat)
    (oi : list nat) : C :=
  let e := engine_expr_batched n ws in
  Csum (map (fun si =>
               let env := combine (rhs e) oi ++ combine (engine_summed n ws) si in
               Cmul (tget (engine_mat_batched mat b ws) (map (assoc0 env) (lhs1 e)))
                    (tget state (map (assoc0 env) (lhs2 e))))
            (all_indices (repeat 2 (length (engine_summed n ws))))).

(** ** Parameters with several rows *)

(** A generator, called on a list of parameter rows, works row by row:
    for two rows or more it returns a batch of [d] x [d] matrices, and
    the matrix at position [i] of the batch is the matrix it returns for
    row [i] alone. *)
Definition row_by_row {A} (call : list A -> result (tensor C)) (d : nat) : Prop :=
  forall (rows : list A) (i : nat) (dflt : A),
    2 <= length rows -> i < length rows ->
    exists m mi,
      call rows = Ok m
      /\ shape m = [length rows; d; d]
      /\ call [nth i rows dflt] = Ok mi
      /\ shape mi = [d; d]
      /\ titem m i = mi.

(** The parameters of [rot_matrix]: one row (phi, theta, omega) per
    batch element. *)
Definition rot_params (rows : list (R * R * R)) : tensor R :=
  mkTensor [length rows; 3]
    (flat_map (fun r => [fst (fst r); snd (fst r); snd r]) rows).

(** ** The dispatcher *)

(** The wires [gate_wrapper] passes on: an int becomes a list of one. *)
Definition wires_list (wires : wires_arg) : list Z :=
  match wires with WInt w => [w] | WList ws => ws end.

(** ** Sums of states *)

(** The entrywise sum of two tensors of one shape. *)
Definition tadd (a b : tensor C) : tensor C :=
  mkTensor (shape a) (map (fun p => Cadd (fst p) (snd p)) (combine (data a) (data b))).

(** ** Norms *)

(** The squared modulus of a complex number and the squared norm of a
    tensor: the sum of the squared moduli of its entries. *)
Definition Cnorm2 (z : C) : R := (fst z * fst z + snd z * snd z)%R.

Definition norm2 (t : tensor C) : R := fold_right Rplus 0%R (map Cnorm2 (data t)).
(** * Properties *)

(** ** Complex arithmetic *)

Section ComplexFacts.
Local Open Scope R_scope.

Lemma Cadd_comm (x y : C) : Cadd x y = Cadd y x.
Proof. unfold Cadd. f_equal; lra. Qed.

Lemma Cadd_assoc (x y z : C) : Cadd x (Cadd y z) = Cadd (Cadd x y) z.
Proof. unfold Cadd. cbn. f_equal; lra. Qed.

Lemma Cadd_0_l (x : C) : Cadd C0 x = x.
Proof. destruct x. unfold Cadd, C0. cbn. f_equal; lra. Qed.

Lemma Cmul_0_l (x : C) : Cmul C0 x = C0.
Proof. unfold Cmul, C0. cbn. f_equal; lra. Qed.

Lemma Ci_neq_opp : Ci <> Copp Ci.
Proof. unfold Ci, Copp. cbn. intros H. injection H. lra. Qed.

End ComplexFacts.

(** Evaluation of a program expression down to its real-number entries. *)
Ltac eval_entries :=
  cbv -[Rplus Rmult Ropp Rminus Rinv Rdiv IZR cos sin exp cosh sinh PI sqrt].

(** ** The rotation generators on one parameter row *)

Section Rotations.
Local Open Scope R_scope.

(** What [ry_matrix] returns for one angle: the sine terms sit at row 0,
    column 1 (positive) and at row 1, column 0 (negative). *)
Lemma ry_matrix_entries (theta : R) :
  ry_matrix (params_rows 1 1 [theta])
  = Ok (torch_tensor2 [[Cn (cos (theta / 2)); Cn (sin (theta / 2))];
                       [Cn (- sin (theta / 2)); Cn (cos (theta / 2))]]).
Proof.
  eval_entries.
  replace (0 / 2) with 0 by lra. rewrite cosh_0, sinh_0.
  repeat f_equal; lra.
Qed.

(** The code's matrix is the transpose of the standard rotation: it differs
    from it exactly when the sine of the half angle is not zero. *)
Lemma ry_matrix_standard_iff (theta : R) :
  ry_matrix (params_rows 1 1 [theta]) = Ok (ry_standard theta) <-> sin (theta / 2) = 0.
Proof.
  rewrite ry_matrix_entries. unfold ry_standard, torch_tensor2, Cn, RtoC. cbn.
  split.
  - intros H. injection H as H1 H2. lra.
  - intros H. rewrite H. repeat f_equal; lra.
Qed.

(** C3: at the angle pi the code returns [[0, 1], [-1, 0]], where the
    standard rotation RY(pi) = exp(-i pi Y/2) is [[0, -1], [1, 0]]: the sign
    flip sits at row 1, column 0, not at row 0, column 1. *)
Theorem ry_matrix_at_pi :
  ry_matrix (params_rows 1 1 [PI])
  = Ok (torch_tensor2 [[C0; C1]; [Cn (-1); C0]])
  /\ ry_standard PI = torch_tensor2 [[C0; Cn (-1)]; [C1; C0]]
  /\ ry_matrix (params_rows 1 1 [PI]) <> Ok (ry_standard PI).
Proof.
  split; [| split].
  - rewrite ry_matrix_entries, cos_PI2, sin_PI2. reflexivity.
  - unfold ry_standard. rewrite cos_PI2, sin_PI2. reflexivity.
  - rewrite ry_matrix_standard_iff, sin_PI2. lra.
Qed.

End Rotations.

Section RZ.
Local Open Scope R_scope.

Lemma rz_matrix_entries (theta : R) :
  rz_matrix (params_rows 1 1 [theta])
  = Ok (torch_tensor2 [[(cos (theta / 2), - sin (theta / 2)); C0];
                       [C0; (cos (theta / 2), sin (theta / 2))]]).
Proof.
  eval_entries.
  replace (0 * theta - - (1 / 2) * 0) with 0 by lra.
  replace (0 * 0 + - (1 / 2) * theta) with (- (theta / 2)) by lra.
  rewrite exp_0, cos_neg, sin_neg.
  repeat f_equal; lra.
Qed.

Lemma multirz_matrix_1_entries (theta : R) :
  multirz_matrix (params_rows 1 1 [theta]) 1
  = Ok (torch_tensor2 [[(cos (theta / 2), - sin (theta / 2)); C0];
                       [C0; (cos (theta / 2), sin (theta / 2))]]).
Proof.
  eval_entries.
  replace ((- 0 * theta - - (1) * 0) / 2 * 1 - (- 0 * 0 + - (1) * theta) / 2 * 0)
    with 0 by lra.
  replace ((- 0 * theta - - (1) * 0) / 2 * 0 + (- 0 * 0 + - (1) * theta) / 2 * 1)
    with (- (theta / 2)) by lra.
  replace ((- 0 * theta - - (1) * 0) / 2 * - (1) - (- 0 * 0 + - (1) * theta) / 2 * 0)
    with 0 by lra.
  replace ((- 0 * theta - - (1) * 0) / 2 * 0 + (- 0 * 0 + - (1) * theta) / 2 * - (1))
    with (theta / 2) by lra.
  rewrite exp_0, cos_neg, sin_neg.
  repeat f_equal; lra.
Qed.

Lemma rz_standard_entries (theta : R) :
  rz_standard theta
  = torch_tensor2 [[(cos (theta / 2), - sin (theta / 2)); C0];
                   [C0; (cos (theta / 2), sin (theta / 2))]].
Proof.
  unfold rz_standard. eval_entries.
  replace (- 0 * (theta / 2) - - (1) * 0) with 0 by lra.
  replace (- 0 * 0 + - (1) * (theta / 2)) with (- (theta / 2)) by lra.
  replace (0 * (theta / 2) - 1 * 0) with 0 by lra.
  replace (0 * 0 + 1 * (theta / 2)) with (theta / 2) by lra.
  rewrite exp_0, cos_neg, sin_neg.
  repeat f_equal; lra.
Qed.

(** C7: for every real angle, MultiRZ on one wire is RZ, entry by entry,
    and both are diag(e^{-i theta/2}, e^{i theta/2}). *)
Theorem multirz_matrix_1_eq_rz_matrix (theta : R) :
  multirz_matrix (params_rows 1 1 [theta]) 1 = rz_matrix (params_rows 1 1 [theta])
  /\ rz_matrix (params_rows 1 1 [theta]) = Ok (rz_standard theta).
Proof.
  rewrite multirz_matrix_1_entries, rz_matrix_entries, rz_standard_entries.
  split; reflexivity.
Qed.

End RZ.

(** ** The constant gates *)

Section Constants.
Local Open Scope R_scope.

(** The entries the table stores under the constant keys. *)
Lemma mat_dict_constants :
  mat_const "hadamard" = Some hadamard_mat /\ mat_const "paulix" = Some paulix_mat
  /\ mat_const "pauliy" = Some pauliy_mat /\ mat_const "pauliz" = Some pauliz_mat
  /\ mat_const "s" = Some s_mat /\ mat_const "t" = Some t_mat
  /\ mat_const "sx" = Some sx_mat /\ mat_const "cnot" = Some cnot_mat
  /\ mat_const "cz" = Some cz_mat /\ mat_const "cy" = Some cy_mat
  /\ mat_const "swap" = Some swap_mat /\ mat_const "cswap" = Some cswap_mat
  /\ mat_const "toffoli" = Some toffoli_mat.
Proof. repeat split; reflexivity. Qed.

Lemma hadamard_mat_standard :
  hadamard_mat = tscale (Cn (1 / sqrt 2)) (torch_tensor2 [[C1; C1]; [C1; Cn (-1)]]).
Proof.
  unfold hadamard_mat, INV_SQRT2. eval_entries. repeat f_equal; lra.
Qed.

Lemma t_mat_standard :
  t_mat = torch_tensor2 [[C1; C0]; [C0; (cos (PI / 4), sin (PI / 4))]].
Proof.
  unfold t_mat. eval_entries.
  replace ((0 * PI - 1 * 0) / 4) with 0 by lra.
  replace ((0 * 0 + 1 * PI) / 4) with (PI / 4) by lra.
  rewrite exp_0. repeat f_equal; lra.
Qed.

Lemma sx_mat_standard :
  sx_mat = torch_tensor2 [[(1 / 2, 1 / 2); (1 / 2, - (1 / 2))];
                          [(1 / 2, - (1 / 2)); (1 / 2, 1 / 2)]].
Proof. unfold sx_mat. eval_entries. repeat f_equal; lra. Qed.

(** CNOT and CZ are the controlled X and the controlled Z of the table. *)
Lemma cnot_cz_controlled :
  cnot_mat = controlled paulix_mat /\ cz_mat = controlled pauliz_mat.
Proof. split; reflexivity. Qed.

(** C2: the table's CY has -i at row 3, column 2, where the standard
    controlled-Y has +i (the entry Y[1][0] of the table's own Pauli-Y): the
    CY of the table is not the controlled version of its Pauli-Y. *)
Theorem cy_mat_row3_col2 :
  mat_const "cy" = Some cy_mat
  /\ tget cy_mat [3; 2]%nat = Copp Ci
  /\ tget (controlled pauliy_mat) [3; 2]%nat = Ci
  /\ tget cy_mat [3; 2]%nat <> Ci
  /\ cy_mat <> controlled pauliy_mat.
Proof.
  split; [reflexivity |]. split; [reflexivity |]. split; [reflexivity |].
  assert (Hne : tget cy_mat [3; 2]%nat <> Ci).
  { change (tget cy_mat [3; 2]%nat) with (Copp Ci).
    intros H. apply Ci_neq_opp. symmetry. exact H. }
  split; [exact Hne |].
  intros H. apply Hne. rewrite H. reflexivity.
Qed.

End Constants.

(** ** The batch axis of the parametric generators *)

Section BatchAxis.

Lemma shape_eqb_refl (s : list nat) : shape_eqb s s = true.
Proof. unfold shape_eqb. apply bool_decide_eq_true. reflexivity. Qed.

Lemma shape_squeeze0 {A} (t : tensor A) b d :
  shape t = [b; d; d] -> shape (squeeze0 t) = squeezed_shape b d.
Proof.
  intros H. unfold squeeze0, squeezed_shape. rewrite H.
  destruct b as [| [| b]]; cbn; try rewrite H; reflexivity.
Qed.

Lemma torch_cat_pair {A} (a b : tensor A) (n x y : nat) :
  shape a = [n; x] -> shape b = [n; y] ->
  exists t, torch_cat [a; b] = Ok t /\ shape t = [n; x + y].
Proof.
  intros Ha Hb. unfold torch_cat, rank. cbn [forallb map list_sum].
  rewrite Ha, Hb. cbn [removelast length Nat.eqb negb andb].
  rewrite shape_eqb_refl. cbn [andb].
  eexists. split; [reflexivity |].
  cbn. rewrite Nat.add_0_r. reflexivity.
Qed.

Lemma torch_stack_pair {A} (a b : tensor A) (s : list nat) :
  shape a = s -> shape b = s ->
  exists t, torch_stack [a; b] = Ok t /\ shape t = s ++ [2].
Proof.
  intros Ha Hb. unfold torch_stack. cbn [forallb map length].
  rewrite Ha, Hb, shape_eqb_refl. cbn [andb].
  eexists. split; reflexivity.
Qed.

(** The common tail of the 2x2 generators: two [cat]s, one [stack], one
    [squeeze(0)]. *)
Lemma cat_cat_stack_shape (a b c d : tensor C) (n : nat) :
  shape a = [n; 1] -> shape b = [n; 1] -> shape c = [n; 1] -> shape d = [n; 1] ->
  shape_of (let* row0 := torch_cat [a; b] in
            let* row1 := torch_cat [c; d] in
            let* m := torch_stack [row0; row1] in
            Ok (squeeze0 m))
  = Some (squeezed_shape n 2).
Proof.
  intros Ha Hb Hc Hd.
  destruct (torch_cat_pair a b n 1 1 Ha Hb) as (r0 & -> & H0).
  destruct (torch_cat_pair c d n 1 1 Hc Hd) as (r1 & -> & H1).
  destruct (torch_stack_pair r0 r1 _ H0 H1) as (m & Hm & Hs).
  cbn. cbn in Hm. rewrite Hm. cbn. f_equal. apply shape_squeeze0. exact Hs.
Qed.

Lemma rx_matrix_shape (b : nat) (xs : list R) :
  shape_of (rx_matrix (params_rows b 1 xs)) = Some (squeezed_shape b 2).
Proof. unfold rx_matrix. apply cat_cat_stack_shape; reflexivity. Qed.

Lemma ry_matrix_shape (b : nat) (xs : list R) :
  shape_of (ry_matrix (params_rows b 1 xs)) = Some (squeezed_shape b 2).
Proof. unfold ry_matrix. apply cat_cat_stack_shape; reflexivity. Qed.

Lemma rz_matrix_shape (b : nat) (xs : list R) :
  shape_of (rz_matrix (params_rows b 1 xs)) = Some (squeezed_shape b 2).
Proof. unfold rz_matrix. apply cat_cat_stack_shape; reflexivity. Qed.

Lemma phaseshift_matrix_shape (b : nat) (xs : list R) :
  shape_of (phaseshift_matrix (params_rows b 1 xs)) = Some (squeezed_shape b 2).
Proof. unfold phaseshift_matrix. apply cat_cat_stack_shape; reflexivity. Qed.

Lemma bshape_same (s : list nat) : bshape s s = Some s.
Proof.
  unfold bshape.
  assert (H : forall r, bshape_rev r r = Some r).
  { induction r as [| d r IH]; [reflexivity |].
    cbn. rewrite IH, Nat.eqb_refl. reflexivity. }
  rewrite H. cbn. rewrite rev_involutive. reflexivity.
Qed.

Lemma tbroadcast_same_shape (f : C -> C -> C) (a b : tensor C) (s : list nat) :
  shape a = s -> shape b = s ->
  exists t, tbroadcast f a b = Ok t /\ shape t = s.
Proof.
  intros Ha Hb. unfold tbroadcast. rewrite Ha, Hb, bshape_same.
  eexists. split; reflexivity.
Qed.

Lemma rot_matrix_shape (b : nat) (xs : list R) :
  shape_of (rot_matrix (params_rows b 3 xs)) = Some (squeezed_shape b 2).
Proof.
  unfold rot_matrix, select_col. cbn [params_rows shape Nat.ltb Nat.leb bind].
  repeat match goal with
  | |- context [tbroadcast ?f ?x ?y] =>
      let t := fresh "m" in let E := fresh "E" in let S := fresh "S" in
      destruct (tbroadcast_same_shape f x y [b; 1]) as (t & E & S);
      [ first [assumption | reflexivity | (cbn; assumption)] ..
      | rewrite E; cbn [bind] ]
  end.
  apply cat_cat_stack_shape; first [assumption | (cbn; assumption)].
Qed.

Lemma pauli_eigs_length (n : nat) : length (pauli_eigs n) = 2 ^ n.
Proof.
  induction n as [| n IH]; [reflexivity |].
  cbn [pauli_eigs]. rewrite length_app, length_map, IH. cbn. lia.
Qed.

Lemma bshape_col_row (b m : nat) : bshape [b; 1] [m] = Some [b; m].
Proof.
  destruct m as [| [| m]]; reflexivity.
Qed.

Lemma tbroadcast_shape (f : C -> C -> C) (a b : tensor C) (s : list nat) :
  bshape (shape a) (shape b) = Some s ->
  exists t, tbroadcast f a b = Ok t /\ shape t = s.
Proof.
  intros H. unfold tbroadcast. rewrite H. eexists. split; reflexivity.
Qed.

Lemma diag_shape (x : tensor C) (b m : nat) :
  shape x = [b; m] -> shape (diag x) = [b; m; m].
Proof. intros H. unfold diag. rewrite H. reflexivity. Qed.

Lemma multirz_matrix_shape (b n : nat) (xs : list R) :
  shape_of (multirz_matrix (params_rows b 1 xs) n) = Some (squeezed_shape b (2 ^ n)).
Proof.
  unfold multirz_matrix, multirz_eigvals.
  match goal with
  | |- context [tbroadcast ?f ?x ?y] =>
      destruct (tbroadcast_shape f x y [b; 2 ^ n]) as (t & E & S)
  end.
  { cbn [params_rows type_C_DTYPE tmap tdiv tscale shape torch_tensor1].
    rewrite pauli_eigs_length. apply bshape_col_row. }
  rewrite E. cbn [bind shape_of]. f_equal.
  apply shape_squeeze0, diag_shape. exact S.
Qed.

Lemma setitem_ij_shape (m v : tensor C) (b i j : nat) :
  shape m = [b; 4; 4] -> shape v = [b] -> i < 4 -> j < 4 ->
  exists t, setitem_ij m i j v = Ok t /\ shape t = [b; 4; 4].
Proof.
  intros Hm Hv Hi Hj. unfold setitem_ij. rewrite Hm, Hv, shape_eqb_refl.
  apply Nat.ltb_lt in Hi, Hj. rewrite Hi, Hj. cbn.
  eexists. split; reflexivity.
Qed.

Lemma crx_matrix_shape (b : nat) (xs : list R) :
  shape_of (crx_matrix (params_rows b 1 xs)) = Some (squeezed_shape b 4).
Proof.
  unfold crx_matrix, repeat0, select_col, shape0.
  cbn [params_rows type_C_DTYPE tmap tdiv tscale tneg torch_cos torch_sin shape
       unsqueeze0 torch_tensor2 bind Nat.ltb Nat.leb].
  rewrite Nat.mul_1_r.
  repeat match goal with
  | |- context [setitem_ij ?m ?i ?j ?v] =>
      let t := fresh "m" in let E := fresh "E" in let S := fresh "S" in
      destruct (setitem_ij_shape m v b i j) as (t & E & S);
      [ first [assumption | reflexivity | lia] ..
      | rewrite E; cbn [bind] ]
  end.
  cbn. f_equal. apply shape_squeeze0. assumption.
Qed.

(** C4, as the code has it: for parameters with [b] rows every generator
    returns a matrix of shape (b, d, d) when [b] is not 1, and of shape
    (d, d), without a batch axis, when [b] is 1: [squeeze(0)] removes it. *)
Theorem generators_batch_axis (b n : nat) (xs : list R) :
  shape_of (rx_matrix (params_rows b 1 xs)) = Some (squeezed_shape b 2)
  /\ shape_of (ry_matrix (params_rows b 1 xs)) = Some (squeezed_shape b 2)
  /\ shape_of (rz_matrix (params_rows b 1 xs)) = Some (squeezed_shape b 2)
  /\ shape_of (phaseshift_matrix (params_rows b 1 xs)) = Some (squeezed_shape b 2)
  /\ shape_of (rot_matrix (params_rows b 3 xs)) = Some (squeezed_shape b 2)
  /\ shape_of (multirz_matrix (params_rows b 1 xs) n) = Some (squeezed_shape b (2 ^ n))
  /\ shape_of (crx_matrix (params_rows b 1 xs)) = Some (squeezed_shape b 4).
Proof.
  repeat split.
  - apply rx_matrix_shape.
  - apply ry_matrix_shape.
  - apply rz_matrix_shape.
  - apply phaseshift_matrix_shape.
  - apply rot_matrix_shape.
  - apply multirz_matrix_shape.
  - apply crx_matrix_shape.
Qed.

(** C4, as stated, fails for one parameter row: the matrix [rx_matrix]
    returns has shape (2, 2); its leading axis is a matrix axis of size 2,
    not a batch axis of size 1. *)
Lemma rx_matrix_single_row_unbatched :
  shape_of (rx_matrix (params_rows 1 1 [0%R])) = Some [2; 2]
  /\ shape_of (rx_matrix (params_rows 1 1 [0%R])) <> Some [1; 2; 2].
Proof.
  rewrite rx_matrix_shape. split; [reflexivity | discriminate].
Qed.

End BatchAxis.

(** ** The store: what a call reads, writes and allocates *)

Section Store.

Lemma preserved_refl (w : world) : preserved w w.
Proof. unfold preserved. reflexivity. Qed.

Lemma preserved_lookup (w w' : world) (l : loc) (t : tensor C) :
  preserved w w' -> tensors w !! l = Some t -> tensors w' !! l = Some t.
Proof. unfold preserved. intros H Hl. eapply lookup_weaken; eassumption. Qed.

Lemma fresh_tensor_None (w : world) : tensors w !! fresh (dom (tensors w)) = None.
Proof. apply not_elem_of_dom, is_fresh. Qed.

Lemma new_tensor_spec (t : tensor C) (w : world) :
  exists l, new_tensor t w = (Ok l, mkWorld (<[l := t]> (tensors w)) (devices w))
            /\ tensors w !! l = None.
Proof.
  eexists. split; [reflexivity | apply fresh_tensor_None].
Qed.

(** The engine on objects: it reads its two operands, allocates the result
    at an address that held no tensor, and changes nothing else. *)
Lemma apply_unitary_einsum_obj_spec (state mat : loc) (wires : list Z) (w : world) :
  match apply_unitary_einsum_obj state mat wires w with
  | (Ok l, w') =>
      exists s m out,
        tensors w !! state = Some s /\ tensors w !! mat = Some m
        /\ apply_unitary_einsum s m wires = Ok out
        /\ tensors w !! l = None
        /\ tensors w' = <[l := out]> (tensors w)
        /\ devices w' = devices w
  | (Err _, w') => w' = w
  end.
Proof.
  unfold apply_unitary_einsum_obj, mbind, read_tensor, lift.
  destruct (tensors w !! state) as [s |] eqn:Hs; [| reflexivity].
  destruct (tensors w !! mat) as [m |] eqn:Hm; [| reflexivity].
  destruct (apply_unitary_einsum s m wires) as [out | e] eqn:Ho; [| reflexivity].
  destruct (new_tensor_spec out w) as (l & -> & Hl).
  exists s, m, out. repeat split; assumption.
Qed.

Lemma wrapper_matrix_spec mat params n_wires (w : world) :
  preserved w (snd (wrapper_matrix mat params n_wires w))
  /\ devices (snd (wrapper_matrix mat params n_wires w)) = devices w
  /\ (forall e, fst (wrapper_matrix mat params n_wires w) = Err e ->
                snd (wrapper_matrix mat params n_wires w) = w).
Proof.
  unfold wrapper_matrix, mbind, lift, raise, ret.
  destruct (is_callable mat).
  - destruct params as [p |]; cbn.
    + destruct (match n_wires with
                | Some n => call2 mat _ n
                | None => call1 mat _
                end) as [m | e]; cbn.
      * split; [| split; [reflexivity | discriminate]].
        unfold preserved. cbn. apply insert_subseteq, fresh_tensor_None.
      * split; [apply preserved_refl | split; reflexivity].
    + split; [apply preserved_refl | split; reflexivity].
  - destruct mat; cbn; (split; [apply preserved_refl | split; reflexivity]).
Qed.

Lemma wrapper_matrix_tensor mat params n_wires (w : world) :
  forall l, mat = MatTensor l -> wrapper_matrix mat params n_wires w = (Ok l, w).
Proof. intros l ->. reflexivity. Qed.

Lemma gate_wrapper_unfold mat q_device wires params n_wires :
  gate_wrapper mat q_device wires params n_wires
  = (do matrix <- wrapper_matrix mat params n_wires;
     do state <- get_states q_device;
     do new_state <-
       apply_unitary_einsum_obj state matrix
         (match wires with WInt w => [w] | WList ws => ws end);
     set_states q_device new_state).
Proof. reflexivity. Qed.

(** What a call of [gate_wrapper] does to the store. *)
Lemma gate_wrapper_spec mat q_device wires params n_wires (w : world) :
  world_ok w ->
  match gate_wrapper mat q_device wires params n_wires w with
  | (Ok _, w') =>
      preserved w w'
      /\ exists old new s m out,
           devices w !! q_device = Some (mkDevice old)
           /\ tensors w !! old = Some s
           /\ apply_unitary_einsum s m
                (match wires with WInt x => [x] | WList ws => ws end) = Ok out
           /\ tensors w !! new = None
           /\ tensors w' !! new = Some out
           /\ tensors w' !! old = Some s
           /\ devices w' = <[q_device := mkDevice new]> (devices w)
           /\ (forall l, mat = MatTensor l ->
                         tensors w !! l = Some m /\ tensors w' !! l = Some m)
  | (Err _, w') => preserved w w' /\ devices w' = devices w
  end.
Proof.
  intros Hok.
  rewrite gate_wrapper_unfold. unfold mbind at 1.
  destruct (wrapper_matrix_spec mat params n_wires w) as (Hp1 & Hd1 & He1).
  pose proof (wrapper_matrix_tensor mat params n_wires w) as Hmt.
  destruct (wrapper_matrix mat params n_wires w) as [[matrix | e] w1] eqn:Hw1;
    cbn [fst snd] in *; [| split; assumption].
  unfold mbind at 1, get_states.
  destruct (devices w1 !! q_device) as [[old] |] eqn:Hq; [| split; assumption].
  cbn [states]. unfold mbind at 1.
  pose proof (apply_unitary_einsum_obj_spec old matrix
                (match wires with WInt x => [x] | WList ws => ws end) w1) as Hspec.
  destruct (apply_unitary_einsum_obj old matrix _ w1) as [[new | e] w2].
  - destruct Hspec as (s & m & out & Hs & Hm & Hout & Hnew & Ht2 & Hd2).
    unfold set_states. cbn [tensors devices].
    assert (Hp2 : preserved w w2).
    { unfold preserved. rewrite Ht2. etrans; [exact Hp1 |].
      apply insert_subseteq. exact Hnew. }
    split; [exact Hp2 |].
    rewrite Hd1 in Hq.
    assert (Hold : tensors w !! old = Some s).
    { destruct (Hok _ _ Hq) as [s' Hs']. cbn in Hs'.
      rewrite (preserved_lookup _ _ _ _ Hp1 Hs') in Hs. congruence. }
    exists old, new, s, m, out.
    split; [exact Hq |]. split; [exact Hold |]. split; [exact Hout |].
    split.
    { destruct (tensors w !! new) as [t |] eqn:Hn; [| reflexivity].
      rewrite (preserved_lookup _ _ _ _ Hp1 Hn) in Hnew. discriminate. }
    split; [rewrite Ht2; apply lookup_insert_eq |].
    split; [exact (preserved_lookup _ _ _ _ Hp2 Hold) |].
    split; [rewrite Hd2, Hd1; reflexivity |].
    intros l ->. specialize (Hmt l eq_refl). injection Hmt as Hml Hw.
    subst matrix w1.
    split; [exact Hm |].
    exact (preserved_lookup _ _ _ _ Hp2 Hm).
  - subst w2. split; assumption.
Qed.

End Store.

Section StoreExamples.

Lemma example_world_ok : world_ok example_world.
Proof.
  intros q d H. unfold example_world in *. cbn in *.
  apply lookup_singleton_Some in H as [<- <-]. cbn.
  eexists. apply lookup_insert_eq.
Qed.

(** C10: a callable gate without parameters raises at [params.dim()],
    before the matrix is built and before the device is read: the store is
    the store of before the call.  A constant gate never looks at [params]:
    with and without them the call is the same. *)
Theorem gate_wrapper_params_None (q_device : loc) (wires : wires_arg)
    (n_wires : option nat) (w : world) :
  (forall f, gate_wrapper (MatCallable1 f) q_device wires None n_wires w
             = (Err AttributeError, w))
  /\ (forall f, gate_wrapper (MatCallable2 f) q_device wires None n_wires w
                = (Err AttributeError, w))
  /\ (forall l params, gate_wrapper (MatTensor l) q_device wires params n_wires w
                       = gate_wrapper (MatTensor l) q_device wires None n_wires w).
Proof. repeat split. Qed.

(** Every callable entry of the table is such a gate. *)
Lemma mat_dict_callables :
  map fst (filter (fun e => match snd e with Matrix _ => false | _ => true end) mat_dict)
  = ["rx"; "ry"; "rz"; "phaseshift"; "rot"; "multirz"; "crx"]%string.
Proof. reflexivity. Qed.

End StoreExamples.

(** ** Sums, offsets and multi-indices *)

Section Sums.

Lemma Csum_perm (l l' : list C) : Permutation l l' -> Csum l = Csum l'.
Proof.
  induction 1 as [| x l l' _ IH | x y l | l l' l'' _ IH1 _ IH2]; cbn.
  - reflexivity.
  - fold (Csum l). fold (Csum l'). rewrite IH. reflexivity.
  - fold (Csum l). rewrite !Cadd_assoc, (Cadd_comm y x). reflexivity.
  - congruence.
Qed.

Lemma Csum_map_filter {A} (p : A -> bool) (g : A -> C) (l : list A) :
  Csum (map (fun x => if p x then g x else C0) l) = Csum (map g (filter p l)).
Proof.
  induction l as [| x l IH]; [reflexivity |].
  cbn. fold (Csum (map (fun x => if p x then g x else C0) l)). rewrite IH.
  destruct (p x); cbn.
  - reflexivity.
  - apply Cadd_0_l.
Qed.

Lemma Csum_map_ext {A} (f g : A -> C) (l : list A) :
  (forall x, In x l -> f x = g x) -> Csum (map f l) = Csum (map g l).
Proof. intros H. f_equal. apply map_ext_in. exact H. Qed.

End Sums.

Section Offsets.

Lemma numel_app (s1 s2 : list nat) : numel (s1 ++ s2) = numel s1 * numel s2.
Proof.
  unfold numel. induction s1 as [| d s1 IH]; cbn; [lia |].
  rewrite IH. lia.
Qed.

Lemma numel_repeat2 (k : nat) : numel (repeat 2 k) = 2 ^ k.
Proof.
  induction k as [| k IH]; [reflexivity |].
  cbn [repeat numel fold_right]. fold (numel (repeat 2 k)). rewrite IH.
  rewrite Nat.pow_succ_r'. reflexivity.
Qed.

Lemma map_add_seq (a n : nat) : map (fun r => a + r) (seq 0 n) = seq a n.
Proof.
  induction n as [| n IH]; [reflexivity |].
  rewrite !seq_S, map_app, IH. cbn. reflexivity.
Qed.

Lemma flat_map_rows_seq (d n : nat) :
  flat_map (fun i => map (fun r => i * n + r) (seq 0 n)) (seq 0 d) = seq 0 (d * n).
Proof.
  induction d as [| d IH]; [reflexivity |].
  rewrite seq_S, flat_map_app, IH. cbn [flat_map].
  rewrite app_nil_r, map_add_seq.
  replace (S d * n) with (d * n + n) by lia.
  rewrite seq_app. reflexivity.
Qed.

Lemma length_flat_map_rows {A B} (f : A -> nat -> B) (n : nat) (l : list A) :
  length (flat_map (fun r => map (f r) (seq 0 n)) l) = length l * n.
Proof.
  induction l as [| x l IH]; [reflexivity |].
  cbn [flat_map]. rewrite length_app, length_map, length_seq, IH. cbn. lia.
Qed.

(** Entry (r, c) of a matrix given row by row. *)
Lemma nth_flat_map_rows {B} (f : nat -> nat -> B) (m n r c : nat) (d : B) :
  r < m -> c < n ->
  nth (r * n + c) (flat_map (fun r => map (f r) (seq 0 n)) (seq 0 m)) d = f r c.
Proof.
  induction m as [| m IH]; [lia |].
  intros Hr Hc. rewrite seq_S, flat_map_app. cbn [flat_map]. rewrite app_nil_r.
  destruct (Nat.eq_dec r m) as [-> | Hne].
  - rewrite app_nth2 by (rewrite length_flat_map_rows, length_seq; lia).
    rewrite length_flat_map_rows, length_seq.
    replace (m * n + c - m * n) with c by lia.
    rewrite (nth_indep _ d (f m 0)) by (rewrite length_map, length_seq; exact Hc).
    rewrite map_nth, seq_nth by exact Hc. reflexivity.
  - assert (Hlt : r < m) by lia.
    rewrite app_nth1; [apply IH; assumption |].
    rewrite length_flat_map_rows, length_seq.
    apply Nat.lt_le_trans with (r * n + n); [lia |].
    replace (r * n + n) with (S r * n) by lia.
    apply Nat.mul_le_mono_r. lia.
Qed.

Lemma all_indices_In (s idx : list nat) :
  In idx (all_indices s) <-> Forall2 lt idx s.
Proof.
  revert idx. induction s as [| d s IH]; intros idx; cbn [all_indices].
  - split.
    + intros [<- | []]. constructor.
    + intros H. inversion H. left. reflexivity.
  - rewrite in_flat_map. split.
    + intros (i & Hi & Hin). apply in_map_iff in Hin as (idx' & <- & Hin').
      apply in_seq in Hi. constructor; [lia | apply IH; exact Hin'].
    + intros H. inversion H as [| i d' idx' s' Hlt Hrest]; subst.
      exists i. split; [apply in_seq; lia |].
      apply in_map_iff. exists idx'. split; [reflexivity | apply IH; exact Hrest].
Qed.

Lemma all_indices_NoDup (s : list nat) : NoDup (all_indices s).
Proof.
  induction s as [| d s IH]; cbn [all_indices].
  - constructor; [intros [] | constructor].
  - generalize 0 as a. induction d as [| d IHd]; intros a; cbn [seq flat_map].
    + constructor.
    + apply NoDup_app.
      * apply NoDup_map_NoDup_ForallPairs; [| exact IH].
        intros x y _ _ H. congruence.
      * apply IHd.
      * intros idx H1 H2. apply in_map_iff in H1 as (x & <- & _).
        apply in_flat_map in H2 as (i & Hi & Hin). apply in_seq in Hi.
        apply in_map_iff in Hin as (y & Heq & _). injection Heq as Heq _. lia.
Qed.

Lemma map_flat_map {A B D} (g : B -> D) (f : A -> list B) (l : list A) :
  map g (flat_map f l) = flat_map (fun x => map g (f x)) l.
Proof.
  induction l as [| x l IH]; [reflexivity |].
  cbn [flat_map]. rewrite map_app, IH. reflexivity.
Qed.

Lemma map_ravel_all_indices (s : list nat) :
  map (ravel s) (all_indices s) = seq 0 (numel s).
Proof.
  induction s as [| d s IH]; [reflexivity |].
  cbn [all_indices]. change (numel (d :: s)) with (d * numel s).
  rewrite <- flat_map_rows_seq, map_flat_map.
  apply flat_map_ext. intros i.
  rewrite <- IH, !map_map. reflexivity.
Qed.

Lemma all_indices_length (s : list nat) : length (all_indices s) = numel s.
Proof.
  rewrite <- (length_map (ravel s)), map_ravel_all_indices, length_seq. reflexivity.
Qed.

Lemma ravel_lt (s idx : list nat) : Forall2 lt idx s -> ravel s idx < numel s.
Proof.
  induction 1 as [| i d idx s Hlt _ IH]; cbn; [lia |]. fold (numel s). nia.
Qed.

Lemma unravel_ravel (s idx : list nat) :
  Forall2 lt idx s -> unravel s (ravel s idx) = idx.
Proof.
  induction 1 as [| i d idx s Hlt Hrest IH]; [reflexivity |].
  cbn [ravel unravel]. pose proof (ravel_lt _ _ Hrest) as Hr.
  assert (Hn : numel s <> 0) by lia.
  rewrite Nat.div_add_l, Nat.div_small by assumption.
  rewrite (Nat.add_comm (i * numel s)), Nat.Div0.mod_add, Nat.mod_small by assumption.
  rewrite IH. f_equal. lia.
Qed.

Lemma ravel_app (s1 s2 x y : list nat) :
  length x = length s1 ->
  ravel (s1 ++ s2) (x ++ y) = ravel s1 x * numel s2 + ravel s2 y.
Proof.
  revert x. induction s1 as [| d s1 IH]; intros [| i x] Hlen; try discriminate.
  - reflexivity.
  - cbn [app ravel]. rewrite IH by (cbn in Hlen; lia). rewrite numel_app. lia.
Qed.

Lemma Forall2_lt_repeat (idx : list nat) (d n : nat) :
  Forall2 lt idx (repeat d n) <-> length idx = n /\ Forall (fun i => i < d) idx.
Proof.
  revert idx. induction n as [| n IH]; intros idx; cbn [repeat].
  - split.
    + intros H. inversion H. split; [reflexivity | constructor].
    + intros [H _]. destruct idx; [constructor | discriminate].
  - split.
    + intros H. inversion H as [| i d' idx' s' Hlt Hrest]; subst.
      apply IH in Hrest as [Hl Hf]. split; [cbn; lia | constructor; assumption].
    + intros [Hl Hf]. destruct idx as [| i idx]; [discriminate |].
      inversion Hf; subst. constructor; [assumption |].
      apply IH. split; [cbn in Hl; lia | assumption].
Qed.

End Offsets.

(** ** Labels and the alphabet *)

Section Labels.

Lemma str_mem_In (c : ascii) (s : str) : str_mem c s = true <-> In c s.
Proof.
  unfold str_mem. rewrite existsb_exists. split.
  - intros (x & Hin & Heq). apply Ascii.eqb_eq in Heq. subst. exact Hin.
  - intros H. exists c. split; [exact H | apply Ascii.eqb_refl].
Qed.

Lemma str_mem_false (c : ascii) (s : str) : str_mem c s = false <-> ~ In c s.
Proof.
  rewrite <- str_mem_In. destruct (str_mem c s); split; congruence.
Qed.

Lemma str_nodup_NoDup (s : str) : str_nodup s = true <-> NoDup s.
Proof.
  induction s as [| c s IH]; cbn [str_nodup].
  - split; [constructor | reflexivity].
  - rewrite andb_true_iff, negb_true_iff, str_mem_false, IH, NoDup_cons_iff.
    reflexivity.
Qed.

Lemma assoc_app {V} (e1 e2 : list (ascii * V)) (c : ascii) :
  assoc (e1 ++ e2) c = match assoc e1 c with Some v => Some v | None => assoc e2 c end.
Proof.
  induction e1 as [| [k v] e1 IH]; [reflexivity |].
  cbn. destruct (Ascii.eqb k c); [reflexivity | exact IH].
Qed.

Lemma assoc_None {V} (keys : str) (vals : list V) (c : ascii) :
  ~ In c keys -> assoc (combine keys vals) c = None.
Proof.
  revert vals. induction keys as [| k keys IH]; intros vals H; [reflexivity |].
  destruct vals as [| v vals]; [reflexivity |].
  cbn. destruct (Ascii.eqb k c) eqn:E.
  - apply Ascii.eqb_eq in E. subst. exfalso. apply H. left. reflexivity.
  - apply IH. intros Hin. apply H. right. exact Hin.
Qed.

Lemma assoc_In {V} (e : list (ascii * V)) (c : ascii) (v : V) :
  assoc e c = Some v -> In (c, v) e.
Proof.
  induction e as [| [k u] e IH]; [discriminate |].
  cbn. destruct (Ascii.eqb k c) eqn:E.
  - apply Ascii.eqb_eq in E. intros [= ->]. subst. left. reflexivity.
  - intros H. right. apply IH. exact H.
Qed.

Lemma assoc_is_Some {V} (e : list (ascii * V)) (c : ascii) (v : V) :
  In (c, v) e -> exists v', assoc e c = Some v'.
Proof.
  induction e as [| [k u] e IH]; [intros [] |].
  intros [H | H]; cbn.
  - injection H as -> ->. rewrite Ascii.eqb_refl. eexists. reflexivity.
  - destruct (Ascii.eqb k c); [eexists; reflexivity | apply IH; exact H].
Qed.

Lemma assoc_combine_nth {V} (keys : str) (vals : list V) (j : nat) (d : ascii) (dv : V) :
  NoDup keys -> j < length keys -> j < length vals ->
  assoc (combine keys vals) (nth j keys d) = Some (nth j vals dv).
Proof.
  revert vals j. induction keys as [| k keys IH]; intros vals j Hnd Hk Hv.
  - cbn in Hk. lia.
  - destruct vals as [| v vals]; [cbn in Hv; lia |].
    apply NoDup_cons_iff in Hnd as [Hnotin Hnd].
    destruct j as [| j]; cbn.
    + rewrite Ascii.eqb_refl. reflexivity.
    + destruct (Ascii.eqb k (nth j keys d)) eqn:E.
      * apply Ascii.eqb_eq in E. exfalso. apply Hnotin. rewrite E.
        apply nth_In. cbn in Hk. lia.
      * apply IH; [exact Hnd | cbn in Hk; lia | cbn in Hv; lia].
Qed.

(** When every occurrence of a label carries the size [size] gives it, the
    sizes are consistent and the size of a label is [size]. *)
Lemma dims_consistent_size (size : ascii -> nat) (e : list (ascii * nat)) :
  (forall c d, In (c, d) e -> d = size c) ->
  dims_consistent e = true
  /\ (forall c d, In (c, d) e -> assoc0 e c = size c).
Proof.
  intros H.
  assert (Hget : forall c d, In (c, d) e -> assoc0 e c = size c).
  { intros c d Hin. unfold assoc0.
    destruct (assoc_is_Some e c d Hin) as [v Hv]. rewrite Hv.
    apply H. apply assoc_In. exact Hv. }
  split; [| exact Hget].
  unfold dims_consistent. apply forallb_forall. intros [c d] Hin. cbn [fst snd].
  rewrite (Hget c d Hin), (H c d Hin). apply Nat.eqb_refl.
Qed.

Lemma nth_map_seq {B} (f : nat -> B) (a k i : nat) (d : B) :
  i < k -> nth i (map f (seq a k)) d = f (a + i).
Proof.
  intros H. rewrite (nth_indep _ d (f 0)) by (rewrite length_map, length_seq; exact H).
  rewrite map_nth, seq_nth by exact H. reflexivity.
Qed.

Lemma firstn_skipn_seq {A} (l : list A) (n k : nat) (d : A) :
  n + k <= length l -> firstn k (skipn n l) = map (fun i => nth i l d) (seq n k).
Proof.
  intros H. apply (nth_ext _ _ d d).
  - rewrite length_firstn, length_skipn, length_map, length_seq. lia.
  - intros i Hi. rewrite length_firstn, length_skipn in Hi.
    assert (Hik : i < k) by lia.
    rewrite nth_firstn, nth_skipn, (nth_map_seq _ _ _ _ _ Hik).
    apply Nat.ltb_lt in Hik. rewrite Hik. reflexivity.
Qed.

Lemma ABC_length : length ABC = 26.
Proof. reflexivity. Qed.

Lemma ABC_NoDup : NoDup ABC.
Proof. apply str_nodup_NoDup. reflexivity. Qed.

Lemma letter_inj (i j : nat) : i < 26 -> j < 26 -> letter i = letter j -> i = j.
Proof.
  intros Hi Hj H. eapply (proj1 (NoDup_nth ABC (py_last ABC)) ABC_NoDup); assumption.
Qed.

Lemma py_last_ABC : py_last ABC = letter 25.
Proof. reflexivity. Qed.

Lemma letter_In_map (i : nat) (l : list nat) :
  i < 26 -> Forall (fun j => j < 26) l -> In (letter i) (map letter l) -> In i l.
Proof.
  intros Hi Hl H. apply in_map_iff in H as (j & Heq & Hin).
  rewrite Forall_forall in Hl.
  rewrite (letter_inj i j Hi (Hl j Hin)); [exact Hin | symmetry; exact Heq].
Qed.

Lemma py_bound_nat (len i : nat) : py_bound len (Z.of_nat i) = Nat.min len i.
Proof.
  unfold py_bound. destruct (Z.ltb_spec (Z.of_nat i) 0); lia.
Qed.

Lemma py_slice_ABC (a b : nat) :
  a + b <= 26 ->
  py_slice ABC (Z.of_nat a) (Z.of_nat a + Z.of_nat b) = map letter (seq a b).
Proof.
  intros H. unfold py_slice. rewrite <- Nat2Z.inj_add, !py_bound_nat, ABC_length.
  replace (Nat.min 26 (a + b) - Nat.min 26 a) with b by lia.
  replace (Nat.min 26 a) with a by lia.
  apply firstn_skipn_seq. rewrite ABC_length. exact H.
Qed.

Lemma np_take_nat (ws : list nat) :
  Forall (fun w => w < 26) ws ->
  np_take ABC_ARRAY (map Z.of_nat ws) = Ok (map letter ws).
Proof.
  unfold np_take. induction 1 as [| w ws Hw _ IH]; [reflexivity |].
  cbn [map mapM]. rewrite IH.
  assert (E : np_item ABC_ARRAY (Z.of_nat w) = Ok (letter w)).
  { unfold np_item, ABC_ARRAY. rewrite ABC_length.
    replace ((- Z.of_nat 26 <=? Z.of_nat w)%Z && (Z.of_nat w <? Z.of_nat 26)%Z)
      with true
      by (symmetry; apply andb_true_iff; split; [apply Z.leb_le | apply Z.ltb_lt]; lia).
    replace (Z.of_nat w <? 0)%Z with false by (symmetry; apply Z.ltb_ge; lia).
    rewrite Nat2Z.id.
    rewrite (nth_error_nth' ABC (py_last ABC)) by (rewrite ABC_length; exact Hw).
    reflexivity. }
  rewrite E. reflexivity.
Qed.

Lemma np_item_error {A} (arr : list A) (i : Z) (e : exn) :
  np_item arr i = Err e -> e = IndexError.
Proof.
  unfold np_item. destruct (_ && _); [| congruence].
  destruct (nth_error _ _); congruence.
Qed.

Lemma np_take_out_of_range {A} (arr : list A) (wires : list Z) :
  Exists (fun w => (w < - Z.of_nat (length arr) \/ Z.of_nat (length arr) <= w)%Z) wires ->
  np_take arr wires = Err IndexError.
Proof.
  unfold np_take. induction 1 as [w wires Hw | w wires _ IH]; cbn [mapM].
  - assert (E : np_item arr w = Err IndexError).
    { unfold np_item.
      replace ((- Z.of_nat (length arr) <=? w)%Z && (w <? Z.of_nat (length arr))%Z)
        with false; [reflexivity |].
      symmetry. apply andb_false_iff.
      destruct Hw; [left; apply Z.leb_gt | right; apply Z.ltb_ge]; lia. }
    rewrite E. reflexivity.
  - rewrite IH. destruct (np_item arr w) as [x | e] eqn:E; cbn; [reflexivity |].
    apply np_item_error in E. subst. reflexivity.
Qed.

End Labels.

(** ** The index strings the engine builds *)

Section IndexStrings.

Lemma str_replace_length (s : str) (a b : ascii) : length (str_replace s a b) = length s.
Proof. apply length_map. Qed.

Lemma str_replace_In (s : str) (a b c : ascii) :
  In c (str_replace s a b) -> In c s \/ c = b.
Proof.
  unfold str_replace. intros H. apply in_map_iff in H as (x & Hx & Hin).
  destruct (Ascii.eqb x a); subst; [right; reflexivity | left; exact Hin].
Qed.

Lemma str_replace_NoDup (s : str) (a b : ascii) :
  NoDup s -> ~ In b s -> NoDup (str_replace s a b).
Proof.
  intros Hnd Hb. unfold str_replace. apply NoDup_map_NoDup_ForallPairs; [| exact Hnd].
  intros x y Hx Hy.
  destruct (Ascii.eqb x a) eqn:Ex, (Ascii.eqb y a) eqn:Ey; intros H.
  - apply Ascii.eqb_eq in Ex, Ey. congruence.
  - subst y. contradiction.
  - subst x. contradiction.
  - exact H.
Qed.

Local Abbreviation replace_step :=
  (fun (old_string : str) (idx_pair : ascii * ascii) =>
     str_replace old_string (fst idx_pair) (snd idx_pair)).

Lemma fold_replace_length (pairs : list (ascii * ascii)) (s : str) :
  length (fold_left replace_step pairs s) = length s.
Proof.
  revert s. induction pairs as [| p pairs IH]; intros s; [reflexivity |].
  cbn [fold_left]. rewrite IH. apply str_replace_length.
Qed.

Lemma fold_replace_In (pairs : list (ascii * ascii)) (s : str) (c : ascii) :
  In c (fold_left replace_step pairs s) -> In c s \/ In c (map snd pairs).
Proof.
  revert s. induction pairs as [| p pairs IH]; intros s H; [left; exact H |].
  cbn [fold_left] in H. apply IH in H as [H | H].
  - apply str_replace_In in H as [H | H]; [left; exact H | right; left; symmetry; exact H].
  - right. right. exact H.
Qed.

Lemma fold_replace_NoDup (pairs : list (ascii * ascii)) (s : str) :
  NoDup s -> NoDup (map snd pairs) ->
  (forall b, In b (map snd pairs) -> ~ In b s) ->
  NoDup (fold_left replace_step pairs s).
Proof.
  revert s. induction pairs as [| [a b] pairs IH]; intros s Hs Hp Hd; [exact Hs |].
  cbn [fold_left fst snd]. cbn [map snd] in Hp, Hd.
  apply NoDup_cons_iff in Hp as [Hb Hp].
  apply IH.
  - apply str_replace_NoDup; [exact Hs | apply Hd; left; reflexivity].
  - exact Hp.
  - intros c Hc Hin. apply str_replace_In in Hin as [Hin | ->].
    + apply (Hd c); [right; exact Hc | exact Hin].
    + contradiction.
Qed.

Lemma map_snd_combine {A B} (a : list A) (b : list B) :
  length a = length b -> map snd (combine a b) = b.
Proof.
  revert b. induction a as [| x a IH]; intros [| y b] H; try discriminate; [reflexivity |].
  cbn. f_equal. apply IH. cbn in H. lia.
Qed.

Lemma NoDup_map_letter (l : list nat) :
  NoDup l -> Forall (fun i => i < 26) l -> NoDup (map letter l).
Proof.
  intros Hnd Hl. apply NoDup_map_NoDup_ForallPairs; [| exact Hnd].
  rewrite Forall_forall in Hl.
  intros x y Hx Hy H. apply letter_inj; auto.
Qed.

Lemma Forall_seq_lt (a k m : nat) : a + k <= m -> Forall (fun i => i < m) (seq a k).
Proof. intros H. apply Forall_forall. intros i Hi. apply in_seq in Hi. lia. Qed.

Lemma letter_not_In_seq (i a k : nat) :
  i < 26 -> a + k <= 26 -> (i < a \/ a + k <= i) -> ~ In (letter i) (map letter (seq a k)).
Proof.
  intros Hi Hak Hout Hin.
  apply letter_In_map in Hin; [| exact Hi | apply Forall_seq_lt; exact Hak].
  apply in_seq in Hin. lia.
Qed.

Section NewState.
Variables (n : nat) (ws : list nat).
Hypothesis Hfit : n + length ws <= 25.

Lemma new_state_labels_length : length (new_state_labels n ws) = n.
Proof.
  unfold new_state_labels. rewrite fold_replace_length, length_map, length_seq.
  reflexivity.
Qed.

Lemma new_state_labels_In (c : ascii) :
  In c (new_state_labels n ws) ->
  In c (map letter (seq 0 n)) \/ In c (map letter (seq n (length ws))).
Proof.
  unfold new_state_labels. intros H. apply fold_replace_In in H as [H | H].
  - left. exact H.
  - right. rewrite map_snd_combine in H by (rewrite !length_map, length_seq; reflexivity).
    exact H.
Qed.

Lemma new_state_labels_NoDup : NoDup (new_state_labels n ws).
Proof.
  unfold new_state_labels.
  apply fold_replace_NoDup.
  - apply NoDup_map_letter; [apply seq_NoDup | apply Forall_seq_lt; lia].
  - rewrite map_snd_combine by (rewrite !length_map, length_seq; reflexivity).
    apply NoDup_map_letter; [apply seq_NoDup | apply Forall_seq_lt; lia].
  - rewrite map_snd_combine by (rewrite !length_map, length_seq; reflexivity).
    intros b Hb. apply in_map_iff in Hb as (i & <- & Hi). apply in_seq in Hi.
    apply letter_not_In_seq; lia.
Qed.

Lemma new_state_labels_not_last : ~ In (letter 25) (new_state_labels n ws).
Proof.
  intros H. apply new_state_labels_In in H as [H | H];
    revert H; apply letter_not_In_seq; lia.
Qed.

End NewState.

End IndexStrings.

(** ** The contraction the engine runs *)

Section Contraction.

Lemma py_list_mul_two (k : nat) :
  py_list_mul (py_list_mul [2] k) 2 = repeat 2 k ++ repeat 2 k.
Proof.
  assert (E : py_list_mul [2] k = repeat 2 k).
  { unfold py_list_mul. induction k as [| k IH]; [reflexivity |].
    cbn [repeat concat app]. rewrite IH. reflexivity. }
  rewrite E. unfold py_list_mul. cbn [repeat concat]. rewrite app_nil_r. reflexivity.
Qed.

Lemma py_slice_ABC_prefix (n : nat) :
  n <= 26 -> py_slice ABC 0 (Z.of_nat n) = map letter (seq 0 n).
Proof. intros H. apply (py_slice_ABC 0 n). lia. Qed.

Variables (state mat : tensor C) (b n : nat) (ws : list nat).
Hypothesis Hstate : shape state = b :: repeat 2 n.
Hypothesis Hmat : shape mat = [2 ^ length ws; 2 ^ length ws].
Hypothesis Hws : Forall (fun w => w < 25) ws.
Hypothesis Hfit : n + length ws <= 25.

(** With an unbatched matrix that fits the wires, wires that select
    letters before the last one and enough letters, the engine reaches
    [torch.einsum], with these index strings. *)
Lemma apply_unitary_einsum_reaches_einsum :
  apply_unitary_einsum state mat (map Z.of_nat ws)
  = einsum (engine_expr n ws) (engine_mat mat ws) state.
Proof.
  unfold apply_unitary_einsum, rank. rewrite Hstate, Hmat.
  cbn [length Nat.ltb Nat.leb bind fst snd app].
  rewrite length_map, py_list_mul_two.
  unfold torch_reshape. rewrite Hmat, numel_app, numel_repeat2.
  replace (numel [2 ^ length ws; 2 ^ length ws] =? 2 ^ length ws * 2 ^ length ws)
    with true by (symmetry; apply Nat.eqb_eq; cbn; lia).
  cbn [bind].
  rewrite np_take_nat by (eapply Forall_impl; [| exact Hws]; cbn; lia).
  cbn [bind].
  rewrite repeat_length.
  replace (Z.of_nat (S n) - 1)%Z with (Z.of_nat n) by lia.
  rewrite py_slice_ABC_prefix, py_slice_ABC by lia.
  fold (new_state_labels n ws). rewrite py_last_ABC.
  replace (str_mem (letter 25) _) with false; [reflexivity |].
  symmetry. apply str_mem_false. rewrite !in_app_iff.
  intros [H | [H | [H | H]]]; revert H.
  - apply letter_not_In_seq; lia.
  - apply new_state_labels_not_last. exact Hfit.
  - apply letter_not_In_seq; lia.
  - intros H. apply letter_In_map in H; [| lia |].
    + rewrite Forall_forall in Hws. apply Hws in H. lia.
    + eapply Forall_impl; [| exact Hws]. cbn. lia.
Qed.

Lemma In_combine_l_ex {A B} (l : list A) (l' : list B) (x : A) :
  length l = length l' -> In x l -> exists y, In (x, y) (combine l l').
Proof.
  revert l'. induction l as [| a l IH]; intros [| y l'] Hlen Hin; try discriminate.
  - destruct Hin.
  - destruct Hin as [-> | Hin].
    + exists y. left. reflexivity.
    + destruct (IH l') as [z Hz]; [cbn in Hlen; lia | exact Hin |].
      exists z. right. exact Hz.
Qed.

Lemma map_const_repeat {A B} (f : A -> B) (v : B) (l : list A) :
  (forall x, In x l -> f x = v) -> map f l = repeat v (length l).
Proof.
  induction l as [| x l IH]; intros H; [reflexivity |].
  cbn. rewrite (H x) by (left; reflexivity). f_equal.
  apply IH. intros y Hy. apply H. right. exact Hy.
Qed.

Lemma dedup_In (s : str) (c : ascii) : In c (dedup s) -> In c s.
Proof.
  unfold dedup.
  assert (H : forall acc,
             In c (fold_left (fun acc c => if str_mem c acc then acc else acc ++ [c]) s acc)
             -> In c acc \/ In c s).
  { induction s as [| x s IH]; intros acc Hin; [left; exact Hin |].
    cbn [fold_left] in Hin. apply IH in Hin as [Hin | Hin].
    - destruct (str_mem x acc); [left; exact Hin |].
      apply in_app_iff in Hin as [Hin | [-> | []]];
        [left; exact Hin | right; left; reflexivity].
    - right. right. exact Hin. }
  intros Hin. apply H in Hin as [[] | Hin]. exact Hin.
Qed.

(** The size of a label of the contraction. *)
Let size (c : ascii) : nat := if Ascii.eqb c (letter 25) then b else 2.

Let dims : list (ascii * nat) :=
  combine (lhs1 (engine_expr n ws)) (shape (engine_mat mat ws))
  ++ combine (lhs2 (engine_expr n ws)) (shape state).

Lemma lhs1_not_last (c : ascii) : In c (lhs1 (engine_expr n ws)) -> c <> letter 25.
Proof.
  cbn [engine_expr lhs1]. rewrite in_app_iff. intros [H | H] ->; revert H.
  - apply letter_not_In_seq; lia.
  - intros H. apply letter_In_map in H; [| lia |].
    + rewrite Forall_forall in Hws. apply Hws in H. lia.
    + eapply Forall_impl; [| exact Hws]. cbn. lia.
Qed.

Lemma old_labels_not_last (c : ascii) : In c (map letter (seq 0 n)) -> c <> letter 25.
Proof. intros H ->. revert H. apply letter_not_In_seq; lia. Qed.

Lemma dims_size (c : ascii) (d : nat) : In (c, d) dims -> d = size c.
Proof.
  unfold dims, size. cbn [engine_expr lhs1 lhs2 engine_mat shape]. rewrite Hstate.
  rewrite in_app_iff. intros [H | H].
  - pose proof (in_combine_l _ _ _ _ H) as Hc. apply (lhs1_not_last c) in Hc.
    apply Ascii.eqb_neq in Hc. rewrite Hc.
    apply in_combine_r in H. apply in_app_iff in H as [H | H];
      apply repeat_spec in H; exact H.
  - cbn [combine] in H. destruct H as [H | H].
    + injection H as <- <-. rewrite Ascii.eqb_refl. reflexivity.
    + pose proof (in_combine_l _ _ _ _ H) as Hc. apply old_labels_not_last in Hc.
      apply Ascii.eqb_neq in Hc. rewrite Hc.
      apply in_combine_r, repeat_spec in H. exact H.
Qed.

Lemma dims_keys (c : ascii) :
  In c (lhs1 (engine_expr n ws) ++ lhs2 (engine_expr n ws)) -> assoc0 dims c = size c.
Proof.
  intros H.
  assert (Hex : exists d, In (c, d) dims).
  { unfold dims. apply in_app_iff in H as [H | H].
    - destruct (In_combine_l_ex (lhs1 (engine_expr n ws)) (shape (engine_mat mat ws)) c)
        as [d Hd]; [| exact H |].
      + cbn. rewrite !length_app, !length_map, length_seq, !repeat_length. reflexivity.
      + exists d. apply in_app_iff. left. exact Hd.
    - destruct (In_combine_l_ex (lhs2 (engine_expr n ws)) (shape state) c)
        as [d Hd]; [| exact H |].
      + rewrite Hstate. cbn. rewrite length_map, length_seq, repeat_length. reflexivity.
      + exists d. apply in_app_iff. right. exact Hd. }
  destruct Hex as [d Hd].
  exact (proj2 (dims_consistent_size size dims dims_size) c d Hd).
Qed.

Lemma rhs_in_lhs (c : ascii) :
  In c (rhs (engine_expr n ws)) ->
  In c (lhs1 (engine_expr n ws) ++ lhs2 (engine_expr n ws)).
Proof.
  cbn [engine_expr lhs1 lhs2 rhs]. intros [<- | H].
  - apply in_app_iff. right. left. reflexivity.
  - apply new_state_labels_In in H as [H | H]; rewrite !in_app_iff.
    + right. right. exact H.
    + left. left. exact H.
Qed.

(** The contraction runs, and its result has the shape of the state. *)
Lemma einsum_engine :
  einsum (engine_expr n ws) (engine_mat mat ws) state
  = Ok (mkTensor (b :: repeat 2 n)
          (map (engine_entry state mat n ws) (all_indices (b :: repeat 2 n)))).
Proof.
  unfold einsum.
  replace ((length (lhs1 (engine_expr n ws)) =? rank (engine_mat mat ws))
           && (length (lhs2 (engine_expr n ws)) =? rank state)) with true.
  2:{ symmetry. apply andb_true_iff. unfold rank. rewrite Hstate. cbn.
      rewrite !length_app, !length_map, !length_seq, !repeat_length.
      split; apply Nat.eqb_eq; reflexivity. }
  cbn [negb]. fold dims.
  rewrite (proj1 (dims_consistent_size size dims dims_size)). cbn [negb].
  replace (forallb _ (rhs (engine_expr n ws))) with true.
  2:{ symmetry. apply forallb_forall. intros c Hc. apply str_mem_In, rhs_in_lhs. exact Hc. }
  cbn [negb].
  replace (str_nodup (rhs (engine_expr n ws))) with true.
  2:{ symmetry. apply str_nodup_NoDup. cbn [engine_expr rhs]. apply NoDup_cons_iff.
      split; [apply new_state_labels_not_last | apply new_state_labels_NoDup]; exact Hfit. }
  cbn [negb]. fold (engine_summed n ws).
  assert (Hout : map (assoc0 dims) (rhs (engine_expr n ws)) = b :: repeat 2 n).
  { cbn [engine_expr rhs map]. f_equal.
    - rewrite dims_keys.
      + unfold size. rewrite Ascii.eqb_refl. reflexivity.
      + apply rhs_in_lhs. left. reflexivity.
    - rewrite <- (new_state_labels_length n ws) at 2.
      apply map_const_repeat. intros c Hc.
      rewrite dims_keys by (apply rhs_in_lhs; right; exact Hc).
      unfold size. replace (Ascii.eqb c (letter 25)) with false; [reflexivity |].
      symmetry. apply Ascii.eqb_neq. intros ->.
      revert Hc. apply new_state_labels_not_last. exact Hfit. }
  assert (Hsum : map (assoc0 dims) (engine_summed n ws)
                 = repeat 2 (length (engine_summed n ws))).
  { apply map_const_repeat. intros c Hc. unfold engine_summed in Hc.
    apply dedup_In, filter_In in Hc as [Hin Hnot].
    rewrite dims_keys by exact Hin. unfold size.
    replace (Ascii.eqb c (letter 25)) with false; [reflexivity |].
    symmetry. apply Ascii.eqb_neq. intros ->.
    apply negb_true_iff, str_mem_false in Hnot. apply Hnot. left. reflexivity. }
  rewrite Hout, Hsum. reflexivity.
Qed.

(** The engine returns, and the result has the shape of the state. *)
Lemma apply_unitary_einsum_returns :
  apply_unitary_einsum state mat (map Z.of_nat ws)
  = Ok (mkTensor (b :: repeat 2 n)
          (map (engine_entry state mat n ws) (all_indices (b :: repeat 2 n)))).
Proof. rewrite apply_unitary_einsum_reaches_einsum. apply einsum_engine. Qed.

End Contraction.

(** ** Distinct wires in range *)

Section ValidWires.

Lemma index_of_Some (q : nat) (ws : list nat) (j d : nat) :
  index_of q ws = Some j -> j < length ws /\ nth j ws d = q.
Proof.
  revert j. induction ws as [| w ws IH]; intros j; cbn [index_of]; [discriminate |].
  destruct (Nat.eqb_spec q w) as [-> | Hne].
  - intros [= <-]. cbn. split; [lia | reflexivity].
  - destruct (index_of q ws) as [i |]; [| discriminate].
    intros [= <-]. destruct (IH i eq_refl) as [Hlt Hnth]. cbn. split; [lia | exact Hnth].
Qed.

Lemma index_of_None (q : nat) (ws : list nat) : index_of q ws = None <-> ~ In q ws.
Proof.
  induction ws as [| w ws IH]; cbn [index_of In]; [tauto |].
  destruct (Nat.eqb_spec q w) as [-> | Hne].
  - split; [discriminate | intros H; exfalso; apply H; left; reflexivity].
  - destruct (index_of q ws) as [i |]; cbn.
    + split; [discriminate |]. intros H. exfalso.
      assert (Hin : ~ In q ws) by tauto. apply IH in Hin. discriminate.
    + split; [| reflexivity]. intros _ [H | H]; [congruence |].
      apply (proj1 IH eq_refl). exact H.
Qed.

Lemma index_of_nth (ws : list nat) (j d : nat) :
  NoDup ws -> j < length ws -> index_of (nth j ws d) ws = Some j.
Proof.
  revert j. induction ws as [| w ws IH]; intros j Hnd Hj; [cbn in Hj; lia |].
  apply NoDup_cons_iff in Hnd as [Hnotin Hnd].
  destruct j as [| j]; cbn [nth index_of].
  - rewrite Nat.eqb_refl. reflexivity.
  - destruct (Nat.eqb_spec (nth j ws d) w) as [E | _].
    + exfalso. apply Hnotin. rewrite <- E. apply nth_In. cbn in Hj. lia.
    + rewrite IH; [reflexivity | exact Hnd | cbn in Hj; lia].
Qed.

Lemma index_of_snoc (q w : nat) (ws : list nat) :
  index_of q (ws ++ [w])
  = match index_of q ws with
    | Some j => Some j
    | None => if q =? w then Some (length ws) else None
    end.
Proof.
  induction ws as [| x ws IH]; cbn [app index_of length].
  - destruct (q =? w); reflexivity.
  - destruct (q =? x); [reflexivity |].
    rewrite IH. destruct (index_of q ws); [reflexivity |].
    destruct (q =? w); reflexivity.
Qed.

Lemma combine_snoc {A B} (l : list A) (l' : list B) (x : A) (y : B) :
  length l = length l' -> combine (l ++ [x]) (l' ++ [y]) = combine l l' ++ [(x, y)].
Proof.
  revert l'. induction l as [| a l IH]; intros [| b l'] H; try discriminate; [reflexivity |].
  cbn. f_equal. apply IH. cbn in H. lia.
Qed.

(** The labels of the new state, axis by axis. *)
Lemma new_state_labels_relabel (n : nat) (ws : list nat) :
  NoDup ws -> Forall (fun w => w < n) ws -> n + length ws <= 26 ->
  new_state_labels n ws = map (relabel n ws) (seq 0 n).
Proof.
  induction ws as [| w ws IH] using rev_ind; intros Hnd Hws Hfit.
  - reflexivity.
  - apply NoDup_remove in Hnd as [Hnd Hnotin]. rewrite app_nil_r in Hnd, Hnotin.
    apply Forall_app in Hws as [Hws Hw]. inversion Hw as [| ? ? Hwn _]; subst.
    rewrite length_app in Hfit. cbn [length] in Hfit.
    unfold new_state_labels in *.
    rewrite length_app, seq_app, !map_app. cbn [length seq map].
    rewrite combine_snoc by (rewrite !length_map, length_seq; reflexivity).
    rewrite fold_left_app. cbn [fold_left fst snd].
    rewrite IH by (assumption || lia).
    unfold str_replace. rewrite map_map. apply map_ext_in.
    intros q Hq. apply in_seq in Hq. unfold relabel. rewrite index_of_snoc.
    destruct (index_of q ws) as [j |] eqn:E.
    + destruct (index_of_Some _ _ _ 0 E) as [Hj _].
      destruct (Ascii.eqb_spec (letter (n + j)) (letter w)) as [Heq | _]; [| reflexivity].
      apply letter_inj in Heq; lia.
    + destruct (Nat.eqb_spec q w) as [-> | Hne].
      * rewrite Ascii.eqb_refl. reflexivity.
      * destruct (Ascii.eqb_spec (letter q) (letter w)) as [Heq | _]; [| reflexivity].
        apply letter_inj in Heq; lia.
Qed.

End ValidWires.

(** ** The entries of the contraction for distinct wires in range *)

Section Dedup.

Lemma filter_all {A} (f : A -> bool) (l : list A) :
  (forall x, In x l -> f x = true) -> filter f l = l.
Proof.
  induction l as [| x l IH]; intros H; [reflexivity |].
  cbn. rewrite (H x) by (left; reflexivity). f_equal.
  apply IH. intros y Hy. apply H. right. exact Hy.
Qed.

Lemma filter_none {A} (f : A -> bool) (l : list A) :
  (forall x, In x l -> f x = false) -> filter f l = [].
Proof.
  induction l as [| x l IH]; intros H; [reflexivity |].
  cbn. rewrite (H x) by (left; reflexivity).
  apply IH. intros y Hy. apply H. right. exact Hy.
Qed.

Local Abbreviation dedup_step :=
  (fun (acc : str) (c : ascii) => if str_mem c acc then acc else acc ++ [c]).

Lemma dedup_fold_NoDup (a acc : str) :
  NoDup (acc ++ a) -> fold_left dedup_step a acc = acc ++ a.
Proof.
  revert acc. induction a as [| x a IH]; intros acc H.
  - cbn. rewrite app_nil_r. reflexivity.
  - cbn [fold_left].
    assert (Hx : ~ In x acc).
    { apply NoDup_remove_2 in H. intros Hin. apply H, in_app_iff. left. exact Hin. }
    apply str_mem_false in Hx. rewrite Hx.
    rewrite IH; rewrite <- app_assoc; [reflexivity | exact H].
Qed.

Lemma dedup_fold_incl (r acc : str) :
  (forall c, In c r -> In c acc) -> fold_left dedup_step r acc = acc.
Proof.
  induction r as [| x r IH]; intros H; [reflexivity |].
  cbn [fold_left].
  assert (Hx : In x acc) by (apply H; left; reflexivity).
  apply str_mem_In in Hx. rewrite Hx.
  apply IH. intros c Hc. apply H. right. exact Hc.
Qed.

Lemma dedup_app_incl (a r : str) :
  NoDup a -> (forall c, In c r -> In c a) -> dedup (a ++ r) = a.
Proof.
  intros Hnd Hincl. unfold dedup. rewrite fold_left_app.
  rewrite (dedup_fold_NoDup a []) by exact Hnd.
  apply dedup_fold_incl. exact Hincl.
Qed.

Lemma map_seq_eq_map {A B} (f : nat -> B) (g : A -> B) (a : nat) (l : list A) (d : A) :
  (forall j, j < length l -> f (a + j) = g (nth j l d)) ->
  map f (seq a (length l)) = map g l.
Proof.
  intros H. apply (nth_ext _ _ (g d) (g d)).
  - rewrite !length_map, length_seq. reflexivity.
  - intros j Hj. rewrite length_map, length_seq in Hj.
    rewrite nth_map_seq, map_nth by exact Hj. apply H. exact Hj.
Qed.

Lemma map_eq_list {A B} (g : A -> B) (l : list A) (l' : list B) (d : A) (d' : B) :
  length l' = length l ->
  (forall j, j < length l -> g (nth j l d) = nth j l' d') ->
  map g l = l'.
Proof.
  intros Hlen H. apply (nth_ext _ _ (g d) d').
  - rewrite length_map. symmetry. exact Hlen.
  - intros j Hj. rewrite length_map in Hj. rewrite map_nth. apply H. exact Hj.
Qed.

End Dedup.

Section Entries.
Variables (n : nat) (ws : list nat).
Hypothesis Hnd : NoDup ws.
Hypothesis Hws : Forall (fun w => w < n) ws.
Hypothesis Hfit : n + length ws <= 25.

Lemma wires_lt_26 : Forall (fun w => w < 26) ws.
Proof. eapply Forall_impl; [| exact Hws]. cbn. lia. Qed.

Lemma wire_lt (j : nat) : j < length ws -> nth j ws 0 < n.
Proof.
  intros Hj. rewrite Forall_forall in Hws. apply Hws, nth_In. exact Hj.
Qed.

Lemma relabel_wire (j : nat) :
  j < length ws -> relabel n ws (nth j ws 0) = letter (n + j).
Proof. intros Hj. unfold relabel. rewrite index_of_nth by assumption. reflexivity. Qed.

Lemma relabel_lt (q : nat) : q < n -> exists i, i < 25 /\ relabel n ws q = letter i.
Proof.
  intros Hq. unfold relabel. destruct (index_of q ws) as [j |] eqn:E.
  - destruct (index_of_Some _ _ _ 0 E) as [Hj _]. exists (n + j). split; [lia | reflexivity].
  - exists q. split; [lia | reflexivity].
Qed.

(** No label of a wire is a label of the new state. *)
Lemma wire_label_replaced (w : nat) :
  In w ws -> ~ In (letter w) (letter 25 :: map (relabel n ws) (seq 0 n)).
Proof.
  intros Hw. pose proof Hws as Hall. rewrite Forall_forall in Hall.
  pose proof (Hall w Hw) as Hwn. intros [H | H].
  - apply letter_inj in H; lia.
  - apply in_map_iff in H as (q & Heq & Hq). apply in_seq in Hq.
    unfold relabel in Heq. destruct (index_of q ws) as [j |] eqn:E.
    + destruct (index_of_Some _ _ _ 0 E) as [Hj _]. apply letter_inj in Heq; lia.
    + apply index_of_None in E. apply letter_inj in Heq; [| lia | lia].
      subst q. contradiction.
Qed.

(** The contraction sums over the labels of the wires, in their order. *)
Lemma engine_summed_wires : engine_summed n ws = map letter ws.
Proof.
  unfold engine_summed. cbn [engine_expr lhs1 lhs2 rhs].
  rewrite new_state_labels_relabel by (assumption || lia).
  rewrite <- app_assoc, filter_app, filter_app.
  rewrite (filter_none _ (map letter (seq n (length ws)))).
  2:{ intros c Hc. apply in_map_iff in Hc as (i & <- & Hi). apply in_seq in Hi.
      apply negb_false_iff, str_mem_In. right.
      replace i with (n + (i - n)) by lia. rewrite <- relabel_wire by lia.
      apply in_map, in_seq. pose proof (wire_lt (i - n)). lia. }
  rewrite (filter_all _ (map letter ws)).
  2:{ intros c Hc. apply in_map_iff in Hc as (w & <- & Hw).
      apply negb_true_iff, str_mem_false, wire_label_replaced. exact Hw. }
  cbn [app]. apply dedup_app_incl.
  - apply NoDup_map_letter; [exact Hnd | exact wires_lt_26].
  - intros c Hc. apply filter_In in Hc as [Hc Hnot].
    apply negb_true_iff, str_mem_false in Hnot.
    destruct Hc as [<- | Hc]; [exfalso; apply Hnot; left; reflexivity |].
    apply in_map_iff in Hc as (q & <- & Hq).
    destruct (index_of q ws) as [j |] eqn:E.
    + destruct (index_of_Some _ _ _ 0 E) as [Hj Hq']. subst q.
      apply in_map, nth_In. exact Hj.
    + exfalso. apply Hnot. right.
      replace (letter q) with (relabel n ws q) by (unfold relabel; rewrite E; reflexivity).
      apply in_map. exact Hq.
Qed.

Variables (bi : nat) (o si : list nat).
Hypothesis Ho : length o = n.
Hypothesis Hsi : length si = length ws.

Let env : list (ascii * nat) :=
  combine (letter 25 :: map (relabel n ws) (seq 0 n)) (bi :: o)
  ++ combine (map letter ws) si.

Lemma env_relabel (q : nat) : q < n -> assoc0 env (relabel n ws q) = nth q o 0.
Proof.
  intros Hq. unfold assoc0, env. cbn [combine app assoc].
  destruct (relabel_lt q Hq) as (i & Hi & Hrel).
  destruct (Ascii.eqb_spec (letter 25) (relabel n ws q)) as [Heq | _].
  { rewrite Hrel in Heq. apply letter_inj in Heq; lia. }
  rewrite assoc_app.
  rewrite <- (nth_map_seq (relabel n ws) 0 n q (letter 25)) at 1 by exact Hq.
  rewrite (assoc_combine_nth _ o q (letter 25) 0).
  - reflexivity.
  - rewrite <- new_state_labels_relabel by (assumption || lia).
    apply new_state_labels_NoDup. exact Hfit.
  - rewrite length_map, length_seq. exact Hq.
  - lia.
Qed.

Lemma env_wire (j : nat) : j < length ws -> assoc0 env (letter (nth j ws 0)) = nth j si 0.
Proof.
  intros Hj. unfold assoc0, env. rewrite assoc_app.
  rewrite assoc_None by (apply wire_label_replaced, nth_In; exact Hj).
  rewrite <- (map_nth letter ws 0 j).
  rewrite (assoc_combine_nth _ si j (letter 0) 0).
  - reflexivity.
  - apply NoDup_map_letter; [exact Hnd | exact wires_lt_26].
  - rewrite length_map. exact Hj.
  - lia.
Qed.

Lemma env_fresh : map (assoc0 env) (map letter (seq n (length ws))) = select ws o.
Proof.
  unfold select. rewrite map_map.
  apply (map_seq_eq_map _ _ n ws 0). intros j Hj.
  rewrite <- relabel_wire by exact Hj. apply env_relabel, wire_lt. exact Hj.
Qed.

Lemma env_wires : map (assoc0 env) (map letter ws) = si.
Proof.
  rewrite map_map. apply (map_eq_list _ ws si 0 0 Hsi).
  intros j Hj. apply env_wire. exact Hj.
Qed.

Lemma env_old : map (assoc0 env) (map letter (seq 0 n)) = merge ws o si.
Proof.
  unfold merge. rewrite map_map, Ho. apply map_ext_in.
  intros q Hq. apply in_seq in Hq.
  destruct (index_of q ws) as [j |] eqn:E.
  - destruct (index_of_Some _ _ _ 0 E) as [Hj Hq']. subst q. apply env_wire. exact Hj.
  - replace (letter q) with (relabel n ws q) by (unfold relabel; rewrite E; reflexivity).
    apply env_relabel. lia.
Qed.

Lemma env_batch : assoc0 env (letter 25) = bi.
Proof. unfold assoc0, env. cbn. reflexivity. Qed.

End Entries.

(** ** Basis states that agree outside the wires *)

Section Bijection.
Variables (n : nat) (ws : list nat).
Hypothesis Hnd : NoDup ws.
Hypothesis Hws : Forall (fun w => w < n) ws.

Lemma merge_length (o si : list nat) : length (merge ws o si) = length o.
Proof. unfold merge. rewrite length_map, length_seq. reflexivity. Qed.

Lemma nth_merge (o si : list nat) (q : nat) :
  q < length o ->
  nth q (merge ws o si) 0
  = match index_of q ws with Some j => nth j si 0 | None => nth q o 0 end.
Proof. intros Hq. unfold merge. rewrite nth_map_seq by exact Hq. reflexivity. Qed.

Lemma select_length (c : list nat) : length (select ws c) = length ws.
Proof. apply length_map. Qed.

Lemma nth_select (c : list nat) (j : nat) :
  j < length ws -> nth j (select ws c) 0 = nth (nth j ws 0) c 0.
Proof.
  intros Hj. unfold select.
  rewrite (nth_indep _ 0 (nth 0 c 0)) by (rewrite length_map; exact Hj).
  rewrite (map_nth (fun w => nth w c 0)). reflexivity.
Qed.

Lemma select_merge (o si : list nat) :
  length o = n -> length si = length ws -> select ws (merge ws o si) = si.
Proof.
  intros Ho Hsi. unfold select. apply (map_eq_list _ ws si 0 0 Hsi).
  intros j Hj. rewrite nth_merge.
  - rewrite index_of_nth by assumption. reflexivity.
  - rewrite Ho. rewrite Forall_forall in Hws. apply Hws, nth_In. exact Hj.
Qed.

Lemma agree_merge (o si : list nat) : agree_outside ws o (merge ws o si) = true.
Proof.
  unfold agree_outside. apply forallb_forall. intros q Hq. apply in_seq in Hq.
  rewrite nth_merge by lia.
  destruct (index_of q ws); [reflexivity | apply Nat.eqb_refl].
Qed.

Lemma merge_select (o c : list nat) :
  length c = length o -> agree_outside ws o c = true -> merge ws o (select ws c) = c.
Proof.
  intros Hlen Hag. apply (nth_ext _ _ 0 0).
  - rewrite merge_length. symmetry. exact Hlen.
  - intros q Hq. rewrite merge_length in Hq. rewrite nth_merge by exact Hq.
    unfold agree_outside in Hag. rewrite forallb_forall in Hag.
    specialize (Hag q). rewrite in_seq in Hag.
    destruct (index_of q ws) as [j |] eqn:E.
    + destruct (index_of_Some _ _ _ 0 E) as [Hj Hq']. rewrite nth_select by exact Hj.
      rewrite Hq'. reflexivity.
    + apply Nat.eqb_eq. apply Hag. lia.
Qed.

Lemma nth_bit (l : list nat) (j : nat) : Forall (fun i => i < 2) l -> nth j l 0 < 2.
Proof.
  intros H. destruct (Nat.lt_ge_cases j (length l)) as [Hj | Hj].
  - rewrite Forall_forall in H. apply H, nth_In. exact Hj.
  - rewrite nth_overflow by exact Hj. lia.
Qed.

Lemma merge_bits (o si : list nat) :
  Forall (fun i => i < 2) o -> Forall (fun i => i < 2) si ->
  Forall (fun i => i < 2) (merge ws o si).
Proof.
  intros Ho Hsi. apply Forall_forall. intros x Hx. unfold merge in Hx.
  apply in_map_iff in Hx as (q & <- & _).
  destruct (index_of q ws); apply nth_bit; assumption.
Qed.

Lemma select_bits (c : list nat) :
  Forall (fun i => i < 2) c -> Forall (fun i => i < 2) (select ws c).
Proof.
  intros Hc. apply Forall_forall. intros x Hx. unfold select in Hx.
  apply in_map_iff in Hx as (w & <- & _). apply nth_bit. exact Hc.
Qed.

Lemma all_indices_bits (m : nat) (idx : list nat) :
  In idx (all_indices (repeat 2 m)) <-> length idx = m /\ Forall (fun i => i < 2) idx.
Proof. rewrite all_indices_In. apply Forall2_lt_repeat. Qed.

(** The basis states that agree with [o] outside the wires are the states
    [merge ws o si], one for every assignment [si] of bits to the wires. *)
Lemma merge_permutation (o : list nat) :
  length o = n -> Forall (fun i => i < 2) o ->
  Permutation (filter (agree_outside ws o) (all_indices (repeat 2 n)))
              (map (merge ws o) (all_indices (repeat 2 (length ws)))).
Proof.
  intros Ho Hbits. apply NoDup_Permutation.
  - apply NoDup_filter, all_indices_NoDup.
  - apply NoDup_map_NoDup_ForallPairs; [| apply all_indices_NoDup].
    intros x y Hx Hy Heq.
    apply all_indices_bits in Hx as [Hx _]. apply all_indices_bits in Hy as [Hy _].
    rewrite <- (select_merge o x Ho Hx), <- (select_merge o y Ho Hy), Heq. reflexivity.
  - intros c. rewrite filter_In, in_map_iff, all_indices_bits. split.
    + intros [[Hlen Hc] Hag]. exists (select ws c). split.
      * apply merge_select; [lia | exact Hag].
      * apply all_indices_bits. split; [apply select_length | apply select_bits; exact Hc].
    + intros (si & <- & Hsi). apply all_indices_bits in Hsi as [Hlen Hsi]. split.
      * split; [rewrite merge_length; exact Ho | apply merge_bits; assumption].
      * apply agree_merge.
Qed.

End Bijection.

(** ** The engine against the operator on the whole register *)

Section FullOperator.
Variables (state mat : tensor C) (b n : nat) (ws : list nat).
Hypothesis Hstate : shape state = b :: repeat 2 n.
Hypothesis Hmat : shape mat = [2 ^ length ws; 2 ^ length ws].
Hypothesis Hnd : NoDup ws.
Hypothesis Hws : Forall (fun w => w < n) ws.
Hypothesis Hfit : n + length ws <= 25.

(** The entry of the engine's result at batch element [i] and basis state [o]. *)
Lemma engine_entry_sum (i : nat) (o : list nat) :
  In o (all_indices (repeat 2 n)) ->
  engine_entry state mat n ws (i :: o)
  = Csum (map (fun si =>
                 Cmul (nth (ravel (repeat 2 (length ws)) (select ws o) * 2 ^ length ws
                            + ravel (repeat 2 (length ws)) si) (data mat) C0)
                      (nth (i * 2 ^ n + ravel (repeat 2 n) (merge ws o si)) (data state) C0))
              (all_indices (repeat 2 (length ws)))).
Proof.
  intros Ho. apply all_indices_bits in Ho as [Ho _].
  unfold engine_entry. rewrite engine_summed_wires by assumption.
  rewrite length_map. apply Csum_map_ext. intros si Hsi.
  apply all_indices_bits in Hsi as [Hsi _].
  cbn [engine_expr lhs1 lhs2 rhs]. cbn zeta.
  rewrite new_state_labels_relabel by (assumption || lia).
  rewrite map_app. cbn [map].
  rewrite env_fresh, env_wires, env_old, env_batch by assumption.
  unfold tget, engine_mat. cbn [shape data]. rewrite Hstate.
  rewrite ravel_app by (rewrite select_length, repeat_length; reflexivity).
  cbn [ravel]. rewrite !numel_repeat2. reflexivity.
Qed.

(** The entry of the specification's result at batch element [i] and basis
    state [o]. *)
Lemma full_operator_entry_sum (i : nat) (o : list nat) :
  In o (all_indices (repeat 2 n)) ->
  Csum (map (fun c => Cmul (tget (full_operator n mat ws) [ravel (repeat 2 n) o; c])
                           (tget (mkTensor [b; 2 ^ n] (data state)) [i; c]))
            (seq 0 (2 ^ n)))
  = Csum (map (fun si =>
                 Cmul (nth (ravel (repeat 2 (length ws)) (select ws o) * 2 ^ length ws
                            + ravel (repeat 2 (length ws)) si) (data mat) C0)
                      (nth (i * 2 ^ n + ravel (repeat 2 n) (merge ws o si)) (data state) C0))
              (all_indices (repeat 2 (length ws)))).
Proof.
  intros Ho. pose proof Ho as Hob. apply all_indices_bits in Hob as [Hlen Hbits].
  pose proof (proj1 (all_indices_In _ _) Ho) as Hlt.
  replace (seq 0 (2 ^ n)) with (map (ravel (repeat 2 n)) (all_indices (repeat 2 n)))
    by (rewrite map_ravel_all_indices, numel_repeat2; reflexivity).
  rewrite map_map.
  rewrite (Csum_map_ext _
             (fun c => if agree_outside ws o c
                       then Cmul (nth (ravel (repeat 2 (length ws)) (select ws o) * 2 ^ length ws
                                       + ravel (repeat 2 (length ws)) (select ws c))
                                      (data mat) C0)
                                 (nth (i * 2 ^ n + ravel (repeat 2 n) c) (data state) C0)
                       else C0)).
  - rewrite Csum_map_filter.
    rewrite (Csum_perm _ _ (Permutation_map _ (merge_permutation n ws Hnd Hws o Hlen Hbits))).
    rewrite map_map. apply Csum_map_ext. intros si Hsi.
    apply all_indices_bits in Hsi as [Hsi _].
    rewrite (select_merge n ws Hnd Hws o si Hlen Hsi). reflexivity.
  - intros c Hc. pose proof (proj1 (all_indices_In _ _) Hc) as Hclt.
    unfold tget, full_operator. cbn [shape data ravel numel fold_right].
    rewrite !Nat.mul_1_r, !Nat.add_0_r.
    rewrite nth_flat_map_rows.
    + rewrite !unravel_ravel by assumption.
      destruct (agree_outside ws o c); [reflexivity | apply Cmul_0_l].
    + rewrite <- (numel_repeat2 n). apply ravel_lt. exact Hlt.
    + rewrite <- (numel_repeat2 n). apply ravel_lt. exact Hclt.
Qed.

Lemma apply_full_operator_data :
  apply_full_operator state mat ws
  = mkTensor (b :: repeat 2 n)
      (map (engine_entry state mat n ws) (all_indices (b :: repeat 2 n))).
Proof.
  unfold apply_full_operator, apply_rows, rank. rewrite Hstate.
  cbn [length nth shape data Nat.sub]. rewrite repeat_length, Nat.sub_0_r.
  f_equal. cbn [all_indices]. rewrite map_flat_map.
  apply flat_map_ext. intros i. rewrite map_map.
  replace (seq 0 (2 ^ n)) with (map (ravel (repeat 2 n)) (all_indices (repeat 2 n))) at 1
    by (rewrite map_ravel_all_indices, numel_repeat2; reflexivity).
  rewrite map_map.
  apply map_ext_in. intros o Ho.
  rewrite engine_entry_sum by exact Ho.
  apply full_operator_entry_sum. exact Ho.
Qed.

Lemma apply_unitary_einsum_nat :
  apply_unitary_einsum state mat (map Z.of_nat ws)
  = Ok (apply_full_operator state mat ws).
Proof.
  rewrite apply_full_operator_data.
  apply apply_unitary_einsum_returns; try assumption.
  eapply Forall_impl; [| exact Hws]. cbn. intros w Hw.
  destruct ws as [| w0 ws0]; [inversion Hws; subst; cbn in *; lia |].
  cbn [length] in Hfit. lia.
Qed.

End FullOperator.

(** ** The engine on wires given as Python ints *)

Section Wires.

Lemma wires_as_nat (wires : list Z) :
  Forall (fun w => (0 <= w)%Z) wires -> wires = map Z.of_nat (map Z.to_nat wires).
Proof.
  induction 1 as [| w wires Hw _ IH]; [reflexivity |].
  cbn [map]. rewrite Z2Nat.id by exact Hw. f_equal. exact IH.
Qed.

Lemma wires_nat_NoDup (wires : list Z) :
  Forall (fun w => (0 <= w)%Z) wires -> NoDup wires -> NoDup (map Z.to_nat wires).
Proof.
  intros Hpos Hnd. apply NoDup_map_NoDup_ForallPairs; [| exact Hnd].
  rewrite Forall_forall in Hpos.
  intros x y Hx Hy H. apply Z2Nat.inj; auto.
Qed.

Lemma wires_nat_lt (wires : list Z) (m : nat) :
  Forall (fun w => (0 <= w < Z.of_nat m)%Z) wires ->
  Forall (fun w => w < m) (map Z.to_nat wires).
Proof.
  intros H. apply Forall_map. eapply Forall_impl; [| exact H]. cbn. intros w Hw. lia.
Qed.

Lemma wires_nat_lt_25 (wires : list Z) (n : nat) :
  Forall (fun w => (0 <= w < Z.of_nat n)%Z) wires ->
  n + length wires <= 25 ->
  Forall (fun w => w < 25) (map Z.to_nat wires).
Proof.
  intros Hws Hfit. destruct wires as [| w0 wires0]; [constructor |].
  cbn [length] in Hfit. apply wires_nat_lt in Hws.
  eapply Forall_impl; [| exact Hws]. cbn. intros w Hw. lia.
Qed.

Lemma wires_nonneg (wires : list Z) (m : nat) :
  Forall (fun w => (0 <= w < Z.of_nat m)%Z) wires -> Forall (fun w => (0 <= w)%Z) wires.
Proof. intros H. eapply Forall_impl; [| exact H]. cbn. intros w Hw. lia. Qed.

(** C1: for a state over [n] qubits, an unbatched [2^k x 2^k] matrix and
    [k] distinct wires in range (with letters enough for the call not to
    raise, [n + k <= 25]), the engine returns the state reshaped to
    (batch, 2^n), multiplied by the full operator of the matrix on the
    wires, and reshaped back. *)
Theorem apply_unitary_einsum_full_operator (state mat : tensor C) (b n : nat)
    (wires : list Z) :
  shape state = b :: repeat 2 n ->
  shape mat = [2 ^ length wires; 2 ^ length wires] ->
  NoDup wires ->
  Forall (fun w => (0 <= w < Z.of_nat n)%Z) wires ->
  n + length wires <= 25 ->
  apply_unitary_einsum state mat wires
  = Ok (apply_full_operator state mat (map Z.to_nat wires)).
Proof.
  intros Hstate Hmat Hnd Hws Hfit.
  rewrite (wires_as_nat wires (wires_nonneg _ _ Hws)) at 1.
  apply (apply_unitary_einsum_nat state mat b n (map Z.to_nat wires)).
  - exact Hstate.
  - rewrite length_map. exact Hmat.
  - apply wires_nat_NoDup; [exact (wires_nonneg _ _ Hws) | exact Hnd].
  - apply wires_nat_lt. exact Hws.
  - rewrite length_map. exact Hfit.
Qed.

(** The theorem at work: CNOT on the wires [1, 0] of two qubits. *)
Lemma apply_unitary_einsum_full_operator_example :
  apply_unitary_einsum (basis0 2) cnot_mat [1; 0]%Z
  = Ok (apply_full_operator (basis0 2) cnot_mat [1; 0]).
Proof.
  apply (apply_unitary_einsum_full_operator (basis0 2) cnot_mat 1 2 [1; 0]%Z).
  - reflexivity.
  - reflexivity.
  - repeat constructor; cbn; intuition discriminate.
  - repeat constructor; cbn; lia.
  - cbn. lia.
Defined.

End Wires.

(** ** The full operator on two qubits *)

Section FullOperatorExamples.
Local Open Scope R_scope.

(** On wire 0 of two qubits the operator is [m (x) I], on wire 1 it is
    [I (x) m]. *)
Lemma full_operator_wire0 (a b c d : C) :
  full_operator 2 (torch_tensor2 [[a; b]; [c; d]]) [0%nat]
  = kron (torch_tensor2 [[a; b]; [c; d]]) eye2.
Proof.
  destruct a as [ar ai], b as [br bi], c as [cr ci], d as [dr di].
  eval_entries. repeat f_equal; lra.
Qed.

Lemma full_operator_wire1 (a b c d : C) :
  full_operator 2 (torch_tensor2 [[a; b]; [c; d]]) [1%nat]
  = kron eye2 (torch_tensor2 [[a; b]; [c; d]]).
Proof.
  destruct a as [ar ai], b as [br bi], c as [cr ci], d as [dr di].
  eval_entries. repeat f_equal; lra.
Qed.

(** On the wires [0, 1] the operator of CNOT is CNOT; on the wires [1, 0]
    it is CNOT with control 1 and target 0. *)
Lemma full_operator_cnot :
  full_operator 2 cnot_mat [0; 1]%nat = cnot_mat
  /\ full_operator 2 cnot_mat [1; 0]%nat
     = torch_tensor2 [[C1; C0; C0; C0];
                      [C0; C0; C0; C1];
                      [C0; C0; C1; C0];
                      [C0; C1; C0; C0]].
Proof. split; reflexivity. Qed.

End FullOperatorExamples.

(** ** The order of the wires *)

Section WireOrder.
Local Open Scope R_scope.




(** The wires are read in the order given: the labels of the matrix axes
    for [1, 0] are the labels for [0, 1] swapped. *)
Lemma wire_order_labels :
  lhs1 (engine_expr 2 [0; 1]%nat) = list_ascii_of_string "cdab"
  /\ rhs (engine_expr 2 [0; 1]%nat) = list_ascii_of_string "zcd"
  /\ lhs1 (engine_expr 2 [1; 0]%nat) = list_ascii_of_string "cdba"
  /\ rhs (engine_expr 2 [1; 0]%nat) = list_ascii_of_string "zdc".
Proof. repeat split; reflexivity. Qed.

End WireOrder.

(** ** When the engine raises *)

Section Raises.
Variables (state mat : tensor C) (b n : nat).
Hypothesis Hstate : shape state = b :: repeat 2 n.

Lemma py_slice_ABC_clipped (a c : nat) :
  py_slice ABC (Z.of_nat a) (Z.of_nat c)
  = firstn (Nat.min 26 c - Nat.min 26 a) (skipn (Nat.min 26 a) ABC).
Proof. unfold py_slice. rewrite !py_bound_nat, ABC_length. reflexivity. Qed.

(** With 26 or more labels to assign, the last letter is among them. *)
Lemma last_letter_assigned (k : nat) :
  26 <= n + k ->
  In (letter 25)
     (py_slice ABC 0 (Z.of_nat n)
      ++ py_slice ABC (Z.of_nat n) (Z.of_nat n + Z.of_nat k)).
Proof.
  intros H. apply in_app_iff.
  destruct (Nat.le_gt_cases 26 n) as [Hn | Hn].
  - left. change (py_slice ABC 0 (Z.of_nat n)) with (py_slice ABC (Z.of_nat 0) (Z.of_nat n)).
    rewrite (py_slice_ABC_clipped 0 n).
    replace (Nat.min 26 n - Nat.min 26 0) with 26 by lia.
    apply str_mem_In. reflexivity.
  - right. rewrite <- Nat2Z.inj_add, py_slice_ABC_clipped.
    replace (Nat.min 26 (n + k) - Nat.min 26 n) with (26 - n) by lia.
    replace (Nat.min 26 n) with n by lia.
    rewrite (firstn_skipn_seq ABC n (26 - n) (py_last ABC)) by (rewrite ABC_length; lia).
    apply (in_map letter), in_seq. lia.
Qed.

(** The assertion of functional.py:60 fails when the qubits and the wires
    need 26 letters or more. *)
Lemma apply_unitary_einsum_exhausted (ws : list nat) :
  shape mat = [2 ^ length ws; 2 ^ length ws] ->
  Forall (fun w => w < 26) ws ->
  26 <= n + length ws ->
  apply_unitary_einsum state mat (map Z.of_nat ws) = Err AssertionError_qubits.
Proof.
  intros Hmat Hws Hfit.
  unfold apply_unitary_einsum, rank. rewrite Hstate, Hmat.
  cbn [length Nat.ltb Nat.leb bind fst snd app].
  rewrite length_map, py_list_mul_two.
  unfold torch_reshape. rewrite Hmat, numel_app, numel_repeat2.
  replace (numel [2 ^ length ws; 2 ^ length ws] =? 2 ^ length ws * 2 ^ length ws)
    with true by (symmetry; apply Nat.eqb_eq; cbn; lia).
  cbn [bind]. rewrite np_take_nat by exact Hws. cbn [bind].
  rewrite repeat_length.
  replace (Z.of_nat (S n) - 1)%Z with (Z.of_nat n) by lia.
  replace (str_mem (py_last ABC) _) with true; [reflexivity |].
  symmetry. apply str_mem_In. rewrite py_last_ABC.
  pose proof (last_letter_assigned (length ws) Hfit) as H.
  apply in_app_iff in H as [H | H]; rewrite !in_app_iff; auto.
Qed.

(** A wire outside [-26, 26) makes the indexing of [ABC_ARRAY] raise. *)
Lemma apply_unitary_einsum_index_error (wires : list Z) :
  shape mat = [2 ^ length wires; 2 ^ length wires] ->
  Exists (fun w => (w < -26 \/ 26 <= w)%Z) wires ->
  apply_unitary_einsum state mat wires = Err IndexError.
Proof.
  intros Hmat Hex.
  unfold apply_unitary_einsum, rank. rewrite Hstate, Hmat.
  cbn [length Nat.ltb Nat.leb bind fst snd app].
  rewrite py_list_mul_two.
  unfold torch_reshape. rewrite Hmat, numel_app, numel_repeat2.
  replace (numel [2 ^ length wires; 2 ^ length wires] =? 2 ^ length wires * 2 ^ length wires)
    with true by (symmetry; apply Nat.eqb_eq; cbn; lia).
  cbn [bind]. rewrite np_take_out_of_range; [reflexivity |].
  eapply Exists_impl; [| exact Hex]. cbn. intros w Hw.
  change (length ABC_ARRAY) with 26. lia.
Qed.

End Raises.

Section Threshold.

Lemma wires_count_le (wires : list Z) (n : nat) :
  NoDup wires -> Forall (fun w => (0 <= w < Z.of_nat n)%Z) wires -> length wires <= n.
Proof.
  intros Hnd Hws.
  rewrite <- (length_map Z.to_nat wires), <- (length_seq n 0).
  apply NoDup_incl_length.
  - apply wires_nat_NoDup; [exact (wires_nonneg _ _ Hws) | exact Hnd].
  - intros w Hw. apply in_seq. apply wires_nat_lt in Hws.
    rewrite Forall_forall in Hws. apply Hws in Hw. lia.
Qed.

(** C5, as the code has it: for a state over [n] qubits, a matrix that
    fits and [k] wires in range, the engine returns exactly when
    [n + k < 26]; it raises the assertion on the alphabet exactly when
    [n + k >= 26] and every wire is below 26 (a wire from 26 on raises the
    IndexError of the array indexing first).  The threshold depends on
    the number of wires, not on the qubit count alone; for distinct wires,
    [26 > 2 n + 1] is enough for the call to return. *)
Theorem alphabet_threshold (state mat : tensor C) (b n : nat) (wires : list Z) :
  shape state = b :: repeat 2 n ->
  shape mat = [2 ^ length wires; 2 ^ length wires] ->
  Forall (fun w => (0 <= w < Z.of_nat n)%Z) wires ->
  is_ok (apply_unitary_einsum state mat wires) = (n + length wires <? 26)
  /\ (apply_unitary_einsum state mat wires = Err AssertionError_qubits
      <-> 26 <= n + length wires /\ Forall (fun w => (w < 26)%Z) wires)
  /\ (NoDup wires -> 2 * n + 1 < 26 -> is_ok (apply_unitary_einsum state mat wires) = true).
Proof.
  intros Hstate Hmat Hws.
  pose proof (wires_nonneg _ _ Hws) as Hpos.
  pose proof (wires_as_nat wires Hpos) as Hnat.
  assert (Hlen : length (map Z.to_nat wires) = length wires) by apply length_map.
  assert (Hsmall : n + length wires <= 25 ->
                   exists out, apply_unitary_einsum state mat wires = Ok out).
  { intros Hfit. eexists. rewrite Hnat at 1.
    apply (apply_unitary_einsum_returns state mat b n (map Z.to_nat wires)).
    - exact Hstate.
    - rewrite Hlen. exact Hmat.
    - apply (wires_nat_lt_25 wires n Hws Hfit).
    - rewrite Hlen. exact Hfit. }
  assert (Hbig : 26 <= n + length wires ->
                 (Forall (fun w => (w < 26)%Z) wires
                  /\ apply_unitary_einsum state mat wires = Err AssertionError_qubits)
                 \/ (~ Forall (fun w => (w < 26)%Z) wires
                     /\ apply_unitary_einsum state mat wires = Err IndexError)).
  { intros Hfit.
    destruct (Forall_Exists_dec (fun w => (w < 26)%Z) (fun w => Z_lt_dec w 26) wires)
      as [Hall | Hex].
    - left. split; [exact Hall |]. rewrite Hnat at 1.
      apply (apply_unitary_einsum_exhausted state mat b n Hstate).
      + rewrite Hlen. exact Hmat.
      + apply Forall_map. rewrite Forall_forall in Hall, Hpos.
        apply Forall_forall. intros w Hw. specialize (Hall w Hw). specialize (Hpos w Hw). lia.
      + rewrite Hlen. exact Hfit.
    - right. split.
      + intros Hall. apply Exists_exists in Hex as (w & Hw & Hnot).
        rewrite Forall_forall in Hall. apply Hnot, Hall. exact Hw.
      + apply (apply_unitary_einsum_index_error state mat b n Hstate wires Hmat).
        eapply Exists_impl; [| exact Hex]. cbn. intros w Hw. lia. }
  destruct (Nat.ltb_spec (n + length wires) 26) as [Hlt | Hge].
  - destruct Hsmall as [out Hout]; [lia |]. rewrite Hout.
    split; [reflexivity |]. split; [| reflexivity].
    split; [discriminate | intros [H _]; lia].
  - split; [| split].
    + destruct (Hbig Hge) as [[_ ->] | [_ ->]]; reflexivity.
    + destruct (Hbig Hge) as [[Hall ->] | [Hnot ->]].
      * split; [intros _; split; assumption | reflexivity].
      * split; [discriminate | intros [_ H]; contradiction].
    + intros Hnd H2. pose proof (wires_count_le wires n Hnd Hws). lia.
Qed.

(** The theorem at work: Pauli-X on the one qubit of a device. *)
Lemma alphabet_threshold_example :
  is_ok (apply_unitary_einsum (basis0 1) paulix_mat [0%Z]) = true.
Proof.
  refine (proj1 (alphabet_threshold (basis0 1) paulix_mat 1 1 [0%Z] eq_refl eq_refl _)).
  repeat constructor; cbn; lia.
Defined.

(** C5, as stated, fails: with 13 qubits the capacity 26 does not exceed
    [2 n + 1 = 27], and the engine returns; with 24 qubits it returns for
    one wire and raises for two. *)
Lemma alphabet_threshold_counterexample :
  ~ 2 * 13 + 1 < 26
  /\ is_ok (apply_unitary_einsum (basis0 13) paulix_mat [0%Z]) = true
  /\ is_ok (apply_unitary_einsum (basis0 24) paulix_mat [0%Z]) = true
  /\ apply_unitary_einsum (basis0 24) cnot_mat [0; 1]%Z = Err AssertionError_qubits.
Proof.
  split; [lia |]. split; [| split].
  - change [0%Z] with (map Z.of_nat [0]).
    rewrite (apply_unitary_einsum_returns (basis0 13) paulix_mat 1 13 [0]);
      [reflexivity | reflexivity | reflexivity | | cbn; lia].
    repeat constructor.
  - change [0%Z] with (map Z.of_nat [0]).
    rewrite (apply_unitary_einsum_returns (basis0 24) paulix_mat 1 24 [0]);
      [reflexivity | reflexivity | reflexivity | | cbn; lia].
    repeat constructor.
  - change [0; 1]%Z with (map Z.of_nat [0; 1]).
    apply (apply_unitary_einsum_exhausted (basis0 24) cnot_mat 1 24);
      [reflexivity | reflexivity | | cbn; lia].
    repeat constructor; lia.
Qed.

End Threshold.

(** ** The wires are not checked *)

Section NoValidation.

(** C6, as the code has it: the engine checks neither that the wires are
    distinct nor that they are below the qubit count.  For a state over
    [n] qubits, an unbatched matrix that fits [k] wires and ANY [k] wires
    in [0, 25) (duplicates and wires from [n] on included) with
    [n + k <= 25], it returns a well-formed tensor of the shape of the
    state. *)
Theorem wires_not_validated (state mat : tensor C) (b n : nat) (wires : list Z) :
  shape state = b :: repeat 2 n ->
  shape mat = [2 ^ length wires; 2 ^ length wires] ->
  Forall (fun w => (0 <= w < 25)%Z) wires ->
  n + length wires <= 25 ->
  exists out, apply_unitary_einsum state mat wires = Ok out
              /\ shape out = shape state /\ wf out.
Proof.
  intros Hstate Hmat Hws Hfit.
  eexists. split; [| split].
  - rewrite (wires_as_nat wires (wires_nonneg wires 25 Hws)) at 1.
    apply (apply_unitary_einsum_returns state mat b n (map Z.to_nat wires)).
    + exact Hstate.
    + rewrite length_map. exact Hmat.
    + apply (wires_nat_lt wires 25 Hws).
    + rewrite length_map. exact Hfit.
  - cbn [shape]. symmetry. exact Hstate.
  - unfold wf. cbn [shape data]. rewrite length_map. apply all_indices_length.
Qed.

(** The theorem at work: a duplicated wire. *)
Lemma wires_not_validated_example :
  exists out, apply_unitary_einsum (basis0 2) cnot_mat [0; 0]%Z = Ok out
              /\ shape out = shape (basis0 2) /\ wf out.
Proof.
  apply (wires_not_validated (basis0 2) cnot_mat 1 2 [0; 0]%Z).
  - reflexivity.
  - reflexivity.
  - repeat constructor; cbn; lia.
  - cbn. lia.
Defined.

(** C6, as stated, fails: on two qubits the wire list [0, 0], with a
    duplicate, and the wire list [5], out of range, both make the engine
    return a tensor. *)
Lemma wires_not_validated_counterexample :
  is_ok (apply_unitary_einsum (basis0 2) cnot_mat [0; 0]%Z) = true
  /\ is_ok (apply_unitary_einsum (basis0 2) paulix_mat [5]%Z) = true.
Proof.
  split.
  - change [0; 0]%Z with (map Z.of_nat [0; 0]).
    rewrite (apply_unitary_einsum_returns (basis0 2) cnot_mat 1 2 [0; 0]);
      [reflexivity | reflexivity | reflexivity | | cbn; lia].
    repeat constructor; lia.
  - change [5]%Z with (map Z.of_nat [5]).
    rewrite (apply_unitary_einsum_returns (basis0 2) paulix_mat 1 2 [5]);
      [reflexivity | reflexivity | reflexivity | | cbn; lia].
    repeat constructor; lia.
Qed.

(** What the engine computes there: with the wire [5] every amplitude is
    multiplied by the sum of the entries of the matrix. *)
Lemma out_of_range_wire_scales :
  apply_unitary_einsum ket01 paulix_mat [5]%Z
  = Ok (mkTensor [1; 2; 2] [C0; Cn 2; C0; C0]).
Proof. eval_entries. repeat f_equal; lra. Qed.

End NoValidation.

(** ** The state is replaced, not updated *)

Section Replaced.

(** The engine returns for a matrix that fits and wires below 25, when
    the letters suffice. *)
Lemma apply_unitary_einsum_total (s m : tensor C) (b n : nat) (wires : list Z) :
  shape s = b :: repeat 2 n ->
  shape m = [2 ^ length wires; 2 ^ length wires] ->
  Forall (fun x => (0 <= x < 25)%Z) wires ->
  n + length wires <= 25 ->
  exists out, apply_unitary_einsum s m wires = Ok out /\ shape out = shape s.
Proof.
  intros Hs Hm Hws Hfit. eexists. split.
  - rewrite (wires_as_nat wires (wires_nonneg wires 25 Hws)) at 1.
    apply (apply_unitary_einsum_returns s m b n (map Z.to_nat wires)).
    + exact Hs.
    + rewrite length_map. exact Hm.
    + apply (wires_nat_lt wires 25 Hws).
    + rewrite length_map. exact Hfit.
  - cbn [shape]. symmetry. exact Hs.
Qed.

(** The engine on objects, when the engine returns [out]: the result is
    one new object that holds [out]. *)
Lemma apply_unitary_einsum_obj_returns (state mat : loc) (wires : list Z) (w : world)
    (s m out : tensor C) :
  tensors w !! state = Some s ->
  tensors w !! mat = Some m ->
  apply_unitary_einsum s m wires = Ok out ->
  apply_unitary_einsum_obj state mat wires w
  = (Ok (fresh (dom (tensors w))),
     mkWorld (<[fresh (dom (tensors w)) := out]> (tensors w)) (devices w)).
Proof.
  intros Hs Hm Hout.
  cbv [apply_unitary_einsum_obj mbind read_tensor lift new_tensor].
  rewrite Hs, Hm, Hout. reflexivity.
Qed.

(** [gate_wrapper], when the matrix object is there and the engine
    returns [out]: the device is assigned one new object that holds
    [out]. *)
Lemma gate_wrapper_returns (mat : mat_arg) (q : loc) (wires : wires_arg)
    (params : option (tensor R)) (n_wires : option nat) (w w1 : world)
    (l old : loc) (s m out : tensor C) :
  wrapper_matrix mat params n_wires w = (Ok l, w1) ->
  devices w !! q = Some (mkDevice old) ->
  tensors w !! old = Some s ->
  tensors w1 !! l = Some m ->
  apply_unitary_einsum s m (wires_list wires) = Ok out ->
  gate_wrapper mat q wires params n_wires w
  = (Ok tt,
     mkWorld (<[fresh (dom (tensors w1)) := out]> (tensors w1))
             (<[q := mkDevice (fresh (dom (tensors w1)))]> (devices w))).
Proof.
  intros Hwm Hq Hs Hm Hout.
  destruct (wrapper_matrix_spec mat params n_wires w) as (Hp & Hd & _).
  rewrite Hwm in Hp, Hd. cbn [snd] in Hp, Hd.
  pose proof (preserved_lookup _ _ _ _ Hp Hs) as Hs1.
  rewrite gate_wrapper_unfold. unfold mbind at 1. rewrite Hwm.
  unfold mbind at 1, get_states. rewrite Hd, Hq. cbn [states].
  unfold mbind at 1. fold (wires_list wires).
  rewrite (apply_unitary_einsum_obj_returns old l (wires_list wires) w1 s m out Hs1 Hm Hout).
  unfold set_states. cbn [tensors devices]. rewrite Hd. reflexivity.
Qed.

(** C8: a call of the engine or of [gate_wrapper] leaves every tensor
    object of the store as it was, the state and the matrix it is given
    among them.  The engine returns a tensor object that did not exist
    before.  When [gate_wrapper] returns, the device refers to such a new
    object, the result of the engine on the old state, and the reference
    to the old state still denotes the old state; when it raises, the
    device is as it was.  And the calls do return: for a state over [n]
    qubits, a matrix that fits the wires and wires the letters suffice
    for, the engine on objects returns one new object and changes nothing
    else, and [gate_wrapper] returns with the device assigned one new
    object, which holds the result of the engine on the old state, an
    object that is neither the old state nor the matrix. *)
Theorem state_replaced_wholesale (w : world) :
  world_ok w ->
  (forall state mat wires,
      match apply_unitary_einsum_obj state mat wires w with
      | (Ok l, w') =>
          preserved w w'
          /\ exists s m out,
               tensors w !! state = Some s /\ tensors w !! mat = Some m
               /\ apply_unitary_einsum s m wires = Ok out
               /\ tensors w !! l = None
               /\ tensors w' !! l = Some out
               /\ tensors w' !! state = Some s /\ tensors w' !! mat = Some m
               /\ devices w' = devices w
      | (Err _, w') => w' = w
      end)
  /\ (forall mat q_device wires params n_wires,
         match gate_wrapper mat q_device wires params n_wires w with
         | (Ok _, w') =>
             preserved w w'
             /\ exists old new s m out,
                  devices w !! q_device = Some (mkDevice old)
                  /\ tensors w !! old = Some s
                  /\ apply_unitary_einsum s m
                       (match wires with WInt x => [x] | WList ws => ws end) = Ok out
                  /\ tensors w !! new = None
                  /\ tensors w' !! new = Some out
                  /\ tensors w' !! old = Some s
                  /\ devices w' = <[q_device := mkDevice new]> (devices w)
                  /\ (forall l, mat = MatTensor l ->
                                tensors w !! l = Some m /\ tensors w' !! l = Some m)
         | (Err _, w') => preserved w w' /\ devices w' = devices w
         end)
  /\ (forall state mat wires s m b n,
         tensors w !! state = Some s ->
         tensors w !! mat = Some m ->
         shape s = b :: repeat 2 n ->
         shape m = [2 ^ length wires; 2 ^ length wires] ->
         Forall (fun x => (0 <= x < 25)%Z) wires ->
         n + length wires <= 25 ->
         exists new out,
           apply_unitary_einsum_obj state mat wires w
           = (Ok new, mkWorld (<[new := out]> (tensors w)) (devices w))
           /\ apply_unitary_einsum s m wires = Ok out
           /\ shape out = shape s
           /\ tensors w !! new = None
           /\ new <> state /\ new <> mat)
  /\ (forall mat q_device wires params n_wires w1 l old s m b n,
         wrapper_matrix mat params n_wires w = (Ok l, w1) ->
         devices w !! q_device = Some (mkDevice old) ->
         tensors w !! old = Some s ->
         tensors w1 !! l = Some m ->
         shape s = b :: repeat 2 n ->
         shape m = [2 ^ length (wires_list wires); 2 ^ length (wires_list wires)] ->
         Forall (fun x => (0 <= x < 25)%Z) (wires_list wires) ->
         n + length (wires_list wires) <= 25 ->
         exists new out,
           gate_wrapper mat q_device wires params n_wires w
           = (Ok tt,
              mkWorld (<[new := out]> (tensors w1))
                      (<[q_device := mkDevice new]> (devices w)))
           /\ apply_unitary_einsum s m (wires_list wires) = Ok out
           /\ shape out = shape s
           /\ tensors w !! new = None
           /\ tensors w1 !! new = None
           /\ new <> old /\ new <> l
           /\ (<[new := out]> (tensors w1)) !! old = Some s
           /\ (<[new := out]> (tensors w1)) !! l = Some m).
Proof.
  intros Hok. split; [| split; [| split]].
  - intros state mat wires.
    pose proof (apply_unitary_einsum_obj_spec state mat wires w) as H.
    destruct (apply_unitary_einsum_obj state mat wires w) as [[l | e] w']; [| exact H].
    destruct H as (s & m & out & Hs & Hm & Hout & Hl & Ht & Hd).
    assert (Hp : preserved w w').
    { unfold preserved. rewrite Ht. apply insert_subseteq. exact Hl. }
    split; [exact Hp |]. exists s, m, out.
    repeat split; try assumption.
    + rewrite Ht. apply lookup_insert_eq.
    + exact (preserved_lookup _ _ _ _ Hp Hs).
    + exact (preserved_lookup _ _ _ _ Hp Hm).
  - intros mat q_device wires params n_wires.
    apply gate_wrapper_spec. exact Hok.
  - intros state mat wires s m b n Hs Hm Hshape Hmat Hws Hfit.
    destruct (apply_unitary_einsum_total s m b n wires Hshape Hmat Hws Hfit)
      as (out & Hout & Hoshape).
    pose proof (fresh_tensor_None w) as Hnew.
    exists (fresh (dom (tensors w))), out.
    split; [exact (apply_unitary_einsum_obj_returns state mat wires w s m out Hs Hm Hout) |].
    split; [exact Hout |]. split; [exact Hoshape |]. split; [exact Hnew |].
    split; intros E; rewrite E in Hnew; congruence.
  - intros mat q_device wires params n_wires w1 l old s m b n
           Hwm Hq Hs Hm Hshape Hmat Hws Hfit.
    destruct (apply_unitary_einsum_total s m b n (wires_list wires) Hshape Hmat Hws Hfit)
      as (out & Hout & Hoshape).
    destruct (wrapper_matrix_spec mat params n_wires w) as (Hp & _ & _).
    rewrite Hwm in Hp. cbn [snd] in Hp.
    pose proof (preserved_lookup _ _ _ _ Hp Hs) as Hs1.
    pose proof (fresh_tensor_None w1) as Hnew1.
    assert (Hnew : tensors w !! fresh (dom (tensors w1)) = None).
    { destruct (tensors w !! fresh (dom (tensors w1))) as [t |] eqn:E; [| reflexivity].
      rewrite (preserved_lookup _ _ _ _ Hp E) in Hnew1. discriminate. }
    assert (Hne_old : fresh (dom (tensors w1)) <> old).
    { intros E. rewrite E in Hnew1. congruence. }
    assert (Hne_l : fresh (dom (tensors w1)) <> l).
    { intros E. rewrite E in Hnew1. congruence. }
    exists (fresh (dom (tensors w1))), out.
    split; [exact (gate_wrapper_returns mat q_device wires params n_wires w w1 l old s m out
                     Hwm Hq Hs Hm Hout) |].
    split; [exact Hout |]. split; [exact Hoshape |]. split; [exact Hnew |].
    split; [exact Hnew1 |]. split; [exact Hne_old |]. split; [exact Hne_l |].
    split; (rewrite lookup_insert_ne by assumption; assumption).
Qed.

(** Pauli-X on the state |0> of one qubit gives |1>. *)
Lemma paulix_on_example_state :
  apply_unitary_einsum (mkTensor [1; 2] [C1; C0]) paulix_mat [0%Z]
  = Ok (mkTensor [1; 2] [C0; C1]).
Proof. eval_entries. repeat f_equal; lra. Qed.

(** The theorem at work: Pauli-X on the example device.  The call
    returns; the device, which referred to object 1, refers to a new
    object, which holds the state |1>; object 1 still holds |0> and
    object 2 the Pauli-X of the table. *)
Lemma state_replaced_wholesale_example :
  world_ok example_world
  /\ exists new,
       gate_wrapper (MatTensor 2%positive) 1%positive (WInt 0) None None example_world
       = (Ok tt,
          mkWorld (<[new := mkTensor [1; 2] [C0; C1]]> (tensors example_world))
                  (<[1%positive := mkDevice new]> (devices example_world)))
       /\ tensors example_world !! new = None
       /\ new <> 1%positive /\ new <> 2%positive
       /\ (<[new := mkTensor [1; 2] [C0; C1]]> (tensors example_world)) !! 1%positive
          = Some (mkTensor [1; 2] [C1; C0])
       /\ (<[new := mkTensor [1; 2] [C0; C1]]> (tensors example_world)) !! 2%positive
          = Some paulix_mat.
Proof.
  split; [exact example_world_ok |].
  destruct (proj2 (proj2 (proj2 (state_replaced_wholesale example_world example_world_ok)))
              (MatTensor 2%positive) 1%positive (WInt 0) None None example_world
              2%positive 1%positive (mkTensor [1; 2] [C1; C0]) paulix_mat 1 1
              eq_refl eq_refl eq_refl eq_refl eq_refl eq_refl)
    as (new & out & Hgw & Hout & _ & Hnew & _ & Hn1 & Hn2 & Hold & Hmat).
  - repeat constructor; cbn; lia.
  - cbn. lia.
  - change (wires_list (WInt 0)) with [0%Z] in Hout.
    rewrite paulix_on_example_state in Hout. injection Hout as <-.
    exists new. repeat split; assumption.
Defined.

End Replaced.

(** * Further properties of the engine *)

(** ** Reading a tensor at its indices *)

Section Reading.

Lemma Cadd_0_r (x : C) : Cadd x C0 = x.
Proof. rewrite Cadd_comm. apply Cadd_0_l. Qed.

Lemma Cmul_1_l (x : C) : Cmul C1 x = x.
Proof. destruct x. unfold Cmul, C1. cbn. f_equal; lra. Qed.

Lemma ravel_nth_all_indices (s : list nat) (j : nat) (d : list nat) :
  j < numel s -> ravel s (nth j (all_indices s) d) = j.
Proof.
  intros Hj.
  rewrite <- (map_nth (ravel s)), map_ravel_all_indices.
  rewrite (nth_indep _ _ 0) by (rewrite length_seq; exact Hj).
  apply seq_nth. exact Hj.
Qed.

Lemma ravel_inj (s x y : list nat) :
  Forall2 lt x s -> Forall2 lt y s -> ravel s x = ravel s y -> x = y.
Proof.
  intros Hx Hy H. rewrite <- (unravel_ravel s x Hx), <- (unravel_ravel s y Hy), H.
  reflexivity.
Qed.

Lemma nth_all_indices (s idx : list nat) (d : list nat) :
  Forall2 lt idx s -> nth (ravel s idx) (all_indices s) d = idx.
Proof.
  intros H. pose proof (ravel_lt _ _ H) as Hlt.
  assert (Hin : In (nth (ravel s idx) (all_indices s) d) (all_indices s)).
  { apply nth_In. rewrite all_indices_length. exact Hlt. }
  apply all_indices_In in Hin.
  apply (ravel_inj s); [exact Hin | exact H |].
  apply ravel_nth_all_indices. exact Hlt.
Qed.

Lemma nth_map_all_indices {B} (f : list nat -> B) (s idx : list nat) (d : B) :
  Forall2 lt idx s -> nth (ravel s idx) (map f (all_indices s)) d = f idx.
Proof.
  intros H.
  rewrite (nth_indep _ d (f [])).
  - rewrite map_nth, nth_all_indices by exact H. reflexivity.
  - rewrite length_map, all_indices_length. apply ravel_lt. exact H.
Qed.

(** A well-formed tensor is the table of its entries. *)
Lemma data_as_entries (t : tensor C) :
  wf t -> data t = map (tget t) (all_indices (shape t)).
Proof.
  intros Hwf. apply (nth_ext _ _ C0 C0).
  - rewrite length_map, all_indices_length. exact Hwf.
  - intros j Hj. unfold wf in Hwf. rewrite Hwf in Hj.
    rewrite (nth_indep (map _ _) C0 (tget t [])) by (rewrite length_map, all_indices_length; exact Hj).
    rewrite map_nth. unfold tget at 1.
    rewrite ravel_nth_all_indices by exact Hj. reflexivity.
Qed.

Lemma filter_singleton {A} (p : A -> bool) (l : list A) (x : A) :
  NoDup l -> In x l -> (forall y, In y l -> p y = true <-> y = x) -> filter p l = [x].
Proof.
  induction l as [| a l IH]; intros Hnd Hin Hp; [destruct Hin |].
  apply NoDup_cons_iff in Hnd as [Ha Hnd]. cbn [filter].
  destruct Hin as [-> | Hin].
  - rewrite (proj2 (Hp x (or_introl eq_refl)) eq_refl). f_equal.
    apply filter_none. intros y Hy.
    destruct (p y) eqn:E; [| reflexivity].
    apply (Hp y (or_intror Hy)) in E. subst y. contradiction.
  - destruct (p a) eqn:E.
    + apply (Hp a (or_introl eq_refl)) in E. subst a. contradiction.
    + apply IH; [exact Hnd | exact Hin |].
      intros y Hy. apply Hp. right. exact Hy.
Qed.

Lemma eye_entry (m r c : nat) :
  r < m -> c < m -> nth (r * m + c) (data (eye m)) C0 = if r =? c then C1 else C0.
Proof. intros Hr Hc. unfold eye. cbn [data]. apply nth_flat_map_rows; assumption. Qed.

End Reading.

(** ** The identity matrix, and two gates on the same wires *)

Section SameWires.
Variables (b n : nat) (ws : list nat).
Hypothesis Hnd : NoDup ws.
Hypothesis Hws : Forall (fun w => w < n) ws.
Hypothesis Hfit : n + length ws <= 25.

Lemma all_indices_cons (d : nat) (s idx : list nat) :
  In idx (all_indices (d :: s)) ->
  exists i o, idx = i :: o /\ i < d /\ In o (all_indices s).
Proof.
  intros H. apply all_indices_In in H.
  inversion H as [| i d' o s' Hi Ho]; subst.
  exists i, o. split; [reflexivity |]. split; [exact Hi | apply all_indices_In; exact Ho].
Qed.

(** What the engine returns, entry by entry. *)
Lemma apply_unitary_einsum_wire_sums (state mat : tensor C) :
  shape state = b :: repeat 2 n ->
  shape mat = [2 ^ length ws; 2 ^ length ws] ->
  apply_unitary_einsum state mat (map Z.of_nat ws)
  = Ok (mkTensor (b :: repeat 2 n)
          (map (fun idx => wire_sum state mat n ws (hd 0 idx) (tl idx))
               (all_indices (b :: repeat 2 n)))).
Proof.
  intros Hstate Hmat.
  rewrite (apply_unitary_einsum_nat state mat b n ws) by assumption.
  rewrite (apply_full_operator_data state mat b n ws) by assumption.
  f_equal. f_equal. apply map_ext_in. intros idx Hidx.
  apply all_indices_cons in Hidx as (i & o & -> & _ & Ho). cbn [hd tl].
  apply (engine_entry_sum state mat b n ws); assumption.
Qed.

Lemma agree_outside_refl (o : list nat) : agree_outside ws o o = true.
Proof.
  unfold agree_outside. apply forallb_forall. intros q _.
  destruct (index_of q ws); [reflexivity | apply Nat.eqb_refl].
Qed.

Lemma select_in_range (o : list nat) :
  In o (all_indices (repeat 2 n)) ->
  Forall2 lt (select ws o) (repeat 2 (length ws)).
Proof.
  intros Ho. apply all_indices_bits in Ho as [_ Hbits].
  apply Forall2_lt_repeat. split; [apply select_length | apply select_bits; exact Hbits].
Qed.

(** With the identity matrix the sum has one term that is not zero. *)
Lemma wire_sum_eye (state : tensor C) (i : nat) (o : list nat) :
  In o (all_indices (repeat 2 n)) ->
  wire_sum state (eye (2 ^ length ws)) n ws i o
  = nth (i * 2 ^ n + ravel (repeat 2 n) o) (data state) C0.
Proof.
  intros Ho. pose proof (select_in_range o Ho) as Hsel.
  unfold wire_sum.
  rewrite (Csum_map_ext _
             (fun si => if ravel (repeat 2 (length ws)) (select ws o)
                           =? ravel (repeat 2 (length ws)) si
                        then nth (i * 2 ^ n + ravel (repeat 2 n) (merge ws o si))
                                 (data state) C0
                        else C0)).
  - rewrite Csum_map_filter.
    rewrite (filter_singleton _ _ (select ws o)).
    + cbn [map Csum fold_right]. rewrite Cadd_0_r.
      rewrite merge_select; [reflexivity | reflexivity | apply agree_outside_refl].
    + apply all_indices_NoDup.
    + apply all_indices_In. exact Hsel.
    + intros y Hy. apply all_indices_In in Hy. rewrite Nat.eqb_eq. split.
      * intros H. symmetry. apply (ravel_inj _ _ _ Hsel Hy H).
      * intros ->. reflexivity.
  - intros si Hsi. apply all_indices_In in Hsi.
    rewrite eye_entry.
    + destruct (_ =? _); [apply Cmul_1_l | apply Cmul_0_l].
    + rewrite <- numel_repeat2. apply ravel_lt. exact Hsel.
    + rewrite <- numel_repeat2. apply ravel_lt. exact Hsi.
Qed.

(** The identity matrix on distinct wires in range leaves a well-formed
    state as it is. *)
Lemma apply_unitary_einsum_eye_nat (state : tensor C) :
  shape state = b :: repeat 2 n -> wf state ->
  apply_unitary_einsum state (eye (2 ^ length ws)) (map Z.of_nat ws) = Ok state.
Proof.
  intros Hstate Hwf.
  rewrite apply_unitary_einsum_wire_sums by (exact Hstate || reflexivity).
  f_equal. pose proof (data_as_entries state Hwf) as E.
  destruct state as [sh dt]. cbn [shape data] in *. subst sh. f_equal.
  etransitivity; [| symmetry; exact E].
  apply map_ext_in. intros idx Hidx.
  apply all_indices_cons in Hidx as (i & o & -> & _ & Ho). cbn [hd tl].
  rewrite wire_sum_eye by exact Ho.
  unfold tget. cbn [shape data ravel]. rewrite numel_repeat2. reflexivity.
Qed.

Lemma Cmul_assoc (x y z : C) : Cmul x (Cmul y z) = Cmul (Cmul x y) z.
Proof. unfold Cmul. cbn. f_equal; lra. Qed.

Lemma Cmul_add_distr_l (x y z : C) : Cmul x (Cadd y z) = Cadd (Cmul x y) (Cmul x z).
Proof. unfold Cmul, Cadd. cbn. f_equal; lra. Qed.

Lemma Cmul_add_distr_r (x y z : C) : Cmul (Cadd x y) z = Cadd (Cmul x z) (Cmul y z).
Proof. unfold Cmul, Cadd. cbn. f_equal; lra. Qed.

Lemma Cmul_0_r (x : C) : Cmul x C0 = C0.
Proof. unfold Cmul, C0. cbn. f_equal; lra. Qed.

Lemma Csum_mul_l {A} (x : C) (f : A -> C) (l : list A) :
  Cmul x (Csum (map f l)) = Csum (map (fun a => Cmul x (f a)) l).
Proof.
  induction l as [| a l IH]; cbn [map Csum fold_right].
  - apply Cmul_0_r.
  - fold (Csum (map f l)). fold (Csum (map (fun a => Cmul x (f a)) l)).
    rewrite Cmul_add_distr_l, IH. reflexivity.
Qed.

Lemma Csum_mul_r {A} (f : A -> C) (z : C) (l : list A) :
  Cmul (Csum (map f l)) z = Csum (map (fun a => Cmul (f a) z) l).
Proof.
  induction l as [| a l IH]; cbn [map Csum fold_right].
  - apply Cmul_0_l.
  - fold (Csum (map f l)). fold (Csum (map (fun a => Cmul (f a) z) l)).
    rewrite Cmul_add_distr_r, IH. reflexivity.
Qed.

Lemma Csum_zero {A} (l : list A) : Csum (map (fun _ => C0) l) = C0.
Proof.
  induction l as [| a l IH]; [reflexivity |].
  cbn [map Csum fold_right]. fold (Csum (map (fun _ : A => C0) l)).
  rewrite IH. apply Cadd_0_l.
Qed.

Lemma Csum_add {A} (f g : A -> C) (l : list A) :
  Csum (map (fun a => Cadd (f a) (g a)) l) = Cadd (Csum (map f l)) (Csum (map g l)).
Proof.
  induction l as [| a l IH]; cbn [map Csum fold_right].
  - symmetry. apply Cadd_0_l.
  - fold (Csum (map f l)). fold (Csum (map g l)).
    fold (Csum (map (fun a => Cadd (f a) (g a)) l)). rewrite IH.
    rewrite <- !Cadd_assoc. f_equal.
    rewrite !Cadd_assoc, (Cadd_comm (g a)). reflexivity.
Qed.

(** The two orders of a double sum. *)
Lemma Csum_swap {A B} (f : A -> B -> C) (la : list A) (lb : list B) :
  Csum (map (fun a => Csum (map (f a) lb)) la)
  = Csum (map (fun y => Csum (map (fun a => f a y) la)) lb).
Proof.
  induction la as [| a la IH]; cbn [map Csum fold_right].
  - symmetry. apply Csum_zero.
  - fold (Csum (map (f a) lb)). fold (Csum (map (fun a => Csum (map (f a) lb)) la)).
    rewrite IH, <- Csum_add. apply Csum_map_ext. intros y _. reflexivity.
Qed.

Lemma matmul_entry (x y : tensor C) (m r c : nat) :
  shape x = [m; m] -> shape y = [m; m] -> r < m -> c < m ->
  nth (r * m + c) (data (matmul x y)) C0
  = Csum (map (fun t => Cmul (nth (r * m + t) (data x) C0) (nth (t * m + c) (data y) C0))
              (seq 0 m)).
Proof.
  intros Hx Hy Hr Hc. unfold matmul. rewrite Hx. cbn [nth data].
  rewrite nth_flat_map_rows by assumption.
  apply Csum_map_ext. intros t _. unfold tget. rewrite Hx, Hy.
  cbn [ravel numel fold_right]. rewrite !Nat.mul_1_r, !Nat.add_0_r. reflexivity.
Qed.

Lemma merge_merge (o t si : list nat) :
  merge ws (merge ws o t) si = merge ws o si.
Proof.
  unfold merge at 1 3. rewrite (merge_length ws o t).
  apply map_ext_in. intros q Hq. apply in_seq in Hq.
  destruct (index_of q ws) as [j |] eqn:E; [reflexivity |].
  rewrite nth_merge by lia. rewrite E. reflexivity.
Qed.

Lemma merge_in_range (o si : list nat) :
  In o (all_indices (repeat 2 n)) -> In si (all_indices (repeat 2 (length ws))) ->
  Forall2 lt (merge ws o si) (repeat 2 n).
Proof.
  intros Ho Hsi. apply all_indices_bits in Ho as [Hlen Hbits].
  apply all_indices_bits in Hsi as [_ Hsbits].
  apply Forall2_lt_repeat. split; [rewrite merge_length; exact Hlen |].
  apply merge_bits; assumption.
Qed.

(** The sum for the second gate over the result of the first is the sum
    for the product of the two matrices. *)
Lemma wire_sum_compose (state ma mb : tensor C) (i : nat) (o : list nat) :
  shape ma = [2 ^ length ws; 2 ^ length ws] ->
  shape mb = [2 ^ length ws; 2 ^ length ws] ->
  i < b -> In o (all_indices (repeat 2 n)) ->
  wire_sum (mkTensor (b :: repeat 2 n)
              (map (fun idx => wire_sum state ma n ws (hd 0 idx) (tl idx))
                   (all_indices (b :: repeat 2 n))))
           mb n ws i o
  = wire_sum state (matmul mb ma) n ws i o.
Proof.
  intros Hma Hmb Hi Ho. pose proof (select_in_range o Ho) as Hsel.
  pose proof (ravel_lt _ _ Hsel) as Hr. rewrite numel_repeat2 in Hr.
  pose proof Ho as Hob. apply all_indices_bits in Hob as [Hlen _].
  unfold wire_sum at 1. cbn [data].
  rewrite (Csum_map_ext _
     (fun t => Csum (map (fun si =>
         Cmul (nth (ravel (repeat 2 (length ws)) (select ws o) * 2 ^ length ws
                    + ravel (repeat 2 (length ws)) t) (data mb) C0)
              (Cmul (nth (ravel (repeat 2 (length ws)) t * 2 ^ length ws
                          + ravel (repeat 2 (length ws)) si) (data ma) C0)
                    (nth (i * 2 ^ n + ravel (repeat 2 n) (merge ws o si)) (data state) C0)))
       (all_indices (repeat 2 (length ws)))))).
  2:{ intros t Ht. pose proof Ht as Htb. apply all_indices_bits in Htb as [Htlen _].
      replace (i * 2 ^ n + ravel (repeat 2 n) (merge ws o t))
        with (ravel (b :: repeat 2 n) (i :: merge ws o t))
        by (cbn [ravel]; rewrite numel_repeat2; reflexivity).
      rewrite nth_map_all_indices
        by (constructor; [exact Hi | apply merge_in_range; assumption]).
      cbn [hd tl]. unfold wire_sum. rewrite Csum_mul_l.
      apply Csum_map_ext. intros si Hsi.
      rewrite (select_merge n ws Hnd Hws o t Hlen Htlen), merge_merge. reflexivity. }
  rewrite Csum_swap. unfold wire_sum.
  apply Csum_map_ext. intros si Hsi. apply all_indices_In in Hsi.
  pose proof (ravel_lt _ _ Hsi) as Hs. rewrite numel_repeat2 in Hs.
  rewrite matmul_entry by assumption.
  replace (seq 0 (2 ^ length ws))
    with (map (ravel (repeat 2 (length ws))) (all_indices (repeat 2 (length ws))))
    by (rewrite map_ravel_all_indices, numel_repeat2; reflexivity).
  rewrite map_map, Csum_mul_r.
  apply Csum_map_ext. intros t _. apply Cmul_assoc.
Qed.

(** Two matrices, one after the other on the same wires: the engine on the
    product matrix. *)
Lemma apply_unitary_einsum_compose_nat (state ma mb : tensor C) :
  shape state = b :: repeat 2 n ->
  shape ma = [2 ^ length ws; 2 ^ length ws] ->
  shape mb = [2 ^ length ws; 2 ^ length ws] ->
  (let* s1 := apply_unitary_einsum state ma (map Z.of_nat ws) in
   apply_unitary_einsum s1 mb (map Z.of_nat ws))
  = apply_unitary_einsum state (matmul mb ma) (map Z.of_nat ws).
Proof.
  intros Hstate Hma Hmb.
  rewrite (apply_unitary_einsum_wire_sums state ma Hstate Hma). cbn [bind].
  rewrite (apply_unitary_einsum_wire_sums _ mb) by (reflexivity || exact Hmb).
  rewrite (apply_unitary_einsum_wire_sums state (matmul mb ma) Hstate)
    by (unfold matmul; rewrite Hmb; reflexivity).
  f_equal. f_equal. apply map_ext_in. intros idx Hidx.
  apply all_indices_cons in Hidx as (i & o & -> & Hi & Ho). cbn [hd tl].
  apply wire_sum_compose; assumption.
Qed.

(** A matrix and then a left inverse of it, on the same wires. *)
Lemma apply_unitary_einsum_inverse_nat (state ma mb : tensor C) :
  shape state = b :: repeat 2 n -> wf state ->
  shape ma = [2 ^ length ws; 2 ^ length ws] ->
  shape mb = [2 ^ length ws; 2 ^ length ws] ->
  matmul mb ma = eye (2 ^ length ws) ->
  (let* s1 := apply_unitary_einsum state ma (map Z.of_nat ws) in
   apply_unitary_einsum s1 mb (map Z.of_nat ws))
  = Ok state.
Proof.
  intros Hstate Hwf Hma Hmb Hinv.
  rewrite apply_unitary_einsum_compose_nat by assumption.
  rewrite Hinv. apply apply_unitary_einsum_eye_nat; assumption.
Qed.

End SameWires.

(** ** The identity, products and inverses, on wires given as Python ints *)

Section GateAlgebra.

(** The identity matrix on distinct wires in range leaves a well-formed
    state as it is. *)
Theorem apply_unitary_einsum_identity (state : tensor C) (b n : nat) (wires : list Z) :
  shape state = b :: repeat 2 n ->
  wf state ->
  NoDup wires ->
  Forall (fun w => (0 <= w < Z.of_nat n)%Z) wires ->
  n + length wires <= 25 ->
  apply_unitary_einsum state (eye (2 ^ length wires)) wires = Ok state.
Proof.
  intros Hstate Hwf Hnd Hws Hfit.
  rewrite (wires_as_nat wires (wires_nonneg _ _ Hws)) at 2.
  rewrite <- (length_map Z.to_nat wires).
  apply (apply_unitary_einsum_eye_nat b n (map Z.to_nat wires)).
  - apply wires_nat_NoDup; [exact (wires_nonneg _ _ Hws) | exact Hnd].
  - apply wires_nat_lt. exact Hws.
  - rewrite length_map. exact Hfit.
  - exact Hstate.
  - exact Hwf.
Qed.

Lemma apply_unitary_einsum_identity_example :
  apply_unitary_einsum ket01 (eye 2) [1%Z] = Ok ket01.
Proof.
  apply (apply_unitary_einsum_identity ket01 1 2 [1%Z]).
  - reflexivity.
  - reflexivity.
  - repeat constructor; cbn; intuition discriminate.
  - repeat constructor; cbn; lia.
  - cbn. lia.
Defined.

(** Two gates, one after the other on the same distinct wires in range:
    the engine on the product of the second matrix with the first. *)
Theorem apply_unitary_einsum_compose (state ma mb : tensor C) (b n : nat)
    (wires : list Z) :
  shape state = b :: repeat 2 n ->
  shape ma = [2 ^ length wires; 2 ^ length wires] ->
  shape mb = [2 ^ length wires; 2 ^ length wires] ->
  NoDup wires ->
  Forall (fun w => (0 <= w < Z.of_nat n)%Z) wires ->
  n + length wires <= 25 ->
  (let* s1 := apply_unitary_einsum state ma wires in apply_unitary_einsum s1 mb wires)
  = apply_unitary_einsum state (matmul mb ma) wires.
Proof.
  intros Hstate Hma Hmb Hnd Hws Hfit.
  rewrite (wires_as_nat wires (wires_nonneg _ _ Hws)).
  apply (apply_unitary_einsum_compose_nat b n (map Z.to_nat wires)).
  - apply wires_nat_NoDup; [exact (wires_nonneg _ _ Hws) | exact Hnd].
  - apply wires_nat_lt. exact Hws.
  - rewrite length_map. exact Hfit.
  - exact Hstate.
  - rewrite length_map. exact Hma.
  - rewrite length_map. exact Hmb.
Qed.

Lemma apply_unitary_einsum_compose_example :
  (let* s1 := apply_unitary_einsum ket01 paulix_mat [0%Z] in
   apply_unitary_einsum s1 pauliz_mat [0%Z])
  = apply_unitary_einsum ket01 (matmul pauliz_mat paulix_mat) [0%Z].
Proof.
  apply (apply_unitary_einsum_compose ket01 paulix_mat pauliz_mat 1 2 [0%Z]).
  - reflexivity.
  - reflexivity.
  - reflexivity.
  - repeat constructor; cbn; intuition discriminate.
  - repeat constructor; cbn; lia.
  - cbn. lia.
Defined.

(** A gate and then its inverse, on the same distinct wires in range,
    restore a well-formed state. *)
Theorem apply_unitary_einsum_round_trip (state ma mb : tensor C) (b n : nat)
    (wires : list Z) :
  shape state = b :: repeat 2 n ->
  wf state ->
  shape ma = [2 ^ length wires; 2 ^ length wires] ->
  shape mb = [2 ^ length wires; 2 ^ length wires] ->
  matmul mb ma = eye (2 ^ length wires) ->
  NoDup wires ->
  Forall (fun w => (0 <= w < Z.of_nat n)%Z) wires ->
  n + length wires <= 25 ->
  (let* s1 := apply_unitary_einsum state ma wires in apply_unitary_einsum s1 mb wires)
  = Ok state.
Proof.
  intros Hstate Hwf Hma Hmb Hinv Hnd Hws Hfit.
  rewrite (wires_as_nat wires (wires_nonneg _ _ Hws)).
  rewrite (apply_unitary_einsum_compose_nat b n (map Z.to_nat wires)).
  - rewrite Hinv, <- (length_map Z.to_nat wires).
    apply (apply_unitary_einsum_eye_nat b n (map Z.to_nat wires)).
    + apply wires_nat_NoDup; [exact (wires_nonneg _ _ Hws) | exact Hnd].
    + apply wires_nat_lt. exact Hws.
    + rewrite length_map. exact Hfit.
    + exact Hstate.
    + exact Hwf.
  - apply wires_nat_NoDup; [exact (wires_nonneg _ _ Hws) | exact Hnd].
  - apply wires_nat_lt. exact Hws.
  - rewrite length_map. exact Hfit.
  - exact Hstate.
  - rewrite length_map. exact Hma.
  - rewrite length_map. exact Hmb.
Qed.

End GateAlgebra.

(** * Further properties of the gate matrices *)

Section GeneratorEntries.
Local Open Scope R_scope.

(** The one-row results of the generators, entry by entry. *)
Lemma rx_matrix_entries (theta : R) :
  rx_matrix (params_rows 1 1 [theta])
  = Ok (torch_tensor2 [[(cos (theta / 2), 0); (0, - sin (theta / 2))];
                       [(0, - sin (theta / 2)); (cos (theta / 2), 0)]]).
Proof.
  eval_entries.
  replace (0 / 2) with 0 by lra. replace (- 0 / 2) with 0 by lra.
  replace (- theta / 2) with (- (theta / 2)) by lra.
  rewrite cosh_0, sinh_0, sin_neg, cos_neg. repeat f_equal; lra.
Qed.

Lemma phaseshift_matrix_entries (phi : R) :
  phaseshift_matrix (params_rows 1 1 [phi])
  = Ok (torch_tensor2 [[C1; C0]; [C0; (cos phi, sin phi)]]).
Proof.
  eval_entries.
  replace (0 * phi - 1 * 0) with 0 by lra.
  replace (0 * 0 + 1 * phi) with phi by lra.
  rewrite exp_0. repeat f_equal; lra.
Qed.

Lemma crx_matrix_entries (theta : R) :
  crx_matrix (params_rows 1 1 [theta])
  = Ok (torch_tensor2
          [[C1; C0; C0; C0];
           [C0; C1; C0; C0];
           [C0; C0; (cos (theta / 2), 0); (0, - sin (theta / 2))];
           [C0; C0; (0, - sin (theta / 2)); (cos (theta / 2), 0)]]).
Proof.
  eval_entries.
  replace (0 / 2) with 0 by lra. replace (- 0 / 2) with 0 by lra.
  replace (- theta / 2) with (- (theta / 2)) by lra.
  rewrite cosh_0, sinh_0, sin_neg, cos_neg. repeat f_equal; lra.
Qed.

(** [rot_matrix] on one row of angles (phi, theta, omega): the phases
    with the half sum sit on the diagonal, those with the half difference
    off it, the entry with the minus sign at row 1, column 0. *)
Lemma rot_matrix_entries (phi theta omega : R) :
  rot_matrix (params_rows 1 3 [phi; theta; omega])
  = Ok (torch_tensor2
          [[(cos ((phi + omega) / 2) * cos (theta / 2),
             - sin ((phi + omega) / 2) * cos (theta / 2));
            (cos ((phi - omega) / 2) * sin (theta / 2),
             - sin ((phi - omega) / 2) * sin (theta / 2))];
           [(- cos ((phi - omega) / 2) * sin (theta / 2),
             - sin ((phi - omega) / 2) * sin (theta / 2));
            (cos ((phi + omega) / 2) * cos (theta / 2),
             sin ((phi + omega) / 2) * cos (theta / 2))]]).
Proof.
  eval_entries.
  replace (0 * (phi + omega) - - (1 / 2) * (0 + 0)) with 0 by lra.
  replace (0 * (0 + 0) + - (1 / 2) * (phi + omega)) with (- ((phi + omega) / 2)) by lra.
  replace (0 * (phi + - omega) - - (1 / 2) * (0 + - 0)) with 0 by lra.
  replace (0 * (0 + - 0) + - (1 / 2) * (phi + - omega)) with (- ((phi - omega) / 2)) by lra.
  replace (0 * (phi + - omega) - 1 / 2 * (0 + - 0)) with 0 by lra.
  replace (0 * (0 + - 0) + 1 / 2 * (phi + - omega)) with ((phi - omega) / 2) by lra.
  replace (0 * (phi + omega) - 1 / 2 * (0 + 0)) with 0 by lra.
  replace (0 * (0 + 0) + 1 / 2 * (phi + omega)) with ((phi + omega) / 2) by lra.
  replace (0 / 2) with 0 by lra.
  rewrite exp_0, cosh_0, sinh_0, !cos_neg, !sin_neg.
  repeat f_equal; ring.
Qed.

End GeneratorEntries.

(** ** Unitary matrices, angles that add, special angles *)

(** Two evaluated tensors are equal when their entries are, real part by
    real part and imaginary part by imaginary part. *)
Tactic Notation "entries_by" tactic(tac) :=
  try match goal with |- Ok _ = Ok _ => apply f_equal end;
  try match goal with |- @eq (tensor _) _ _ => f_equal end;
  repeat (apply f_equal2; [apply f_equal2; tac |]);
  try reflexivity.

Section GeneratorAlgebra.
Local Open Scope R_scope.

Lemma sin_cos_square (x : R) : sin x * sin x + cos x * cos x = 1.
Proof. pose proof (sin2_cos2 x) as H. unfold Rsqr in H. exact H. Qed.

(** For every angle, the one-row results of [rx_matrix], [ry_matrix],
    [rz_matrix], [phaseshift_matrix], [rot_matrix] and [crx_matrix] are
    unitary. *)
Theorem generators_unitary (phi theta omega : R) :
  (exists m, rx_matrix (params_rows 1 1 [theta]) = Ok m /\ unitary m)
  /\ (exists m, ry_matrix (params_rows 1 1 [theta]) = Ok m /\ unitary m)
  /\ (exists m, rz_matrix (params_rows 1 1 [theta]) = Ok m /\ unitary m)
  /\ (exists m, phaseshift_matrix (params_rows 1 1 [theta]) = Ok m /\ unitary m)
  /\ (exists m, rot_matrix (params_rows 1 3 [phi; theta; omega]) = Ok m /\ unitary m)
  /\ (exists m, crx_matrix (params_rows 1 1 [theta]) = Ok m /\ unitary m).
Proof.
  pose proof (sin_cos_square (theta / 2)) as Ht.
  pose proof (sin_cos_square theta) as Ht1.
  pose proof (sin_cos_square ((phi + omega) / 2)) as Hp.
  pose proof (sin_cos_square ((phi - omega) / 2)) as Hq.
  repeat split.
  - eexists. split; [apply rx_matrix_entries |].
    unfold unitary. eval_entries. repeat f_equal; nra.
  - eexists. split; [apply ry_matrix_entries |].
    unfold unitary. eval_entries. repeat f_equal; nra.
  - eexists. split; [apply rz_matrix_entries |].
    unfold unitary. eval_entries. repeat f_equal; nra.
  - eexists. split; [apply phaseshift_matrix_entries |].
    unfold unitary. eval_entries. repeat f_equal; nra.
  - eexists. split; [apply rot_matrix_entries |].
    unfold unitary. eval_entries.
    set (cp := cos ((phi + omega) / 2)) in *. set (sp := sin ((phi + omega) / 2)) in *.
    set (cq := cos ((phi - omega) / 2)) in *. set (sq := sin ((phi - omega) / 2)) in *.
    set (c := cos (theta / 2)) in *. set (s := sin (theta / 2)) in *.
    assert (E1 : cp * c * (cp * c) + sp * c * (sp * c) + (cq * s * (cq * s) + sq * s * (sq * s)) = 1).
    { replace (cp * c * (cp * c) + sp * c * (sp * c)) with ((sp * sp + cp * cp) * (c * c)) by ring.
      replace (cq * s * (cq * s) + sq * s * (sq * s)) with ((sq * sq + cq * cq) * (s * s)) by ring.
      rewrite Hp, Hq. lra. }
    repeat f_equal; first [ring | (ring_simplify; ring_simplify in E1; lra)].
  - eexists. split; [apply crx_matrix_entries |].
    unfold unitary. eval_entries. repeat f_equal; nra.
Qed.

(** Rotations about one axis add their angles: the product of the
    matrices for [a] and for [b] is the matrix for [a + b], for [rx_matrix],
    [ry_matrix], [rz_matrix] and [phaseshift_matrix]. *)
Theorem rotations_add_angles (a b : R) :
  (let* ma := rx_matrix (params_rows 1 1 [a]) in
   let* mb := rx_matrix (params_rows 1 1 [b]) in Ok (matmul ma mb))
  = rx_matrix (params_rows 1 1 [a + b])
  /\ (let* ma := ry_matrix (params_rows 1 1 [a]) in
      let* mb := ry_matrix (params_rows 1 1 [b]) in Ok (matmul ma mb))
     = ry_matrix (params_rows 1 1 [a + b])
  /\ (let* ma := rz_matrix (params_rows 1 1 [a]) in
      let* mb := rz_matrix (params_rows 1 1 [b]) in Ok (matmul ma mb))
     = rz_matrix (params_rows 1 1 [a + b])
  /\ (let* ma := phaseshift_matrix (params_rows 1 1 [a]) in
      let* mb := phaseshift_matrix (params_rows 1 1 [b]) in Ok (matmul ma mb))
     = phaseshift_matrix (params_rows 1 1 [a + b]).
Proof.
  repeat split.
  - rewrite !rx_matrix_entries. cbn [bind]. f_equal.
    replace ((a + b) / 2) with (a / 2 + b / 2) by lra. rewrite cos_plus, sin_plus.
    eval_entries. entries_by ring.
  - rewrite !ry_matrix_entries. cbn [bind]. f_equal.
    replace ((a + b) / 2) with (a / 2 + b / 2) by lra. rewrite cos_plus, sin_plus.
    eval_entries. entries_by ring.
  - rewrite !rz_matrix_entries. cbn [bind]. f_equal.
    replace ((a + b) / 2) with (a / 2 + b / 2) by lra. rewrite cos_plus, sin_plus.
    eval_entries. entries_by ring.
  - rewrite !phaseshift_matrix_entries. cbn [bind]. f_equal.
    rewrite cos_plus, sin_plus.
    eval_entries. entries_by ring.
Qed.

(** At angle zero every generator returns the identity. *)
Theorem generators_at_zero :
  rx_matrix (params_rows 1 1 [0]) = Ok (eye 2)
  /\ ry_matrix (params_rows 1 1 [0]) = Ok (eye 2)
  /\ rz_matrix (params_rows 1 1 [0]) = Ok (eye 2)
  /\ phaseshift_matrix (params_rows 1 1 [0]) = Ok (eye 2)
  /\ rot_matrix (params_rows 1 3 [0; 0; 0]) = Ok (eye 2)
  /\ multirz_matrix (params_rows 1 1 [0]) 1 = Ok (eye 2)
  /\ crx_matrix (params_rows 1 1 [0]) = Ok (eye 4).
Proof.
  assert (Hz : 0 / 2 = 0) by lra.
  assert (Hzz : (0 + 0) / 2 = 0) by lra.
  assert (Hzm : (0 - 0) / 2 = 0) by lra.
  repeat split.
  - rewrite rx_matrix_entries, Hz, cos_0, sin_0. eval_entries. repeat f_equal; lra.
  - rewrite ry_matrix_entries, Hz, cos_0, sin_0. eval_entries. repeat f_equal; lra.
  - rewrite rz_matrix_entries, Hz, cos_0, sin_0. eval_entries. repeat f_equal; lra.
  - rewrite phaseshift_matrix_entries, cos_0, sin_0. reflexivity.
  - rewrite rot_matrix_entries, Hzz, Hzm, Hz, cos_0, sin_0. eval_entries.
    repeat f_equal; lra.
  - rewrite multirz_matrix_1_entries, Hz, cos_0, sin_0. eval_entries. repeat f_equal; lra.
  - rewrite crx_matrix_entries, Hz, cos_0, sin_0. eval_entries. repeat f_equal; lra.
Qed.

(** [crx_matrix] is the controlled version of [rx_matrix]: the identity
    on the block of control 0, the rotation on the block of control 1. *)
Theorem crx_matrix_controlled_rx (theta : R) :
  crx_matrix (params_rows 1 1 [theta])
  = (let* m := rx_matrix (params_rows 1 1 [theta]) in Ok (controlled m)).
Proof. rewrite crx_matrix_entries, rx_matrix_entries. reflexivity. Qed.

(** [rot_matrix] in terms of the other generators: with angles
    (phi, theta, omega) it is the product rz(phi) ry(theta) rz(omega) of
    the matrices the code builds; with phi = omega = 0 it is [ry_matrix],
    with theta = 0 it is [rz_matrix] at phi + omega. *)
Theorem rot_matrix_decomposition (phi theta omega : R) :
  rot_matrix (params_rows 1 3 [phi; theta; omega])
  = (let* zp := rz_matrix (params_rows 1 1 [phi]) in
     let* yt := ry_matrix (params_rows 1 1 [theta]) in
     let* zo := rz_matrix (params_rows 1 1 [omega]) in
     Ok (matmul zp (matmul yt zo)))
  /\ rot_matrix (params_rows 1 3 [0; theta; 0]) = ry_matrix (params_rows 1 1 [theta])
  /\ rot_matrix (params_rows 1 3 [phi; 0; omega])
     = rz_matrix (params_rows 1 1 [phi + omega]).
Proof.
  repeat split.
  - rewrite rot_matrix_entries, !rz_matrix_entries, ry_matrix_entries. cbn [bind].
    f_equal.
    replace ((phi + omega) / 2) with (phi / 2 + omega / 2) by lra.
    replace ((phi - omega) / 2) with (phi / 2 - omega / 2) by lra.
    rewrite cos_plus, sin_plus, cos_minus, sin_minus.
    eval_entries. entries_by ring.
  - rewrite rot_matrix_entries, ry_matrix_entries.
    replace ((0 + 0) / 2) with 0 by lra. replace ((0 - 0) / 2) with 0 by lra.
    rewrite cos_0, sin_0. eval_entries. entries_by ring.
  - rewrite rot_matrix_entries, rz_matrix_entries.
    replace (0 / 2) with 0 by lra. rewrite cos_0, sin_0.
    eval_entries. entries_by ring.
Qed.

End GeneratorAlgebra.

(** ** Gates applied twice, rotations undone *)

Section Involutions.
Local Open Scope R_scope.

Lemma inv_sqrt2_square : 1 / sqrt 2 * (1 / sqrt 2) = 1 / 2.
Proof.
  assert (Hs : sqrt 2 * sqrt 2 = 2) by (apply sqrt_sqrt; lra).
  assert (Hp : sqrt 2 <> 0) by (intros E; rewrite E in Hs; lra).
  replace (1 / sqrt 2 * (1 / sqrt 2)) with (1 / (sqrt 2 * sqrt 2)) by (field; exact Hp).
  rewrite Hs. reflexivity.
Qed.

(** The square of each of these table matrices is the identity. *)
Lemma self_inverse_square (key : string) (m : tensor C) :
  In key self_inverse_keys -> mat_const key = Some m ->
  matmul m m = eye (nth 0 (shape m) 0%nat).
Proof.
  intros Hin Hm. cbn in Hin.
  repeat (destruct Hin as [<- | Hin]; [injection Hm as <- |]); try contradiction.
  - pose proof inv_sqrt2_square as H.
    unfold hadamard_mat, INV_SQRT2. eval_entries.
    set (x := 1 / sqrt 2) in *. entries_by nra.
  - eval_entries. entries_by lra.
  - eval_entries. entries_by lra.
  - eval_entries. entries_by lra.
  - eval_entries. entries_by lra.
  - eval_entries. entries_by lra.
  - eval_entries. entries_by lra.
  - eval_entries. entries_by lra.
  - eval_entries. entries_by lra.
Qed.

(** The matrices of a rotation by [- theta] and by [theta] multiply to
    the identity. *)
Lemma rotation_inverse (gen : tensor R -> result (tensor C)) (theta : R) :
  In gen [rx_matrix; ry_matrix; rz_matrix; phaseshift_matrix] ->
  exists m1 m2,
    gen (params_rows 1 1 [theta]) = Ok m1
    /\ gen (params_rows 1 1 [- theta]) = Ok m2
    /\ shape m1 = [2; 2]%nat /\ shape m2 = [2; 2]%nat
    /\ matmul m2 m1 = eye 2.
Proof.
  pose proof (sin_cos_square (theta / 2)) as Ht.
  pose proof (sin_cos_square theta) as Ht1.
  assert (E : - theta / 2 = - (theta / 2)) by lra.
  intros [<- | [<- | [<- | [<- | []]]]]; do 2 eexists.
  - rewrite !rx_matrix_entries, E, cos_neg, sin_neg.
    repeat split; [reflexivity ..|]. eval_entries. entries_by nra.
  - rewrite !ry_matrix_entries, E, cos_neg, sin_neg.
    repeat split; [reflexivity ..|]. eval_entries. entries_by nra.
  - rewrite !rz_matrix_entries, E, cos_neg, sin_neg.
    repeat split; [reflexivity ..|]. eval_entries. entries_by nra.
  - rewrite !phaseshift_matrix_entries, cos_neg, sin_neg.
    repeat split; [reflexivity ..|]. eval_entries. entries_by nra.
Qed.

End Involutions.

Section TwiceAndBack.

(** Hadamard, the Pauli gates, CNOT, CZ, SWAP, CSWAP and Toffoli of the
    table, applied twice on the same distinct wires in range, restore a
    well-formed state. *)
Theorem self_inverse_gate_twice (key : string) (m state : tensor C) (b n : nat)
    (wires : list Z) :
  In key self_inverse_keys ->
  mat_const key = Some m ->
  shape m = [2 ^ length wires; 2 ^ length wires] ->
  shape state = b :: repeat 2 n ->
  wf state ->
  NoDup wires ->
  Forall (fun w => (0 <= w < Z.of_nat n)%Z) wires ->
  n + length wires <= 25 ->
  (let* s1 := apply_unitary_einsum state m wires in apply_unitary_einsum s1 m wires)
  = Ok state.
Proof.
  intros Hkey Hm Hshape Hstate Hwf Hnd Hws Hfit.
  pose proof (wires_nonneg _ _ Hws) as Hpos.
  rewrite (wires_as_nat wires Hpos).
  apply (apply_unitary_einsum_inverse_nat b n (map Z.to_nat wires)).
  - apply wires_nat_NoDup; assumption.
  - apply wires_nat_lt. exact Hws.
  - rewrite length_map. exact Hfit.
  - exact Hstate.
  - exact Hwf.
  - rewrite length_map. exact Hshape.
  - rewrite length_map. exact Hshape.
  - rewrite (self_inverse_square key m Hkey Hm), Hshape, length_map. reflexivity.
Qed.

Lemma self_inverse_gate_twice_example :
  (let* s1 := apply_unitary_einsum ket01 cnot_mat [1; 0]%Z in
   apply_unitary_einsum s1 cnot_mat [1; 0]%Z)
  = Ok ket01.
Proof.
  apply (self_inverse_gate_twice "cnot" cnot_mat ket01 1 2 [1; 0]%Z).
  - cbn. tauto.
  - reflexivity.
  - reflexivity.
  - reflexivity.
  - reflexivity.
  - repeat constructor; cbn; intuition discriminate.
  - repeat constructor; cbn; lia.
  - cbn. lia.
Defined.

Lemma apply_unitary_einsum_round_trip_example :
  (let* s1 := apply_unitary_einsum ket01 s_mat [1%Z] in
   apply_unitary_einsum s1 (dagger s_mat) [1%Z])
  = Ok ket01.
Proof.
  apply (apply_unitary_einsum_round_trip ket01 s_mat (dagger s_mat) 1 2 [1%Z]).
  - reflexivity.
  - reflexivity.
  - reflexivity.
  - reflexivity.
  - eval_entries. entries_by lra.
  - repeat constructor; cbn; intuition discriminate.
  - repeat constructor; cbn; lia.
  - cbn. lia.
Defined.

(** A rotation by [theta] and then by [- theta], on one wire in range,
    restore a well-formed state, for the matrices of [rx_matrix],
    [ry_matrix], [rz_matrix] and [phaseshift_matrix]. *)
Theorem rotation_undone (gen : tensor R -> result (tensor C)) (state : tensor C)
    (b n : nat) (w : Z) (theta : R) :
  In gen [rx_matrix; ry_matrix; rz_matrix; phaseshift_matrix] ->
  shape state = b :: repeat 2 n ->
  wf state ->
  (0 <= w < Z.of_nat n)%Z ->
  n <= 24 ->
  (let* m1 := gen (params_rows 1 1 [theta]) in
   let* m2 := gen (params_rows 1 1 [(- theta)%R]) in
   let* s1 := apply_unitary_einsum state m1 [w] in
   apply_unitary_einsum s1 m2 [w])
  = Ok state.
Proof.
  intros Hgen Hstate Hwf Hw Hn.
  destruct (rotation_inverse gen theta Hgen) as (m1 & m2 & E1 & E2 & S1 & S2 & Hinv).
  rewrite E1, E2. cbn [bind].
  replace [w] with (map Z.of_nat [Z.to_nat w]) by (cbn; f_equal; lia).
  apply (apply_unitary_einsum_inverse_nat b n [Z.to_nat w]); try assumption.
  - repeat constructor. intros [].
  - repeat constructor. lia.
  - cbn. lia.
Qed.

Lemma rotation_undone_example :
  (let* m1 := ry_matrix (params_rows 1 1 [PI]) in
   let* m2 := ry_matrix (params_rows 1 1 [(- PI)%R]) in
   let* s1 := apply_unitary_einsum ket01 m1 [0%Z] in
   apply_unitary_einsum s1 m2 [0%Z])
  = Ok ket01.
Proof.
  apply (rotation_undone ry_matrix ket01 1 2 0%Z PI).
  - cbn. tauto.
  - reflexivity.
  - reflexivity.
  - cbn. lia.
  - lia.
Defined.

End TwiceAndBack.

(** ** The checks of the engine, in their order *)

Section Checks.

(** A matrix with a batch axis whose size is not the batch size of the
    state: the assertion of functional.py:25 fails, whatever the wires
    and the remaining axes are. *)
Theorem apply_unitary_einsum_batch_mismatch (state mat : tensor C) (b bsz : nat)
    (s ms : list nat) (wires : list Z) :
  shape state = b :: s ->
  shape mat = bsz :: ms ->
  2 <= length ms ->
  b <> bsz ->
  apply_unitary_einsum state mat wires = Err AssertionError_batch.
Proof.
  intros Hstate Hmat Hrank Hne.
  unfold apply_unitary_einsum, rank, shape0. rewrite Hstate, Hmat. cbn [length].
  replace (2 <? S (length ms)) with true by (symmetry; apply Nat.ltb_lt; lia).
  cbn [bind]. apply Nat.eqb_neq in Hne. rewrite Hne. reflexivity.
Qed.

Lemma apply_unitary_einsum_batch_mismatch_example :
  apply_unitary_einsum ket01 (mkTensor [2; 2; 2] (data paulix_mat ++ data pauliz_mat)) [0%Z]
  = Err AssertionError_batch.
Proof.
  apply (apply_unitary_einsum_batch_mismatch ket01 _ 1 2 [2; 2] [2; 2] [0%Z]).
  - reflexivity.
  - reflexivity.
  - cbn. lia.
  - lia.
Defined.

Lemma numel_wires_shape (k : nat) :
  numel (py_list_mul (py_list_mul [2] k) 2) = 4 ^ k.
Proof.
  rewrite py_list_mul_two, numel_app, numel_repeat2.
  change 4 with (2 * 2). rewrite Nat.pow_mul_l. reflexivity.
Qed.

(** A matrix without batch axis that has not [4 ^ k] entries for [k]
    wires: [torch.reshape] raises, before the wires are looked at. *)
Theorem apply_unitary_einsum_shape_mismatch (state mat : tensor C) (wires : list Z) :
  rank mat <= 2 ->
  numel (shape mat) <> 4 ^ length wires ->
  apply_unitary_einsum state mat wires = Err RuntimeError.
Proof.
  intros Hrank Hne. unfold apply_unitary_einsum.
  replace (2 <? rank mat) with false by (symmetry; apply Nat.ltb_ge; exact Hrank).
  cbn [bind fst snd app]. unfold torch_reshape.
  rewrite numel_wires_shape. apply Nat.eqb_neq in Hne. rewrite Hne. reflexivity.
Qed.

Lemma apply_unitary_einsum_shape_mismatch_example :
  apply_unitary_einsum ket01 cnot_mat [0%Z] = Err RuntimeError.
Proof.
  apply (apply_unitary_einsum_shape_mismatch ket01 cnot_mat [0%Z]).
  - cbn. lia.
  - cbn. lia.
Defined.

(** Of a matrix without batch axis the engine uses the entries in
    row-major order and their number, not the shape: two such matrices
    with the same entries give the same result. *)
Theorem apply_unitary_einsum_matrix_flat (state mat mat' : tensor C) (wires : list Z) :
  rank mat <= 2 ->
  rank mat' <= 2 ->
  data mat = data mat' ->
  numel (shape mat) = numel (shape mat') ->
  apply_unitary_einsum state mat wires = apply_unitary_einsum state mat' wires.
Proof.
  intros Hrank Hrank' Hdata Hnumel. unfold apply_unitary_einsum.
  replace (2 <? rank mat) with false by (symmetry; apply Nat.ltb_ge; exact Hrank).
  replace (2 <? rank mat') with false by (symmetry; apply Nat.ltb_ge; exact Hrank').
  cbn [bind fst snd app]. unfold torch_reshape. rewrite Hdata, Hnumel. reflexivity.
Qed.

Lemma apply_unitary_einsum_matrix_flat_example :
  apply_unitary_einsum ket01 paulix_mat [0%Z]
  = apply_unitary_einsum ket01 (mkTensor [4] (data paulix_mat)) [0%Z].
Proof.
  apply (apply_unitary_einsum_matrix_flat ket01 paulix_mat (mkTensor [4] (data paulix_mat))).
  - cbn. lia.
  - cbn. lia.
  - reflexivity.
  - reflexivity.
Defined.

(** An index from -26 on reads the array of letters from its end. *)
Lemma np_item_wrap (w : Z) :
  (-26 <= w < 26)%Z -> np_item ABC_ARRAY w = np_item ABC_ARRAY (w mod 26)%Z.
Proof.
  intros Hw. unfold np_item. change (Z.of_nat (length ABC_ARRAY)) with 26%Z.
  pose proof (Z.mod_pos_bound w 26 ltac:(lia)) as Hm.
  replace ((- (26) <=? w)%Z && (w <? 26)%Z) with true
    by (symmetry; apply andb_true_iff; split; [apply Z.leb_le | apply Z.ltb_lt]; lia).
  replace ((- (26) <=? w mod 26)%Z && (w mod 26 <? 26)%Z) with true
    by (symmetry; apply andb_true_iff; split; [apply Z.leb_le | apply Z.ltb_lt]; lia).
  replace (w mod 26 <? 0)%Z with false by (symmetry; apply Z.ltb_ge; lia).
  destruct (Z.ltb_spec w 0) as [Hneg | Hpos].
  - replace (w mod 26)%Z with (w + 26)%Z; [reflexivity |].
    apply (Z.mod_unique w 26 (-1) (w + 26)); lia.
  - rewrite Z.mod_small by lia. reflexivity.
Qed.

Lemma np_take_wrap (wires : list Z) :
  Forall (fun w => (-26 <= w < 26)%Z) wires ->
  np_take ABC_ARRAY wires = np_take ABC_ARRAY (map (fun w => (w mod 26)%Z) wires).
Proof.
  unfold np_take. induction 1 as [| w wires Hw _ IH]; [reflexivity |].
  cbn [map mapM]. rewrite IH, (np_item_wrap w Hw). reflexivity.
Qed.

Lemma wrapped_wires_nat (wires : list Z) :
  map (fun w => (w mod 26)%Z) wires
  = map Z.of_nat (map (fun w => Z.to_nat (w mod 26)) wires).
Proof.
  rewrite map_map. apply map_ext. intros w.
  pose proof (Z.mod_pos_bound w 26 ltac:(lia)). lia.
Qed.

(** The wires are read as numpy indices: a wire from -26 to -1 counts
    from the end of the alphabet, and the call is the call with every
    wire taken modulo 26. *)
Theorem apply_unitary_einsum_negative_wires (state mat : tensor C) (wires : list Z) :
  Forall (fun w => (-26 <= w < 26)%Z) wires ->
  apply_unitary_einsum state mat wires
  = apply_unitary_einsum state mat (map (fun w => (w mod 26)%Z) wires).
Proof.
  intros Hws. unfold apply_unitary_einsum.
  rewrite <- (np_take_wrap wires Hws), length_map. reflexivity.
Qed.

Lemma apply_unitary_einsum_negative_wires_example :
  apply_unitary_einsum ket01 paulix_mat [(-26)%Z]
  = apply_unitary_einsum ket01 paulix_mat (map (fun w => (w mod 26)%Z) [(-26)%Z]).
Proof.
  apply (apply_unitary_einsum_negative_wires ket01 paulix_mat [(-26)%Z]).
  repeat constructor; cbn; lia.
Defined.

(** A wire 25 or -1 names the letter kept for the batch axis: with a
    matrix that fits, the assertion of functional.py:60 fails, for every
    number of qubits. *)
Theorem apply_unitary_einsum_reserved_letter (state mat : tensor C) (wires : list Z) :
  rank mat <= 2 ->
  numel (shape mat) = 4 ^ length wires ->
  Forall (fun w => (-26 <= w < 26)%Z) wires ->
  In 25%Z wires \/ In (-1)%Z wires ->
  apply_unitary_einsum state mat wires = Err AssertionError_qubits.
Proof.
  intros Hrank Hnumel Hws Hin. unfold apply_unitary_einsum.
  replace (2 <? rank mat) with false by (symmetry; apply Nat.ltb_ge; exact Hrank).
  cbn [bind fst snd app]. unfold torch_reshape.
  rewrite numel_wires_shape, Hnumel, Nat.eqb_refl. cbn [bind].
  rewrite (np_take_wrap wires Hws), wrapped_wires_nat, np_take_nat.
  2:{ apply Forall_map, Forall_forall. intros w _.
      pose proof (Z.mod_pos_bound w 26 ltac:(lia)). lia. }
  cbn [bind].
  replace (str_mem (py_last ABC) _) with true; [reflexivity |].
  symmetry. apply str_mem_In. rewrite py_last_ABC, !in_app_iff.
  right. right. right. apply in_map_iff. exists 25. split; [reflexivity |].
  apply in_map_iff. destruct Hin as [Hin | Hin].
  - exists 25%Z. split; [reflexivity | exact Hin].
  - exists (-1)%Z. split; [reflexivity | exact Hin].
Qed.

Lemma apply_unitary_einsum_reserved_letter_example :
  apply_unitary_einsum ket01 paulix_mat [(-1)%Z] = Err AssertionError_qubits.
Proof.
  apply (apply_unitary_einsum_reserved_letter ket01 paulix_mat [(-1)%Z]).
  - cbn. lia.
  - reflexivity.
  - repeat constructor; cbn; lia.
  - right. left. reflexivity.
Defined.

End Checks.

(** ** A matrix with a batch axis *)

Lemma combine_key_value {A B} (l : list A) (l' : list B) (x : A) :
  length l = length l' -> In x l -> exists y, In (x, y) (combine l l').
Proof.
  revert l'. induction l as [| a l IH]; intros [| y l'] Hlen Hin; try discriminate.
  - destruct Hin.
  - destruct Hin as [-> | Hin].
    + exists y. left. reflexivity.
    + destruct (IH l') as [z Hz]; [injection Hlen as Hlen; exact Hlen | exact Hin |].
      exists z. right. exact Hz.
Qed.

Section BatchedContraction.
Variables (state mat : tensor C) (b n : nat) (ws : list nat).
Hypothesis Hstate : shape state = b :: repeat 2 n.
Hypothesis Hmat : shape mat = [b; 2 ^ length ws; 2 ^ length ws].
Hypothesis Hws : Forall (fun w => w < 25) ws.
Hypothesis Hfit : n + length ws <= 25.

(** With a matrix per batch element the engine reaches [torch.einsum]
    with the letter of the batch in front of the labels of the matrix. *)
Lemma apply_unitary_einsum_reaches_einsum_batched :
  apply_unitary_einsum state mat (map Z.of_nat ws)
  = einsum (engine_expr_batched n ws) (engine_mat_batched mat b ws) state.
Proof.
  unfold apply_unitary_einsum, rank, shape0. rewrite Hstate, Hmat.
  cbn [length Nat.ltb Nat.leb bind fst snd app].
  rewrite Nat.eqb_refl. cbn [bind fst snd app].
  rewrite length_map, py_list_mul_two.
  unfold torch_reshape. rewrite Hmat.
  replace (numel [b; 2 ^ length ws; 2 ^ length ws]
           =? numel (b :: repeat 2 (length ws) ++ repeat 2 (length ws))) with true.
  2:{ symmetry. apply Nat.eqb_eq.
      change (numel (b :: ?s)) with (b * numel s).
      rewrite numel_app, numel_repeat2. cbn. lia. }
  cbn [bind].
  rewrite np_take_nat by (eapply Forall_impl; [| exact Hws]; cbn; lia).
  cbn [bind].
  rewrite repeat_length.
  replace (Z.of_nat (S n) - 1)%Z with (Z.of_nat n) by lia.
  rewrite py_slice_ABC_prefix, py_slice_ABC by lia.
  fold (new_state_labels n ws). rewrite py_last_ABC.
  replace (str_mem (letter 25) _) with false; [reflexivity |].
  symmetry. apply str_mem_false. rewrite !in_app_iff.
  intros [H | [H | [H | H]]]; revert H.
  - apply letter_not_In_seq; lia.
  - apply new_state_labels_not_last. exact Hfit.
  - apply letter_not_In_seq; lia.
  - intros H. apply letter_In_map in H; [| lia |].
    + rewrite Forall_forall in Hws. apply Hws in H. lia.
    + eapply Forall_impl; [| exact Hws]. cbn. lia.
Qed.

Let size (c : ascii) : nat := if Ascii.eqb c (letter 25) then b else 2.

Let dims : list (ascii * nat) :=
  combine (lhs1 (engine_expr_batched n ws)) (shape (engine_mat_batched mat b ws))
  ++ combine (lhs2 (engine_expr_batched n ws)) (shape state).

Lemma dims_size_batched (c : ascii) (d : nat) : In (c, d) dims -> d = size c.
Proof.
  unfold dims, size.
  cbn [engine_expr_batched engine_expr lhs1 lhs2 engine_mat_batched shape].
  rewrite Hstate. rewrite in_app_iff. intros [H | H].
  - cbn [combine] in H. destruct H as [H | H].
    + injection H as <- <-. rewrite Ascii.eqb_refl. reflexivity.
    + pose proof (in_combine_l _ _ _ _ H) as Hc.
      apply (lhs1_not_last n ws Hws Hfit c) in Hc.
      apply Ascii.eqb_neq in Hc. rewrite Hc.
      apply in_combine_r in H. apply in_app_iff in H as [H | H];
        apply repeat_spec in H; exact H.
  - cbn [combine] in H. destruct H as [H | H].
    + injection H as <- <-. rewrite Ascii.eqb_refl. reflexivity.
    + pose proof (in_combine_l _ _ _ _ H) as Hc.
      assert (Hne : c <> letter 25).
      { intros ->. revert Hc. apply letter_not_In_seq; lia. }
      apply Ascii.eqb_neq in Hne. rewrite Hne.
      apply in_combine_r, repeat_spec in H. exact H.
Qed.

Lemma dims_keys_batched (c : ascii) :
  In c (lhs1 (engine_expr_batched n ws) ++ lhs2 (engine_expr_batched n ws)) ->
  assoc0 dims c = size c.
Proof.
  intros H.
  assert (Hex : exists d, In (c, d) dims).
  { unfold dims. apply in_app_iff in H as [H | H].
    - destruct (combine_key_value (lhs1 (engine_expr_batched n ws))
                  (shape (engine_mat_batched mat b ws)) c) as [d Hd]; [| exact H |].
      + cbn. rewrite !length_app, !length_map, length_seq, !repeat_length. reflexivity.
      + exists d. apply in_app_iff. left. exact Hd.
    - destruct (combine_key_value (lhs2 (engine_expr_batched n ws)) (shape state) c)
        as [d Hd]; [| exact H |].
      + rewrite Hstate. cbn. rewrite length_map, length_seq, repeat_length. reflexivity.
      + exists d. apply in_app_iff. right. exact Hd. }
  destruct Hex as [d Hd].
  exact (proj2 (dims_consistent_size size dims dims_size_batched) c d Hd).
Qed.

Lemma rhs_in_lhs_batched (c : ascii) :
  In c (rhs (engine_expr_batched n ws)) ->
  In c (lhs1 (engine_expr_batched n ws) ++ lhs2 (engine_expr_batched n ws)).
Proof.
  intros H. apply (rhs_in_lhs n ws) in H.
  cbn [engine_expr_batched lhs1 lhs2]. right. exact H.
Qed.

(** The labels summed over are those of the contraction without batch
    axis: the letter of the batch is a label of the result. *)
Lemma engine_summed_batched :
  dedup (filter (fun c => negb (str_mem c (rhs (engine_expr_batched n ws))))
                (lhs1 (engine_expr_batched n ws) ++ lhs2 (engine_expr_batched n ws)))
  = engine_summed n ws.
Proof.
  unfold engine_summed. cbn [engine_expr_batched lhs1 lhs2 rhs app filter].
  replace (negb (str_mem (letter 25) (rhs (engine_expr n ws)))) with false; [reflexivity |].
  symmetry. apply negb_false_iff, str_mem_In. left. reflexivity.
Qed.

(** The contraction runs, and its result has the shape of the state. *)
Lemma einsum_engine_batched :
  einsum (engine_expr_batched n ws) (engine_mat_batched mat b ws) state
  = Ok (mkTensor (b :: repeat 2 n)
          (map (engine_entry_batched state mat b n ws) (all_indices (b :: repeat 2 n)))).
Proof.
  unfold einsum.
  replace ((length (lhs1 (engine_expr_batched n ws)) =? rank (engine_mat_batched mat b ws))
           && (length (lhs2 (engine_expr_batched n ws)) =? rank state)) with true.
  2:{ symmetry. apply andb_true_iff. unfold rank. rewrite Hstate. cbn.
      rewrite !length_app, !length_map, !length_seq, !repeat_length.
      split; apply Nat.eqb_eq; reflexivity. }
  cbn [negb]. fold dims.
  rewrite (proj1 (dims_consistent_size size dims dims_size_batched)). cbn [negb].
  replace (forallb _ (rhs (engine_expr_batched n ws))) with true.
  2:{ symmetry. apply forallb_forall. intros c Hc.
      apply str_mem_In, rhs_in_lhs_batched. exact Hc. }
  cbn [negb].
  replace (str_nodup (rhs (engine_expr_batched n ws))) with true.
  2:{ symmetry. apply str_nodup_NoDup. cbn [engine_expr_batched engine_expr rhs].
      apply NoDup_cons_iff.
      split; [apply new_state_labels_not_last | apply new_state_labels_NoDup]; exact Hfit. }
  cbn [negb]. rewrite engine_summed_batched.
  assert (Hout : map (assoc0 dims) (rhs (engine_expr_batched n ws)) = b :: repeat 2 n).
  { cbn [engine_expr_batched engine_expr rhs map]. f_equal.
    rewrite <- (new_state_labels_length n ws) at 2.
    apply map_const_repeat. intros c Hc.
    rewrite dims_keys_batched by (apply rhs_in_lhs_batched; right; exact Hc).
    unfold size. replace (Ascii.eqb c (letter 25)) with false; [reflexivity |].
    symmetry. apply Ascii.eqb_neq. intros ->.
    revert Hc. apply new_state_labels_not_last. exact Hfit. }
  assert (Hsum : map (assoc0 dims) (engine_summed n ws)
                 = repeat 2 (length (engine_summed n ws))).
  { apply map_const_repeat. intros c Hc. unfold engine_summed in Hc.
    apply dedup_In, filter_In in Hc as [Hin Hnot].
    rewrite dims_keys_batched by (right; exact Hin). unfold size.
    replace (Ascii.eqb c (letter 25)) with false; [reflexivity |].
    symmetry. apply Ascii.eqb_neq. intros ->.
    apply negb_true_iff, str_mem_false in Hnot. apply Hnot. left. reflexivity. }
  rewrite Hout, Hsum. reflexivity.
Qed.

End BatchedContraction.

Section Blocks.

Lemma nth_block {A} (l : list A) (m i j : nat) (d : A) :
  j < m -> nth j (firstn m (skipn (i * m) l)) d = nth (i * m + j) l d.
Proof.
  intros Hj. rewrite nth_firstn, nth_skipn.
  apply Nat.ltb_lt in Hj. rewrite Hj. reflexivity.
Qed.

Lemma block_flat_map {B} (f : nat -> list B) (m a k i : nat) :
  (forall j, length (f j) = m) -> i < k ->
  firstn m (skipn (i * m) (flat_map f (seq a k))) = f (a + i).
Proof.
  intros Hlen. revert a i. induction k as [| k IH]; intros a i Hi; [inversion Hi |].
  cbn [seq flat_map]. destruct i as [| i].
  - rewrite Nat.mul_0_l, skipn_O, Nat.add_0_r, firstn_app, (Hlen a), Nat.sub_diag.
    cbn [firstn]. rewrite app_nil_r. apply firstn_all2. rewrite Hlen. apply Nat.le_refl.
  - rewrite skipn_app, (Hlen a).
    rewrite skipn_all2 by (rewrite Hlen; cbn; apply Nat.le_add_r).
    cbn [app]. replace (S i * m - m) with (i * m) by (cbn; rewrite Nat.add_comm, Nat.add_sub; reflexivity).
    rewrite IH by (apply Nat.succ_lt_mono; exact Hi).
    f_equal. rewrite Nat.add_succ_r. reflexivity.
Qed.

End Blocks.

Section BatchedEntries.
Variables (state mat : tensor C) (b n : nat) (ws : list nat).
Hypothesis Hstate : shape state = b :: repeat 2 n.
Hypothesis Hmat : shape mat = [b; 2 ^ length ws; 2 ^ length ws].
Hypothesis Hnd : NoDup ws.
Hypothesis Hws : Forall (fun w => w < n) ws.
Hypothesis Hfit : n + length ws <= 25.

(** The entry of the result at batch element [i] is the sum over the
    wires for the matrix [mat[i]] and the state [state[i]]. *)
Lemma engine_entry_batched_sum (i : nat) (o : list nat) :
  In o (all_indices (repeat 2 n)) ->
  engine_entry_batched state mat b n ws (i :: o)
  = wire_sum (tslice1 state i) (titem mat i) n ws 0 o.
Proof.
  intros Hin. pose proof Hin as Ho. apply all_indices_bits in Ho as [Ho _].
  pose proof (select_in_range n ws o Hin) as Hsel.
  pose proof (ravel_lt _ _ Hsel) as Hr. rewrite numel_repeat2 in Hr.
  unfold engine_entry_batched, wire_sum. rewrite engine_summed_wires by assumption.
  rewrite length_map. apply Csum_map_ext. intros si Hsin.
  pose proof Hsin as Hsi. apply all_indices_bits in Hsi as [Hsi _].
  pose proof (merge_in_range n ws o si Hin Hsin) as Hm.
  apply ravel_lt in Hm. rewrite numel_repeat2 in Hm.
  apply all_indices_In, ravel_lt in Hsin. rewrite numel_repeat2 in Hsin.
  cbn [engine_expr_batched engine_expr lhs1 lhs2 rhs]. cbn zeta.
  rewrite new_state_labels_relabel by (assumption || lia).
  cbn [map]. rewrite map_app.
  rewrite env_fresh, env_wires, env_old, env_batch by assumption.
  unfold tget, engine_mat_batched, titem, tslice1. cbn [shape data]. rewrite Hstate, Hmat.
  cbn [tl ravel].
  rewrite ravel_app by (rewrite select_length, repeat_length; reflexivity).
  rewrite numel_app, !numel_repeat2.
  replace (numel [2 ^ length ws; 2 ^ length ws]) with (2 ^ length ws * 2 ^ length ws)
    by (cbn; lia).
  rewrite !nth_block by nia.
  rewrite Nat.mul_0_l, Nat.add_0_l. reflexivity.
Qed.

(** With a matrix per batch element, every batch element of the result
    is the result of the engine for the matrix and the state of that
    batch element. *)
Lemma apply_unitary_einsum_batched_nat :
  exists out,
    apply_unitary_einsum state mat (map Z.of_nat ws) = Ok out
    /\ shape out = shape state
    /\ wf out
    /\ forall i, i < b ->
         apply_unitary_einsum (tslice1 state i) (titem mat i) (map Z.of_nat ws)
         = Ok (tslice1 out i).
Proof.
  assert (Hws25 : Forall (fun w => w < 25) ws).
  { eapply Forall_impl; [| exact Hws]. cbn. intros w Hw. lia. }
  eexists. split; [| split; [| split]].
  - rewrite (apply_unitary_einsum_reaches_einsum_batched state mat b n ws) by assumption.
    apply (einsum_engine_batched state mat b n ws); assumption.
  - cbn [shape]. symmetry. exact Hstate.
  - unfold wf. cbn [shape data]. rewrite length_map. apply all_indices_length.
  - intros i Hi.
    rewrite (apply_unitary_einsum_wire_sums 1 n ws) by
      (assumption || (unfold tslice1, titem; cbn [shape]; rewrite ?Hstate, ?Hmat; reflexivity)).
    unfold tslice1 at 2. cbn [shape data tl]. f_equal. f_equal.
    cbn [all_indices seq flat_map]. rewrite app_nil_r, !map_map, map_flat_map.
    rewrite (block_flat_map _ (numel (repeat 2 n)) 0 b i).
    + cbn [Nat.add]. rewrite map_map. apply map_ext_in. intros o Ho. cbn [hd tl].
      symmetry. apply engine_entry_batched_sum. exact Ho.
    + intros j. rewrite !length_map. apply all_indices_length.
    + exact Hi.
Qed.

End BatchedEntries.

Section Batched.

(** A matrix with a batch axis, on distinct wires in range: the call
    returns, and every batch element of the result is the result of the
    engine on that batch element of the state with that matrix of the
    batch. *)
Theorem apply_unitary_einsum_batched (state mat : tensor C) (b n : nat) (wires : list Z) :
  shape state = b :: repeat 2 n ->
  shape mat = [b; 2 ^ length wires; 2 ^ length wires] ->
  NoDup wires ->
  Forall (fun w => (0 <= w < Z.of_nat n)%Z) wires ->
  n + length wires <= 25 ->
  exists out,
    apply_unitary_einsum state mat wires = Ok out
    /\ shape out = shape state
    /\ wf out
    /\ forall i, i < b ->
         apply_unitary_einsum (tslice1 state i) (titem mat i) wires = Ok (tslice1 out i).
Proof.
  intros Hstate Hmat Hnd Hws Hfit.
  rewrite (wires_as_nat wires (wires_nonneg _ _ Hws)).
  apply (apply_unitary_einsum_batched_nat state mat b n (map Z.to_nat wires)).
  - exact Hstate.
  - rewrite length_map. exact Hmat.
  - apply wires_nat_NoDup; [exact (wires_nonneg _ _ Hws) | exact Hnd].
  - apply wires_nat_lt. exact Hws.
  - rewrite length_map. exact Hfit.
Qed.

Lemma apply_unitary_einsum_batched_example :
  exists out,
    apply_unitary_einsum (mkTensor [2; 2] [C1; C0; C0; C1])
      (mkTensor [2; 2; 2] (data paulix_mat ++ data pauliz_mat)) [0%Z] = Ok out
    /\ shape out = [2; 2]
    /\ wf out
    /\ forall i, i < 2 ->
         apply_unitary_einsum (tslice1 (mkTensor [2; 2] [C1; C0; C0; C1]) i)
           (titem (mkTensor [2; 2; 2] (data paulix_mat ++ data pauliz_mat)) i) [0%Z]
         = Ok (tslice1 out i).
Proof.
  apply (apply_unitary_einsum_batched (mkTensor [2; 2] [C1; C0; C0; C1])
           (mkTensor [2; 2; 2] (data paulix_mat ++ data pauliz_mat)) 2 1 [0%Z]).
  - reflexivity.
  - reflexivity.
  - repeat constructor; cbn; intuition discriminate.
  - repeat constructor; cbn; lia.
  - cbn. lia.
Defined.

End Batched.

(** ** One matrix per parameter row *)

Section CatStack.

Lemma block_flat_map_list {A B} (f : A -> list B) (m i : nat) (l : list A) (d : A) :
  (forall x, length (f x) = m) -> i < length l ->
  firstn m (skipn (i * m) (flat_map f l)) = f (nth i l d).
Proof.
  intros Hlen. revert i. induction l as [| x l IH]; intros i Hi; [inversion Hi |].
  cbn [flat_map]. destruct i as [| i].
  - rewrite Nat.mul_0_l, skipn_O, firstn_app, (Hlen x), Nat.sub_diag.
    cbn [firstn nth]. rewrite app_nil_r. apply firstn_all2. rewrite Hlen. apply Nat.le_refl.
  - rewrite skipn_app, (Hlen x).
    rewrite skipn_all2 by (rewrite Hlen; cbn; apply Nat.le_add_r).
    cbn [app nth].
    replace (S i * m - m) with (i * m) by (cbn; rewrite Nat.add_comm, Nat.add_sub; reflexivity).
    apply IH. apply Nat.succ_lt_mono. exact Hi.
Qed.

Lemma repeat_as_map {A B} (v : B) (l : list A) :
  repeat v (length l) = map (fun _ => v) l.
Proof. induction l as [| x l IH]; [reflexivity |]. cbn. rewrite IH. reflexivity. Qed.

(** [torch.cat] of two columns: the entries alternate. *)
Lemma cat_rows_columns {A B} (fa fb : A -> B) (xs : list A) :
  cat_rows (length xs) [(1, map fa xs); (1, map fb xs)]
  = flat_map (fun x => [fa x; fb x]) xs.
Proof.
  induction xs as [| x xs IH]; [reflexivity |].
  cbn [length cat_rows map flat_map fst snd firstn skipn app].
  rewrite !firstn_O, !skipn_O. cbn [app]. rewrite IH. reflexivity.
Qed.

(** [torch.stack] of two matrices of two columns along a new last axis. *)
Lemma stack_rows_pairs {A B} (fa fb fc fd : A -> B) (xs : list A) :
  stack_rows (length xs * 2)
    [flat_map (fun x => [fa x; fb x]) xs; flat_map (fun x => [fc x; fd x]) xs]
  = flat_map (fun x => [fa x; fc x; fb x; fd x]) xs.
Proof.
  induction xs as [| x xs IH]; [reflexivity |].
  cbn [length Nat.mul Nat.add stack_rows map flat_map firstn tl app].
  rewrite ?firstn_O. cbn [app]. rewrite IH. reflexivity.
Qed.

(** The common tail of the 2x2 generators on columns of [b] entries:
    the matrix of row [x] has the entries of the first [cat] in its first
    column and those of the second [cat] in its second column. *)
Lemma cat_cat_stack_rows {A} (fa fb fc fd : A -> C) (xs : list A) :
  (let* row0 := torch_cat [mkTensor [length xs; 1] (map fa xs);
                           mkTensor [length xs; 1] (map fb xs)] in
   let* row1 := torch_cat [mkTensor [length xs; 1] (map fc xs);
                           mkTensor [length xs; 1] (map fd xs)] in
   let* m := torch_stack [row0; row1] in
   Ok (squeeze0 m))
  = Ok (squeeze0 (mkTensor [length xs; 2; 2]
                    (flat_map (fun x => [fa x; fc x; fb x; fd x]) xs))).
Proof.
  unfold torch_cat, rank. cbn [forallb map list_sum shape data removelast length
                               Nat.eqb negb andb last].
  rewrite shape_eqb_refl. cbn [andb bind app Nat.add].
  unfold torch_stack. cbn [forallb map shape data length].
  rewrite shape_eqb_refl. cbn [andb bind app].
  change (list_sum [1; 1]) with 2.
  change (numel [length xs]) with (length xs * 1).
  change (numel [length xs; 2]) with (length xs * (2 * 1)).
  rewrite !Nat.mul_1_r, !cat_rows_columns, stack_rows_pairs. reflexivity.
Qed.

End CatStack.

Section Rows.
Local Open Scope R_scope.

Ltac columns :=
  unfold type_C_DTYPE, torch_cos, torch_sin, torch_exp, torch_conj, tneg, tdiv, tscale,
         torch_zeros, torch_ones, tmap, params_rows;
  cbn [shape data];
  change (numel [?b; 1%nat]) with (b * 1)%nat;
  rewrite ?Nat.mul_1_r, ?repeat_as_map, ?map_map.

(** What the 2x2 generators return for a column of angles, before the
    entries are simplified. *)
Lemma rx_matrix_rows (xs : list R) :
  rx_matrix (params_rows (length xs) 1 xs)
  = Ok (squeeze0 (mkTensor [length xs; 2; 2]%nat
          (flat_map (fun x => [Ccos (Cdivr (RtoC x) 2);
                               Cmul Ci (Csin (Cdivr (Copp (RtoC x)) 2));
                               Cmul Ci (Csin (Cdivr (Copp (RtoC x)) 2));
                               Ccos (Cdivr (RtoC x) 2)]) xs))).
Proof. unfold rx_matrix. columns. apply cat_cat_stack_rows. Qed.

Lemma ry_matrix_rows (xs : list R) :
  ry_matrix (params_rows (length xs) 1 xs)
  = Ok (squeeze0 (mkTensor [length xs; 2; 2]%nat
          (flat_map (fun x => [Ccos (Cdivr (RtoC x) 2);
                               Csin (Cdivr (RtoC x) 2);
                               Copp (Csin (Cdivr (RtoC x) 2));
                               Ccos (Cdivr (RtoC x) 2)]) xs))).
Proof. unfold ry_matrix. columns. apply cat_cat_stack_rows. Qed.

Lemma rz_matrix_rows (xs : list R) :
  rz_matrix (params_rows (length xs) 1 xs)
  = Ok (squeeze0 (mkTensor [length xs; 2; 2]%nat
          (flat_map (fun x => [Cexp (Cmul (0, - (1 / 2)) (RtoC x));
                               C0;
                               C0;
                               Cconj (Cexp (Cmul (0, - (1 / 2)) (RtoC x)))]) xs))).
Proof. unfold rz_matrix. columns. apply (cat_cat_stack_rows _ (fun _ => C0) (fun _ => C0)). Qed.

Lemma phaseshift_matrix_rows (xs : list R) :
  phaseshift_matrix (params_rows (length xs) 1 xs)
  = Ok (squeeze0 (mkTensor [length xs; 2; 2]%nat
          (flat_map (fun x => [C1; C0; C0; Cexp (Cmul Ci (RtoC x))]) xs))).
Proof.
  unfold phaseshift_matrix. columns.
  apply (cat_cat_stack_rows (fun _ => C1) (fun _ => C0) (fun _ => C0)).
Qed.

End Rows.

Section ColumnsAndBlocks.

Lemma flat_map_singletons {A} (l : list A) :
  flat_map (fun i => firstn 1 (skipn i l)) (seq 0 (length l)) = l.
Proof.
  induction l as [| x l IH]; [reflexivity |].
  cbn [length seq flat_map]. rewrite skipn_O. cbn [firstn]. rewrite firstn_O. cbn [app].
  f_equal. rewrite <- seq_shift, flat_map_concat_map, map_map, <- flat_map_concat_map.
  cbn [skipn]. exact IH.
Qed.

(** [t[:, 0]] of a column is the list of its entries. *)
Lemma select_col_column {A} (l : list A) :
  select_col (mkTensor [length l; 1] l) 0 = Ok (mkTensor [length l] l).
Proof.
  unfold select_col. cbn [shape data Nat.ltb Nat.leb numel fold_right].
  f_equal. f_equal. rewrite <- (flat_map_singletons l) at 2.
  apply flat_map_ext. intros i.
  rewrite Nat.mul_1_r, Nat.add_0_r, Nat.mul_1_r. reflexivity.
Qed.

Lemma select_col_map {A B} (f : A -> B) (xs : list A) :
  select_col (mkTensor [length xs; 1] (map f xs)) 0 = Ok (mkTensor [length xs] (map f xs)).
Proof.
  pose proof (select_col_column (map f xs)) as H. rewrite length_map in H. exact H.
Qed.

Lemma concat_repeat_rows {A B} (l : list B) (xs : list A) :
  concat (repeat l (length xs)) = flat_map (fun _ => l) xs.
Proof. induction xs as [| x xs IH]; [reflexivity |]. cbn. rewrite IH. reflexivity. Qed.

Lemma length_flat_map_blocks {A B} (f : A -> list B) (m : nat) (l : list A) :
  (forall x, length (f x) = m) -> length (flat_map f l) = length l * m.
Proof.
  intros H. induction l as [| x l IH]; [reflexivity |].
  cbn [flat_map length]. rewrite length_app, H, IH. reflexivity.
Qed.

Lemma skipn_nth_cons {A} (xs : list A) (d : A) (k : nat) :
  k < length xs -> skipn k xs = nth k xs d :: skipn (S k) xs.
Proof.
  revert k. induction xs as [| x xs IHx]; intros k Hk; [inversion Hk |].
  destruct k as [| k]; [reflexivity |].
  cbn [skipn nth]. apply IHx. apply Nat.succ_lt_mono. exact Hk.
Qed.

Lemma firstn_S_snoc {A} (xs : list A) (d : A) (k : nat) :
  k < length xs -> firstn (S k) xs = firstn k xs ++ [nth k xs d].
Proof.
  revert k. induction xs as [| x xs IHx]; intros k Hk; [inversion Hk |].
  destruct k as [| k]; [reflexivity |].
  cbn [nth]. rewrite (firstn_cons (S k)), (firstn_cons k). cbn [app]. f_equal.
  apply IHx. apply Nat.succ_lt_mono. exact Hk.
Qed.

(** Assigning entry [p] of the first [k] blocks of [m] entries. *)
Lemma fold_insert_blocks {A} (blk : A -> list C) (g : A -> C) (idx : nat -> nat)
    (m p : nat) (xs : list A) (d : A) (dv : C) (k : nat) :
  (forall x, length (blk x) = m) -> p < m -> (forall j, idx j = j * m + p) ->
  k <= length xs ->
  fold_left (fun dt j => <[idx j := nth j (map g xs) dv]> dt) (seq 0 k) (flat_map blk xs)
  = flat_map (fun x => <[p := g x]> (blk x)) (firstn k xs) ++ flat_map blk (skipn k xs).
Proof.
  intros Hlen Hp Hidx. induction k as [| k IH]; intros Hk.
  - rewrite firstn_O, skipn_O. reflexivity.
  - rewrite seq_S, fold_left_app. cbn [fold_left Nat.add].
    rewrite IH by (apply Nat.lt_le_incl; exact Hk).
    pose proof (skipn_nth_cons xs d k Hk) as Hsplit.
    pose proof (firstn_S_snoc xs d k Hk) as Hfirst.
    assert (Hpre : length (flat_map (fun x => <[p := g x]> (blk x)) (firstn k xs)) = k * m).
    { rewrite (length_flat_map_blocks _ m).
      - rewrite length_firstn, Nat.min_l by (apply Nat.lt_le_incl; exact Hk). reflexivity.
      - intros x. rewrite length_insert. apply Hlen. }
    rewrite Hsplit, Hfirst, flat_map_app. cbn [flat_map]. rewrite app_nil_r, <- app_assoc.
    rewrite Hidx.
    rewrite insert_app_r_alt by (rewrite Hpre; apply Nat.le_add_r).
    rewrite Hpre, Nat.add_comm, Nat.add_sub.
    rewrite insert_app_l by (rewrite Hlen; exact Hp).
    rewrite (nth_indep _ dv (g d)) by (rewrite length_map; exact Hk).
    rewrite map_nth. reflexivity.
Qed.

(** [m[:, i, j] = v] on a batch of 4x4 matrices: entry [(i, j)] of every
    matrix becomes the entry of [v] for that matrix. *)
Lemma setitem_ij_rows (blk : R -> list C) (g : R -> C) (i j : nat) (xs : list R) :
  (forall x, length (blk x) = 16) -> i < 4 -> j < 4 ->
  setitem_ij (mkTensor [length xs; 4; 4] (flat_map blk xs)) i j
             (mkTensor [length xs] (map g xs))
  = Ok (mkTensor [length xs; 4; 4] (flat_map (fun x => <[i * 4 + j := g x]> (blk x)) xs)).
Proof.
  intros Hlen Hi Hj. unfold setitem_ij. cbn [shape data].
  rewrite shape_eqb_refl.
  apply Nat.ltb_lt in Hi as Hi', Hj as Hj'. rewrite Hi', Hj'. cbn [andb negb].
  f_equal. f_equal.
  rewrite (fold_insert_blocks blk g (fun k => (k * 4 + i) * 4 + j) 16 (i * 4 + j) xs 0%R).
  - rewrite firstn_all, skipn_all. cbn [flat_map]. apply app_nil_r.
  - exact Hlen.
  - lia.
  - intros k. lia.
  - apply Nat.le_refl.
Qed.

End ColumnsAndBlocks.

Section CrxRows.
Local Open Scope R_scope.

(** What [crx_matrix] returns for a column of angles. *)
Lemma crx_matrix_rows (xs : list R) :
  crx_matrix (params_rows (length xs) 1 xs)
  = Ok (squeeze0 (mkTensor [length xs; 4; 4]%nat
          (flat_map (fun x =>
             [C1; C0; C0; C0;
              C0; C1; C0; C0;
              C0; C0; Ccos (Cdivr (RtoC x) 2); Cmul Ci (Csin (Cdivr (Copp (RtoC x)) 2));
              C0; C0; Cmul Ci (Csin (Cdivr (Copp (RtoC x)) 2)); Ccos (Cdivr (RtoC x) 2)])
             xs))).
Proof.
  unfold crx_matrix, repeat0, shape0.
  unfold type_C_DTYPE, torch_cos, torch_sin, tneg, tdiv, tscale, tmap, params_rows.
  cbn [shape data unsqueeze0 torch_tensor2 bind length hd concat app].
  rewrite !map_map, Nat.mul_1_r, concat_repeat_rows.
  rewrite !select_col_map. cbn [bind].
  rewrite setitem_ij_rows by (reflexivity || lia). cbn [bind].
  rewrite setitem_ij_rows by (reflexivity || lia). cbn [bind].
  rewrite setitem_ij_rows by (reflexivity || lia). cbn [bind].
  rewrite setitem_ij_rows by (reflexivity || lia). cbn [bind].
  reflexivity.
Qed.

End CrxRows.

Section ColumnTimesRow.

Lemma flat_map_map {A B D} (h : A -> B) (g : B -> list D) (l : list A) :
  flat_map g (map h l) = flat_map (fun x => g (h x)) l.
Proof. induction l as [| x l IH]; [reflexivity |]. cbn. rewrite IH. reflexivity. Qed.

Lemma flat_map_ext_in {A B} (f g : A -> list B) (l : list A) :
  (forall x, In x l -> f x = g x) -> flat_map f l = flat_map g l.
Proof.
  induction l as [| x l IH]; intros H; [reflexivity |].
  cbn. rewrite (H x) by (left; reflexivity). f_equal.
  apply IH. intros y Hy. apply H. right. exact Hy.
Qed.

Lemma map_nth_seq {A B} (g : A -> B) (l : list A) (d : A) :
  map (fun j => g (nth j l d)) (seq 0 (length l)) = map g l.
Proof.
  induction l as [| x l IH]; [reflexivity |].
  cbn [length seq map nth]. f_equal.
  rewrite <- seq_shift, map_map. exact IH.
Qed.

Lemma flat_map_nth_seq {A B} (g : A -> list B) (l : list A) (d : A) :
  flat_map (fun j => g (nth j l d)) (seq 0 (length l)) = flat_map g l.
Proof.
  induction l as [| x l IH]; [reflexivity |].
  cbn [length seq flat_map nth]. f_equal.
  rewrite <- seq_shift, flat_map_map. exact IH.
Qed.

Lemma all_indices_vector (m : nat) : all_indices [m] = map (fun j => [j]) (seq 0 m).
Proof.
  cbn [all_indices]. induction (seq 0 m) as [| j l IH]; [reflexivity |].
  cbn in *. rewrite IH. reflexivity.
Qed.

Lemma all_indices_matrix (b m : nat) :
  all_indices [b; m] = flat_map (fun i => map (fun j => [i; j]) (seq 0 m)) (seq 0 b).
Proof.
  change (all_indices [b; m])
    with (flat_map (fun i => map (cons i) (all_indices [m])) (seq 0 b)).
  apply flat_map_ext. intros i. rewrite all_indices_vector, map_map. reflexivity.
Qed.

(** A column times a row, with broadcasting: every entry of the column
    meets every entry of the row. *)
Lemma tbroadcast_col_row (f : C -> C -> C) (la lb : list C) :
  tbroadcast f (mkTensor [length la; 1] la) (mkTensor [length lb] lb)
  = Ok (mkTensor [length la; length lb] (flat_map (fun a => map (f a) lb) la)).
Proof.
  unfold tbroadcast. cbn [shape]. rewrite bshape_col_row. f_equal. f_equal.
  rewrite all_indices_matrix, map_flat_map.
  rewrite <- (flat_map_nth_seq (fun a => map (f a) lb) la C0).
  apply flat_map_ext_in. intros i Hi. apply in_seq in Hi.
  rewrite map_map, <- (map_nth_seq (f (nth i la C0)) lb C0).
  apply map_ext_in. intros j Hj. apply in_seq in Hj.
  unfold tget, bindex. cbn [shape data length Nat.sub skipn combine map fst snd ravel
                             numel fold_right Nat.eqb].
  f_equal; f_equal.
  - destruct (length la =? 1) eqn:E; [apply Nat.eqb_eq in E |]; lia.
  - destruct (length lb =? 1) eqn:E; [apply Nat.eqb_eq in E |]; lia.
Qed.

Lemma rows_of_blocks {A B} (row : A -> list B) (m : nat) (l : list A) :
  (forall x, length (row x) = m) -> rows_of (length l) m (flat_map row l) = map row l.
Proof.
  intros H. induction l as [| x l IH]; [reflexivity |].
  cbn [length rows_of flat_map map].
  rewrite firstn_app, skipn_app, (H x), Nat.sub_diag, firstn_O, skipn_O, app_nil_r.
  rewrite firstn_all2 by (rewrite H; apply Nat.le_refl).
  rewrite skipn_all2 by (rewrite H; apply Nat.le_refl).
  cbn [app]. rewrite IH. reflexivity.
Qed.

End ColumnTimesRow.

Section MultirzRows.
Local Open Scope R_scope.

(** What [multirz_matrix] returns for a column of angles and [n] wires:
    for every angle the diagonal matrix of the phases, one per
    eigenvalue. *)
Lemma multirz_matrix_rows (xs : list R) (n : nat) :
  multirz_matrix (params_rows (length xs) 1 xs) n
  = Ok (squeeze0 (mkTensor [length xs; (2 ^ n)%nat; (2 ^ n)%nat]
          (flat_map (fun x =>
             diag_row (map (fun e => Cexp (Cmul (Cdivr (Cmul (Copp Ci) (RtoC x)) 2) (RtoC e)))
                           (pauli_eigs n)))
             xs))).
Proof.
  unfold multirz_matrix, multirz_eigvals.
  unfold type_C_DTYPE, torch_exp, tdiv, tscale, tmap, torch_tensor1, params_rows.
  cbn [shape data]. rewrite !map_map.
  pose proof (tbroadcast_col_row Cmul
                (map (fun x => Cdivr (Cmul (Copp Ci) (RtoC x)) 2) xs)
                (map RtoC (pauli_eigs n))) as E.
  rewrite !length_map in E. rewrite E. clear E. cbn [bind shape data].
  unfold diag. cbn [shape data last removelast app].
  change (numel [length xs]) with (length xs * 1)%nat. rewrite Nat.mul_1_r.
  rewrite pauli_eigs_length.
  rewrite flat_map_map, map_flat_map.
  rewrite (rows_of_blocks _ (2 ^ n)%nat)
    by (intros x; rewrite !length_map; apply pauli_eigs_length).
  rewrite flat_map_map. do 3 f_equal.
  apply flat_map_ext. intros x. rewrite !map_map. reflexivity.
Qed.

End MultirzRows.

Section RotRows.

Lemma select_col_triples {A B} (fa fb fc : A -> B) (rows : list A) (j : nat) (d : B) :
  j < 3 ->
  select_col (mkTensor [length rows; 3] (flat_map (fun r => [fa r; fb r; fc r]) rows)) j
  = Ok (mkTensor [length rows] (map (fun r => nth j [fa r; fb r; fc r] d) rows)).
Proof.
  intros Hj. unfold select_col. cbn [shape data numel fold_right].
  apply Nat.ltb_lt in Hj as Hj'. rewrite Hj'. f_equal. f_equal.
  induction rows as [| r rows IH]; [reflexivity |].
  cbn [length seq flat_map map].
  rewrite <- seq_shift, flat_map_map.
  assert (H0 : firstn 1 (skipn ((0 * 3 + j) * 1)
                           ([fa r; fb r; fc r] ++ flat_map (fun r => [fa r; fb r; fc r]) rows))
               = [nth j [fa r; fb r; fc r] d]).
  { destruct j as [| [| [| j]]]; [reflexivity | reflexivity | reflexivity | lia]. }
  rewrite H0. cbn [app]. f_equal.
  rewrite <- IH. apply flat_map_ext. intros i.
  replace ((S i * 3 + j) * 1) with (S (S (S ((i * 3 + j) * 1)))) by lia.
  reflexivity.
Qed.

(** Two columns of one length, entry by entry. *)
Lemma tbroadcast_columns {A} (f : C -> C -> C) (fa fb : A -> C) (rows : list A) :
  tbroadcast f (mkTensor [length rows; 1] (map fa rows))
               (mkTensor [length rows; 1] (map fb rows))
  = Ok (mkTensor [length rows; 1] (map (fun r => f (fa r) (fb r)) rows)).
Proof.
  unfold tbroadcast. cbn [shape data]. rewrite bshape_same. f_equal. f_equal.
  rewrite all_indices_matrix, map_flat_map.
  destruct rows as [| r0 rows0]; [reflexivity |].
  remember (r0 :: rows0) as rows eqn:Erows. clear Erows rows0.
  rewrite <- (map_nth_seq (fun r => f (fa r) (fb r)) rows r0).
  assert (E : forall (l : list nat) (g : nat -> C), flat_map (fun i => [g i]) l = map g l).
  { intros l g. induction l as [| x l IHl]; [reflexivity |]. cbn. rewrite IHl. reflexivity. }
  rewrite <- (E (seq 0 (length rows))
                  (fun j => f (fa (nth j rows r0)) (fb (nth j rows r0)))).
  apply flat_map_ext_in. intros i Hi. apply in_seq in Hi.
  cbn [seq map]. f_equal.
  unfold tget, bindex. cbn [shape data length Nat.sub skipn combine map fst snd ravel
                             numel fold_right Nat.eqb].
  replace ((if length rows =? 1 then 0 else i) * (1 * 1) + (0 * 1 + 0)) with i
    by (destruct (length rows =? 1) eqn:E1; [apply Nat.eqb_eq in E1 |]; lia).
  rewrite (nth_indep (map fa rows) C0 (fa r0)) by (rewrite length_map; lia).
  rewrite (nth_indep (map fb rows) C0 (fb r0)) by (rewrite length_map; lia).
  rewrite !map_nth. reflexivity.
Qed.

Local Open Scope R_scope.

(** [rot_matrix] on rows (phi, theta, omega): a batch of blocks of four
    entries, one block per row. *)
Lemma rot_matrix_rows :
  exists raw : R * R * R -> list C,
    (forall r, length (raw r) = 4%nat)
    /\ forall rows, rot_matrix (rot_params rows)
                    = Ok (squeeze0 (mkTensor [length rows; 2; 2]%nat (flat_map raw rows))).
Proof.
  eexists (fun r => [_; _; _; _]). split; [reflexivity |]. intros rows.
  unfold rot_matrix, rot_params.
  rewrite !(select_col_triples _ _ _ rows _ 0) by lia. cbn [bind nth].
  unfold type_C_DTYPE, torch_cos, torch_sin, torch_exp, tneg, tdiv, tscale, tmap,
         unsqueeze_last.
  cbn [shape data app]. rewrite !map_map.
  rewrite !tbroadcast_columns. cbn [bind shape data]. rewrite !map_map.
  rewrite !tbroadcast_columns. cbn [bind shape data].
  apply (cat_cat_stack_rows _ _ _ _ rows).
Qed.

End RotRows.

Section RowByRow.

Lemma row_by_row_of_blocks {A} (call : list A -> result (tensor C)) (d : nat)
    (raw : A -> list C) :
  (forall x, length (raw x) = d * d) ->
  (forall rows, call rows
                = Ok (squeeze0 (mkTensor [length rows; d; d] (flat_map raw rows)))) ->
  row_by_row call d.
Proof.
  intros Hlen Hcall rows i dflt Hb Hi.
  exists (mkTensor [length rows; d; d] (flat_map raw rows)),
         (mkTensor [d; d] (raw (nth i rows dflt))).
  split; [| split; [reflexivity | split; [| split; [reflexivity |]]]].
  - rewrite Hcall. unfold squeeze0. cbn [shape].
    destruct (length rows) as [| [| k]]; [lia | lia | reflexivity].
  - rewrite Hcall. cbn [length flat_map]. rewrite app_nil_r. reflexivity.
  - unfold titem. cbn [shape data tl]. f_equal.
    change (numel [d; d]) with (d * (d * 1)). rewrite Nat.mul_1_r.
    apply block_flat_map_list; assumption.
Qed.

Lemma length_diag_row (row : list C) : length (diag_row row) = length row * length row.
Proof.
  unfold diag_row. rewrite (length_flat_map_rows _ (length row)), length_seq. reflexivity.
Qed.

(** Every generator works row by row: for parameters with two rows or
    more, the matrix at position [i] of the batch it returns is the
    matrix it returns for row [i] alone. *)
Theorem generators_row_by_row (n : nat) :
  row_by_row (fun xs => rx_matrix (params_rows (length xs) 1 xs)) 2
  /\ row_by_row (fun xs => ry_matrix (params_rows (length xs) 1 xs)) 2
  /\ row_by_row (fun xs => rz_matrix (params_rows (length xs) 1 xs)) 2
  /\ row_by_row (fun xs => phaseshift_matrix (params_rows (length xs) 1 xs)) 2
  /\ row_by_row (fun rows => rot_matrix (rot_params rows)) 2
  /\ row_by_row (fun xs => multirz_matrix (params_rows (length xs) 1 xs) n) (2 ^ n)
  /\ row_by_row (fun xs => crx_matrix (params_rows (length xs) 1 xs)) 4.
Proof.
  repeat split.
  - eapply row_by_row_of_blocks; [| exact rx_matrix_rows]. reflexivity.
  - eapply row_by_row_of_blocks; [| exact ry_matrix_rows]. reflexivity.
  - eapply row_by_row_of_blocks; [| exact rz_matrix_rows]. reflexivity.
  - eapply row_by_row_of_blocks; [| exact phaseshift_matrix_rows]. reflexivity.
  - destruct rot_matrix_rows as (raw & Hlen & Hrows).
    exact (row_by_row_of_blocks _ 2 raw Hlen Hrows).
  - eapply row_by_row_of_blocks; [| exact (fun xs => multirz_matrix_rows xs n)].
    intros x. cbv beta. rewrite length_diag_row, length_map, pauli_eigs_length. reflexivity.
  - eapply row_by_row_of_blocks; [| exact crx_matrix_rows]. reflexivity.
Qed.

Lemma generators_row_by_row_example :
  exists m mi,
    rx_matrix (params_rows 2 1 [0%R; PI]) = Ok m
    /\ shape m = [2; 2; 2]
    /\ rx_matrix (params_rows 1 1 [PI]) = Ok mi
    /\ shape mi = [2; 2]
    /\ titem m 1 = mi.
Proof.
  apply (proj1 (generators_row_by_row 0) [0%R; PI] 1 0%R); cbn; lia.
Defined.

End RowByRow.

(** * Further properties of the table of constant gates *)

Section TableAlgebra.
Local Open Scope R_scope.

(** The constant matrices of the table. *)
Lemma mat_const_cases (key : string) (m : tensor C) :
  mat_const key = Some m ->
  In m [hadamard_mat; paulix_mat; pauliy_mat; pauliz_mat; s_mat; t_mat; sx_mat;
        cnot_mat; cz_mat; cy_mat; swap_mat; cswap_mat; toffoli_mat].
Proof.
  unfold mat_const, mat_dict. cbn [dict_get].
  repeat match goal with
  | |- context [String.eqb ?k key] =>
      destruct (String.eqb k key);
      [ first [ discriminate
              | intros [= <-]; cbn [In]; repeat first [left; reflexivity | right] ] |]
  end.
  discriminate.
Qed.

Lemma t_phase_square :
  cos (PI / 4) * cos (PI / 4) = 1 / 2 /\ sin (PI / 4) * sin (PI / 4) = 1 / 2
  /\ cos (PI / 4) * sin (PI / 4) = 1 / 2.
Proof.
  rewrite cos_PI4, sin_PI4. pose proof inv_sqrt2_square as H. repeat split; exact H.
Qed.

(** Every constant matrix of the table is unitary, the CY of the table
    included. *)
Theorem table_constants_unitary (key : string) (m : tensor C) :
  mat_const key = Some m -> unitary m.
Proof.
  intros H. apply mat_const_cases in H. cbn [In] in H.
  pose proof inv_sqrt2_square as Hh.
  pose proof t_phase_square as (Hc & Hs & Hcs).
  repeat (destruct H as [<- | H]); try contradiction; unfold unitary.
  - unfold hadamard_mat, INV_SQRT2. eval_entries.
    set (x := 1 / sqrt 2) in *. entries_by nra.
  - eval_entries. entries_by lra.
  - eval_entries. entries_by lra.
  - eval_entries. entries_by lra.
  - eval_entries. entries_by lra.
  - rewrite t_mat_standard. eval_entries.
    set (c := cos (PI / 4)) in *. set (s := sin (PI / 4)) in *. entries_by nra.
  - rewrite sx_mat_standard. eval_entries. entries_by lra.
  - eval_entries. entries_by lra.
  - eval_entries. entries_by lra.
  - eval_entries. entries_by lra.
  - eval_entries. entries_by lra.
  - eval_entries. entries_by lra.
  - eval_entries. entries_by lra.
Qed.

Lemma table_constants_unitary_example : unitary cy_mat.
Proof. apply (table_constants_unitary "cy" cy_mat). reflexivity. Defined.

(** Relations between the constant matrices: S S = Z, T T = S,
    SX SX = X, H Z H = X, H X H = Z, Y = i X Z, CNOT is CZ between two
    Hadamards on the target, and SWAP is three CNOTs, the middle one with
    control and target exchanged. *)
Theorem table_relations :
  matmul s_mat s_mat = pauliz_mat
  /\ matmul t_mat t_mat = s_mat
  /\ matmul sx_mat sx_mat = paulix_mat
  /\ matmul hadamard_mat (matmul pauliz_mat hadamard_mat) = paulix_mat
  /\ matmul hadamard_mat (matmul paulix_mat hadamard_mat) = pauliz_mat
  /\ tscale Ci (matmul paulix_mat pauliz_mat) = pauliy_mat
  /\ matmul (kron eye2 hadamard_mat) (matmul cz_mat (kron eye2 hadamard_mat)) = cnot_mat
  /\ matmul cnot_mat (matmul (full_operator 2 cnot_mat [1; 0]%nat) cnot_mat) = swap_mat.
Proof.
  pose proof inv_sqrt2_square as Hh.
  pose proof t_phase_square as (Hc & Hs & Hcs).
  repeat split.
  - eval_entries. entries_by lra.
  - rewrite t_mat_standard. eval_entries.
    set (c := cos (PI / 4)) in *. set (s := sin (PI / 4)) in *. entries_by nra.
  - rewrite sx_mat_standard. eval_entries. entries_by lra.
  - unfold hadamard_mat, INV_SQRT2. eval_entries.
    set (x := 1 / sqrt 2) in *. entries_by nra.
  - unfold hadamard_mat, INV_SQRT2. eval_entries.
    set (x := 1 / sqrt 2) in *. entries_by nra.
  - eval_entries. entries_by lra.
  - unfold hadamard_mat, INV_SQRT2. eval_entries.
    set (x := 1 / sqrt 2) in *. entries_by nra.
  - eval_entries. entries_by lra.
Qed.

End TableAlgebra.

(** ** Special angles and periods of the generators *)

Section SpecialAngles.
Local Open Scope R_scope.

(** The phase shift at pi/4, pi/2 and pi is the T, the S and the Z of the
    table; the rotations about x and z at pi are X and Z up to the
    phase -i; a phase shift is a rotation about z up to a phase. *)
Theorem generators_meet_table (theta : R) :
  phaseshift_matrix (params_rows 1 1 [PI / 4]) = Ok t_mat
  /\ phaseshift_matrix (params_rows 1 1 [PI / 2]) = Ok s_mat
  /\ phaseshift_matrix (params_rows 1 1 [PI]) = Ok pauliz_mat
  /\ rx_matrix (params_rows 1 1 [PI]) = Ok (tscale (Copp Ci) paulix_mat)
  /\ rz_matrix (params_rows 1 1 [PI]) = Ok (tscale (Copp Ci) pauliz_mat)
  /\ (let* m := rz_matrix (params_rows 1 1 [theta]) in
      Ok (tscale (cos (theta / 2), sin (theta / 2)) m))
     = phaseshift_matrix (params_rows 1 1 [theta]).
Proof.
  repeat split.
  - rewrite phaseshift_matrix_entries, t_mat_standard. reflexivity.
  - rewrite phaseshift_matrix_entries, cos_PI2, sin_PI2. reflexivity.
  - rewrite phaseshift_matrix_entries, cos_PI, sin_PI. reflexivity.
  - rewrite rx_matrix_entries, cos_PI2, sin_PI2. eval_entries. entries_by lra.
  - rewrite rz_matrix_entries, cos_PI2, sin_PI2. eval_entries. entries_by lra.
  - rewrite rz_matrix_entries, phaseshift_matrix_entries. cbn [bind].
    pose proof (sin_cos_square (theta / 2)) as H.
    assert (Hc : cos theta
                 = cos (theta / 2) * cos (theta / 2) - sin (theta / 2) * sin (theta / 2)).
    { rewrite <- cos_plus. f_equal. lra. }
    assert (Hs : sin theta
                 = sin (theta / 2) * cos (theta / 2) + cos (theta / 2) * sin (theta / 2)).
    { rewrite <- sin_plus. f_equal. lra. }
    rewrite Hc, Hs.
    eval_entries. entries_by nra.
Qed.

(** A full turn changes the sign of a rotation and leaves a phase shift
    as it is; two full turns leave the controlled rotation as it is. *)
Theorem generators_periodic (theta : R) :
  rx_matrix (params_rows 1 1 [theta + 2 * PI])
  = (let* m := rx_matrix (params_rows 1 1 [theta]) in Ok (tneg m))
  /\ ry_matrix (params_rows 1 1 [theta + 2 * PI])
     = (let* m := ry_matrix (params_rows 1 1 [theta]) in Ok (tneg m))
  /\ rz_matrix (params_rows 1 1 [theta + 2 * PI])
     = (let* m := rz_matrix (params_rows 1 1 [theta]) in Ok (tneg m))
  /\ phaseshift_matrix (params_rows 1 1 [theta + 2 * PI])
     = phaseshift_matrix (params_rows 1 1 [theta])
  /\ crx_matrix (params_rows 1 1 [theta + 4 * PI])
     = crx_matrix (params_rows 1 1 [theta]).
Proof.
  assert (E : (theta + 2 * PI) / 2 = theta / 2 + PI) by lra.
  assert (E4 : (theta + 4 * PI) / 2 = theta / 2 + 2 * PI) by lra.
  repeat split.
  - rewrite !rx_matrix_entries, E, neg_cos, neg_sin. cbn [bind].
    eval_entries. entries_by lra.
  - rewrite !ry_matrix_entries, E, neg_cos, neg_sin. cbn [bind].
    eval_entries. entries_by lra.
  - rewrite !rz_matrix_entries, E, neg_cos, neg_sin. cbn [bind].
    eval_entries. entries_by lra.
  - rewrite !phaseshift_matrix_entries, cos_plus, sin_plus, cos_2PI, sin_2PI.
    eval_entries. entries_by lra.
  - rewrite !crx_matrix_entries, E4, cos_plus, sin_plus, cos_2PI, sin_2PI.
    eval_entries. entries_by lra.
Qed.

End SpecialAngles.

(** ** MultiRZ on any number of wires *)

Section MultirzDiagonal.
Local Open Scope R_scope.

Lemma multirz_phase (theta e : R) :
  Cexp (Cmul (Cdivr (Cmul (Copp Ci) (RtoC theta)) 2) (RtoC e))
  = (cos (theta / 2 * e), - sin (theta / 2 * e)).
Proof.
  unfold Cexp, Cmul, Cdivr, Copp, Ci, RtoC. cbn [fst snd].
  replace ((- 0 * theta - - (1) * 0) / 2 * e - (- 0 * 0 + - (1) * theta) / 2 * 0)
    with 0 by lra.
  replace ((- 0 * theta - - (1) * 0) / 2 * 0 + (- 0 * 0 + - (1) * theta) / 2 * e)
    with (- (theta / 2 * e)) by lra.
  rewrite exp_0, cos_neg, sin_neg. f_equal; lra.
Qed.

(** For one angle and any number [n] of wires, [multirz_matrix] returns a
    diagonal matrix of size [2 ^ n]: off the diagonal the entries are 0,
    and the entry at position [r] of the diagonal is the phase
    exp(-i theta e / 2) for the eigenvalue [e] at position [r] of
    [pauli_eigs n]. *)
Theorem multirz_matrix_diagonal (theta : R) (n : nat) :
  exists m,
    multirz_matrix (params_rows 1 1 [theta]) n = Ok m
    /\ shape m = [2 ^ n; 2 ^ n]%nat
    /\ forall r c, (r < 2 ^ n)%nat -> (c < 2 ^ n)%nat ->
         tget m [r; c]
         = if (r =? c)%nat
           then (cos (theta / 2 * nth r (pauli_eigs n) 0),
                 - sin (theta / 2 * nth r (pauli_eigs n) 0))
           else C0.
Proof.
  eexists. split; [exact (multirz_matrix_rows [theta] n) |].
  split; [reflexivity |].
  intros r c Hr Hc. unfold tget, squeeze0.
  cbn [length shape data flat_map ravel numel fold_right]. rewrite app_nil_r.
  replace (r * (2 ^ n * 1) + (c * 1 + 0))%nat with (r * 2 ^ n + c)%nat by lia.
  unfold diag_row. rewrite length_map, pauli_eigs_length.
  rewrite nth_flat_map_rows by assumption.
  destruct (r =? c)%nat; [| reflexivity].
  rewrite (nth_indep _ C0
             (Cexp (Cmul (Cdivr (Cmul (Copp Ci) (RtoC theta)) 2) (RtoC 0))))
    by (rewrite length_map, pauli_eigs_length; exact Hr).
  rewrite (map_nth (fun e => Cexp (Cmul (Cdivr (Cmul (Copp Ci) (RtoC theta)) 2) (RtoC e)))).
  apply multirz_phase.
Qed.

(** The eigenvalues are 1 and -1, and the second half of the list is the
    first half with the signs changed. *)
Lemma pauli_eigs_values (n : nat) :
  Forall (fun e => e = 1 \/ e = -1) (pauli_eigs n).
Proof.
  induction n as [| n IH]; [repeat constructor; left; reflexivity |].
  cbn [pauli_eigs]. apply Forall_app. split; [exact IH |].
  apply Forall_map. eapply Forall_impl; [| exact IH].
  cbn. intros e [-> | ->]; [right | left]; lra.
Qed.

End MultirzDiagonal.

(** * Further properties of the dispatcher *)

Section Dispatch.

Lemma engine_full_operator (state mat : tensor C) (b n : nat) (wires : list Z) :
  shape state = b :: repeat 2 n ->
  shape mat = [2 ^ length wires; 2 ^ length wires] ->
  NoDup wires ->
  Forall (fun w => (0 <= w < Z.of_nat n)%Z) wires ->
  n + length wires <= 25 ->
  apply_unitary_einsum state mat wires
  = Ok (apply_full_operator state mat (map Z.to_nat wires)).
Proof.
  intros Hstate Hmat Hnd Hws Hfit.
  rewrite (wires_as_nat wires (wires_nonneg _ _ Hws)) at 1.
  apply (apply_unitary_einsum_nat state mat b n (map Z.to_nat wires)).
  - exact Hstate.
  - rewrite length_map. exact Hmat.
  - apply wires_nat_NoDup; [exact (wires_nonneg _ _ Hws) | exact Hnd].
  - apply wires_nat_lt. exact Hws.
  - rewrite length_map. exact Hfit.
Qed.

(** A constant gate on a device, with a matrix that fits and distinct
    wires in range: the call returns, one tensor object is allocated, it
    holds the state after the gate, and the device refers to it; nothing
    else changes. *)
Theorem gate_wrapper_constant_gate (w : world) (q l old : loc) (s m : tensor C)
    (b n : nat) (wires : wires_arg) (params : option (tensor R)) (n_wires : option nat) :
  devices w !! q = Some (mkDevice old) ->
  tensors w !! old = Some s ->
  tensors w !! l = Some m ->
  shape s = b :: repeat 2 n ->
  shape m = [2 ^ length (wires_list wires); 2 ^ length (wires_list wires)] ->
  NoDup (wires_list wires) ->
  Forall (fun x => (0 <= x < Z.of_nat n)%Z) (wires_list wires) ->
  n + length (wires_list wires) <= 25 ->
  gate_wrapper (MatTensor l) q wires params n_wires w
  = (Ok tt,
     mkWorld (<[fresh (dom (tensors w))
                := apply_full_operator s m (map Z.to_nat (wires_list wires))]> (tensors w))
             (<[q := mkDevice (fresh (dom (tensors w)))]> (devices w))).
Proof.
  intros Hq Hs Hm Hshape Hmat Hnd Hws Hfit.
  pose proof (engine_full_operator s m b n (wires_list wires) Hshape Hmat Hnd Hws Hfit) as E.
  cbv [gate_wrapper mbind ret lift new_tensor get_states apply_unitary_einsum_obj
       read_tensor set_states is_callable].
  rewrite Hq. cbn [states]. rewrite Hs, Hm.
  fold (wires_list wires). rewrite E. reflexivity.
Qed.

Lemma gate_wrapper_constant_gate_example :
  gate_wrapper (MatTensor 2%positive) 1%positive (WInt 0) None None example_world
  = (Ok tt,
     mkWorld (<[fresh (dom (tensors example_world))
                := apply_full_operator (mkTensor [1; 2] [C1; C0]) paulix_mat
                     (map Z.to_nat (wires_list (WInt 0)))]> (tensors example_world))
             (<[1%positive := mkDevice (fresh (dom (tensors example_world)))]>
                (devices example_world))).
Proof.
  apply (gate_wrapper_constant_gate example_world 1%positive 2%positive 1%positive
           (mkTensor [1; 2] [C1; C0]) paulix_mat 1 1 (WInt 0) None None).
  - reflexivity.
  - reflexivity.
  - reflexivity.
  - reflexivity.
  - reflexivity.
  - repeat constructor; cbn; intuition discriminate.
  - repeat constructor; cbn; lia.
  - cbn. lia.
Defined.

(** A constant gate that fails leaves the store as it was: no object is
    allocated and the device is not assigned. *)
Theorem gate_wrapper_constant_failure (w w' : world) (q l : loc) (wires : wires_arg)
    (params : option (tensor R)) (n_wires : option nat) (e : exn) :
  gate_wrapper (MatTensor l) q wires params n_wires w = (Err e, w') -> w' = w.
Proof.
  cbv [gate_wrapper mbind ret lift new_tensor get_states apply_unitary_einsum_obj
       read_tensor set_states is_callable].
  destruct (devices w !! q) as [[old] |]; [| intros [= _ <-]; reflexivity].
  cbn [states].
  destruct (tensors w !! old) as [s |]; [| intros [= _ <-]; reflexivity].
  destruct (tensors w !! l) as [m |]; [| intros [= _ <-]; reflexivity].
  destruct (apply_unitary_einsum s m _) as [out | e']; [discriminate |].
  intros [= _ <-]. reflexivity.
Qed.

Lemma gate_wrapper_constant_failure_example :
  gate_wrapper (MatTensor 2%positive) 1%positive (WInt 25) None None example_world
  = (Err AssertionError_qubits, example_world)
  /\ forall w',
       gate_wrapper (MatTensor 2%positive) 1%positive (WInt 25) None None example_world
       = (Err AssertionError_qubits, w') -> w' = example_world.
Proof.
  split.
  - cbv [gate_wrapper mbind ret lift new_tensor get_states apply_unitary_einsum_obj
         read_tensor set_states is_callable].
    change (devices example_world !! 1%positive) with (Some (mkDevice 1%positive)).
    cbn [states].
    change (tensors example_world !! 1%positive) with (Some (mkTensor [1; 2] [C1; C0])).
    change (tensors example_world !! 2%positive) with (Some paulix_mat).
    reflexivity.
  - intros w'.
    apply (gate_wrapper_constant_failure example_world w' 1%positive 2%positive
             (WInt 25) None None AssertionError_qubits).
Defined.

(** A generator called with the wrong number of arguments raises before
    the device is read: [multirz] without [n_wires], and a generator of
    one argument with [n_wires]; the store is as it was. *)
Theorem gate_wrapper_wrong_arity (q : loc) (wires : wires_arg) (p : tensor R) (w : world) :
  (forall f, gate_wrapper (MatCallable2 f) q wires (Some p) None w = (Err TypeError, w))
  /\ (forall f k, gate_wrapper (MatCallable1 f) q wires (Some p) (Some k) w
                  = (Err TypeError, w)).
Proof. split; reflexivity. Qed.

(** Parameters with one axis are read as a column: the call is the call
    with the parameters unsqueezed at the end. *)
Theorem gate_wrapper_params_1d (mat : mat_arg) (q : loc) (wires : wires_arg)
    (p : tensor R) (n_wires : option nat) (w : world) :
  rank p = 1 ->
  gate_wrapper mat q wires (Some p) n_wires w
  = gate_wrapper mat q wires (Some (unsqueeze_last p)) n_wires w.
Proof.
  intros Hp. unfold gate_wrapper.
  destruct (is_callable mat); [| reflexivity].
  assert (H2 : rank (unsqueeze_last p) = 2).
  { unfold rank in *. cbn [unsqueeze_last shape]. rewrite length_app, Hp. reflexivity. }
  rewrite Hp, H2. reflexivity.
Qed.

Lemma gate_wrapper_params_1d_example :
  gate_wrapper (MatCallable1 rx_matrix) 1%positive (WInt 0)
    (Some (torch_tensor1 [PI])) None example_world
  = gate_wrapper (MatCallable1 rx_matrix) 1%positive (WInt 0)
      (Some (unsqueeze_last (torch_tensor1 [PI]))) None example_world.
Proof.
  apply (gate_wrapper_params_1d (MatCallable1 rx_matrix) 1%positive (WInt 0)
           (torch_tensor1 [PI]) None example_world).
  reflexivity.
Defined.

Lemma rotation_generators_row_by_row (gen : tensor R -> result (tensor C)) :
  In gen [rx_matrix; ry_matrix; rz_matrix; phaseshift_matrix] ->
  row_by_row (fun xs => gen (params_rows (length xs) 1 xs)) 2.
Proof.
  intros [<- | [<- | [<- | [<- | []]]]].
  - eapply row_by_row_of_blocks; [| exact rx_matrix_rows]. reflexivity.
  - eapply row_by_row_of_blocks; [| exact ry_matrix_rows]. reflexivity.
  - eapply row_by_row_of_blocks; [| exact rz_matrix_rows]. reflexivity.
  - eapply row_by_row_of_blocks; [| exact phaseshift_matrix_rows]. reflexivity.
Qed.

(** A rotation with one angle per batch element, on one wire in range
    of a device: the call returns, the device refers to a new tensor, the
    old state is as it was, and every batch element of the new state is
    that batch element of the old state after the rotation by its own
    angle. *)
Theorem gate_wrapper_rotation_per_batch (gen : tensor R -> result (tensor C))
    (w : world) (q old : loc) (s : tensor C) (n : nat) (x : Z) (xs : list R) :
  In gen [rx_matrix; ry_matrix; rz_matrix; phaseshift_matrix] ->
  devices w !! q = Some (mkDevice old) ->
  tensors w !! old = Some s ->
  shape s = length xs :: repeat 2 n ->
  2 <= length xs ->
  (0 <= x < Z.of_nat n)%Z ->
  n <= 24 ->
  exists new out w',
    gate_wrapper (MatCallable1 gen) q (WInt x) (Some (torch_tensor1 xs)) None w = (Ok tt, w')
    /\ devices w' !! q = Some (mkDevice new)
    /\ tensors w' !! new = Some out
    /\ tensors w' !! old = Some s
    /\ shape out = shape s
    /\ forall i, i < length xs ->
         exists mi, gen (params_rows 1 1 [nth i xs 0%R]) = Ok mi
                    /\ apply_unitary_einsum (tslice1 s i) mi [x] = Ok (tslice1 out i).
Proof.
  intros Hgen Hq Hs Hshape Hb Hx Hn.
  pose proof (rotation_generators_row_by_row gen Hgen) as Hrows.
  destruct (Hrows xs 0 0%R Hb ltac:(lia)) as (m & _ & Hm & Hmshape & _).
  cbv beta in Hm.
  assert (Ex : [x] = map Z.of_nat [Z.to_nat x]) by (cbn; f_equal; lia).
  destruct (apply_unitary_einsum_batched_nat s m (length xs) n [Z.to_nat x])
    as (out & Hout & Hoshape & _ & Hslices).
  { exact Hshape. }
  { exact Hmshape. }
  { repeat constructor. intros []. }
  { repeat constructor. lia. }
  { cbn. lia. }
  rewrite <- Ex in Hout, Hslices.
  set (lm := fresh (dom (tensors w))).
  set (new := fresh (dom (<[lm := m]> (tensors w)))).
  assert (Hlm : tensors w !! lm = None) by apply fresh_tensor_None.
  assert (Hnew : (<[lm := m]> (tensors w)) !! new = None).
  { apply not_elem_of_dom, is_fresh. }
  assert (Hold_lm : lm <> old) by (intros E; rewrite E in Hlm; congruence).
  assert (Hold1 : (<[lm := m]> (tensors w)) !! old = Some s).
  { rewrite lookup_insert_ne by exact Hold_lm. exact Hs. }
  assert (Hold_new : new <> old) by (intros E; rewrite E in Hnew; congruence).
  exists new, out,
    (mkWorld (<[new := out]> (<[lm := m]> (tensors w))) (<[q := mkDevice new]> (devices w))).
  split; [| split; [| split; [| split; [| split]]]].
  - cbv [gate_wrapper mbind ret lift new_tensor get_states apply_unitary_einsum_obj
         read_tensor set_states is_callable call1 raise].
    replace (rank (torch_tensor1 xs) =? 1) with true by reflexivity.
    change (unsqueeze_last (torch_tensor1 xs)) with (params_rows (length xs) 1 xs).
    rewrite Hm. cbn [tensors devices]. rewrite Hq. cbn [states].
    fold lm. cbn [tensors]. rewrite Hold1. cbn [tensors].
    rewrite lookup_insert_eq, Hout. reflexivity.
  - cbn [devices]. apply lookup_insert_eq.
  - cbn [tensors]. apply lookup_insert_eq.
  - cbn [tensors]. rewrite lookup_insert_ne by exact Hold_new. exact Hold1.
  - exact Hoshape.
  - intros i Hi.
    destruct (Hrows xs i 0%R Hb Hi) as (m' & mi & Hm' & _ & Hmi & _ & Hitem).
    cbv beta in Hm', Hmi. rewrite Hm in Hm'. injection Hm' as <-.
    exists mi. split; [exact Hmi |].
    rewrite <- Hitem. apply Hslices. exact Hi.
Qed.

(** A store with a device of two batch elements over one qubit, both in
    state |0> (object 1). *)
Lemma gate_wrapper_rotation_per_batch_example :
  exists new out w',
    gate_wrapper (MatCallable1 rx_matrix) 1%positive (WInt 0)
      (Some (torch_tensor1 [0%R; PI])) None
      (mkWorld {[1%positive := mkTensor [2; 2] [C1; C0; C1; C0]]}
               {[1%positive := mkDevice 1%positive]})
    = (Ok tt, w')
    /\ devices w' !! 1%positive = Some (mkDevice new)
    /\ tensors w' !! new = Some out
    /\ tensors w' !! 1%positive = Some (mkTensor [2; 2] [C1; C0; C1; C0])
    /\ shape out = [2; 2]
    /\ forall i, i < 2 ->
         exists mi, rx_matrix (params_rows 1 1 [nth i [0%R; PI] 0%R]) = Ok mi
                    /\ apply_unitary_einsum (tslice1 (mkTensor [2; 2] [C1; C0; C1; C0]) i)
                         mi [0%Z]
                       = Ok (tslice1 out i).
Proof.
  apply (gate_wrapper_rotation_per_batch rx_matrix
           (mkWorld {[1%positive := mkTensor [2; 2] [C1; C0; C1; C0]]}
                    {[1%positive := mkDevice 1%positive]})
           1%positive 1%positive (mkTensor [2; 2] [C1; C0; C1; C0]) 1 0%Z [0%R; PI]).
  - left. reflexivity.
  - reflexivity.
  - reflexivity.
  - reflexivity.
  - cbn. lia.
  - cbn. lia.
  - lia.
Defined.

End Dispatch.

(** * Gates on different wires *)

Section OtherWires.

Lemma select_merge_other (wa wb : list nat) (o sj : list nat) :
  (forall q, In q wa -> ~ In q wb) ->
  Forall (fun w => w < length o) wa ->
  select wa (merge wb o sj) = select wa o.
Proof.
  intros Hdis Hwa. unfold select. apply map_ext_in. intros w Hw.
  rewrite Forall_forall in Hwa.
  rewrite nth_merge by (apply Hwa; exact Hw).
  rewrite (proj2 (index_of_None w wb)) by (apply Hdis; exact Hw). reflexivity.
Qed.

Lemma merge_merge_other (wa wb : list nat) (o si sj : list nat) :
  (forall q, In q wa -> ~ In q wb) ->
  merge wa (merge wb o sj) si = merge wb (merge wa o si) sj.
Proof.
  intros Hdis. unfold merge at 1 3. rewrite !merge_length.
  apply map_ext_in. intros q Hq. apply in_seq in Hq.
  rewrite !nth_merge by lia.
  destruct (index_of q wa) as [j |] eqn:Ea; destruct (index_of q wb) as [k |] eqn:Eb;
    try reflexivity.
  exfalso. destruct (index_of_Some _ _ _ 0 Ea) as [Hj Hqa].
  destruct (index_of_Some _ _ _ 0 Eb) as [Hk Hqb].
  apply (Hdis q); [rewrite <- Hqa | rewrite <- Hqb]; apply nth_In; assumption.
Qed.

Variables (b n : nat).

(** The entry of the result of a gate on the wires [w2] applied after a
    gate on other wires [w1], as a double sum. *)
Lemma wire_sum_after (state m1 m2 : tensor C) (w1 w2 : list nat) (i : nat) (o : list nat) :
  NoDup w1 -> Forall (fun w => w < n) w1 ->
  NoDup w2 -> Forall (fun w => w < n) w2 ->
  (forall q, In q w1 -> ~ In q w2) ->
  i < b -> In o (all_indices (repeat 2 n)) ->
  wire_sum (mkTensor (b :: repeat 2 n)
              (map (fun idx => wire_sum state m1 n w1 (hd 0 idx) (tl idx))
                   (all_indices (b :: repeat 2 n))))
           m2 n w2 i o
  = Csum (map (fun s2 =>
       Csum (map (fun s1 =>
         Cmul (nth (ravel (repeat 2 (length w2)) (select w2 o) * 2 ^ length w2
                    + ravel (repeat 2 (length w2)) s2) (data m2) C0)
              (Cmul (nth (ravel (repeat 2 (length w1)) (select w1 o) * 2 ^ length w1
                          + ravel (repeat 2 (length w1)) s1) (data m1) C0)
                    (nth (i * 2 ^ n + ravel (repeat 2 n) (merge w1 (merge w2 o s2) s1))
                         (data state) C0)))
         (all_indices (repeat 2 (length w1)))))
       (all_indices (repeat 2 (length w2)))).
Proof.
  intros Hnd1 Hw1 Hnd2 Hw2 Hdis Hi Ho.
  pose proof Ho as Hob. apply all_indices_bits in Hob as [Hlen _].
  unfold wire_sum at 1. cbn [data].
  apply Csum_map_ext. intros s2 Hs2.
  replace (i * 2 ^ n + ravel (repeat 2 n) (merge w2 o s2))
    with (ravel (b :: repeat 2 n) (i :: merge w2 o s2))
    by (cbn [ravel]; rewrite numel_repeat2; reflexivity).
  rewrite nth_map_all_indices
    by (constructor; [exact Hi | apply (merge_in_range n w2); assumption]).
  cbn [hd tl]. unfold wire_sum. rewrite Csum_mul_l.
  apply Csum_map_ext. intros s1 Hs1.
  rewrite select_merge_other; [reflexivity | exact Hdis |].
  rewrite Hlen. exact Hw1.
Qed.

Lemma Cmul_comm (x y : C) : Cmul x y = Cmul y x.
Proof. unfold Cmul. f_equal; lra. Qed.

(** Two gates on wires that have no wire in common: the two orders give
    the same state. *)
Lemma apply_unitary_einsum_commute_nat (state ma mb : tensor C) (wa wb : list nat) :
  shape state = b :: repeat 2 n ->
  shape ma = [2 ^ length wa; 2 ^ length wa] ->
  shape mb = [2 ^ length wb; 2 ^ length wb] ->
  NoDup wa -> Forall (fun w => w < n) wa -> n + length wa <= 25 ->
  NoDup wb -> Forall (fun w => w < n) wb -> n + length wb <= 25 ->
  (forall q, In q wa -> ~ In q wb) ->
  (let* s1 := apply_unitary_einsum state ma (map Z.of_nat wa) in
   apply_unitary_einsum s1 mb (map Z.of_nat wb))
  = (let* s1 := apply_unitary_einsum state mb (map Z.of_nat wb) in
     apply_unitary_einsum s1 ma (map Z.of_nat wa)).
Proof.
  intros Hstate Hma Hmb Hnda Hwa Hfa Hndb Hwb Hfb Hdis.
  assert (Hdis' : forall q, In q wb -> ~ In q wa).
  { intros q Hb Ha. exact (Hdis q Ha Hb). }
  rewrite (apply_unitary_einsum_wire_sums b n wa) by assumption.
  rewrite (apply_unitary_einsum_wire_sums b n wb) by assumption.
  cbn [bind].
  rewrite (apply_unitary_einsum_wire_sums b n wb) by (assumption || reflexivity).
  rewrite (apply_unitary_einsum_wire_sums b n wa) by (assumption || reflexivity).
  f_equal. f_equal. apply map_ext_in. intros idx Hidx.
  apply all_indices_cons in Hidx as (i & o & -> & Hi & Ho). cbn [hd tl].
  rewrite (wire_sum_after state ma mb wa wb) by assumption.
  rewrite (wire_sum_after state mb ma wb wa) by assumption.
  rewrite Csum_swap.
  apply Csum_map_ext. intros s1 _. apply Csum_map_ext. intros s2 _.
  rewrite (merge_merge_other wa wb) by exact Hdis.
  rewrite !Cmul_assoc. f_equal. apply Cmul_comm.
Qed.

End OtherWires.

Section Commute.

(** Two gates on wires that have no wire in common commute: applied in
    either order they give the same state. *)
Theorem apply_unitary_einsum_commute (state ma mb : tensor C) (b n : nat)
    (wires_a wires_b : list Z) :
  shape state = b :: repeat 2 n ->
  shape ma = [2 ^ length wires_a; 2 ^ length wires_a] ->
  shape mb = [2 ^ length wires_b; 2 ^ length wires_b] ->
  NoDup wires_a ->
  Forall (fun w => (0 <= w < Z.of_nat n)%Z) wires_a ->
  n + length wires_a <= 25 ->
  NoDup wires_b ->
  Forall (fun w => (0 <= w < Z.of_nat n)%Z) wires_b ->
  n + length wires_b <= 25 ->
  (forall w, In w wires_a -> ~ In w wires_b) ->
  (let* s1 := apply_unitary_einsum state ma wires_a in
   apply_unitary_einsum s1 mb wires_b)
  = (let* s1 := apply_unitary_einsum state mb wires_b in
     apply_unitary_einsum s1 ma wires_a).
Proof.
  intros Hstate Hma Hmb Hnda Hwa Hfa Hndb Hwb Hfb Hdis.
  pose proof (wires_nonneg _ _ Hwa) as Hpa. pose proof (wires_nonneg _ _ Hwb) as Hpb.
  rewrite (wires_as_nat wires_a Hpa), (wires_as_nat wires_b Hpb).
  apply (apply_unitary_einsum_commute_nat b n state ma mb).
  - exact Hstate.
  - rewrite length_map. exact Hma.
  - rewrite length_map. exact Hmb.
  - apply wires_nat_NoDup; assumption.
  - apply wires_nat_lt. exact Hwa.
  - rewrite length_map. exact Hfa.
  - apply wires_nat_NoDup; assumption.
  - apply wires_nat_lt. exact Hwb.
  - rewrite length_map. exact Hfb.
  - intros q Ha Hb.
    apply in_map_iff in Ha as (x & <- & Hx). apply in_map_iff in Hb as (y & Heq & Hy).
    rewrite Forall_forall in Hpa, Hpb.
    specialize (Hpa x Hx). specialize (Hpb y Hy). cbv beta in Hpa, Hpb.
    assert (y = x) by lia. subst y. exact (Hdis x Hx Hy).
Qed.

Lemma apply_unitary_einsum_commute_example :
  (let* s1 := apply_unitary_einsum ket01 hadamard_mat [0%Z] in
   apply_unitary_einsum s1 paulix_mat [1%Z])
  = (let* s1 := apply_unitary_einsum ket01 paulix_mat [1%Z] in
     apply_unitary_einsum s1 hadamard_mat [0%Z]).
Proof.
  apply (apply_unitary_einsum_commute ket01 hadamard_mat paulix_mat 1 2 [0%Z] [1%Z]).
  - reflexivity.
  - reflexivity.
  - reflexivity.
  - repeat constructor; cbn; intuition discriminate.
  - repeat constructor; cbn; lia.
  - cbn. lia.
  - repeat constructor; cbn; intuition discriminate.
  - repeat constructor; cbn; lia.
  - cbn. lia.
  - intros w [<- | []] [H | []]. discriminate.
Defined.

End Commute.

(** * The engine is linear in the state *)

Section Linear.

Lemma combine_map_map {A B D} (f : A -> B) (g : A -> D) (l : list A) :
  combine (map f l) (map g l) = map (fun x => (f x, g x)) l.
Proof. induction l as [| x l IH]; [reflexivity |]. cbn. rewrite IH. reflexivity. Qed.

Lemma nth_tadd_tscale (c : C) (s1 s2 : tensor C) (k : nat) :
  length (data s1) = length (data s2) -> k < length (data s1) ->
  nth k (data (tadd (tscale c s1) s2)) C0
  = Cadd (Cmul c (nth k (data s1) C0)) (nth k (data s2) C0).
Proof.
  intros Hlen Hk. unfold tadd, tscale, tmap. cbn [data shape].
  rewrite (nth_indep _ C0 (Cadd (fst (Cmul c C0, C0)) (snd (Cmul c C0, C0))))
    by (rewrite length_map, length_combine, length_map, <- Hlen, Nat.min_id; exact Hk).
  rewrite (map_nth (fun p => Cadd (fst p) (snd p))).
  rewrite combine_nth by (rewrite length_map; exact Hlen).
  cbn [fst snd]. rewrite (map_nth (Cmul c)). reflexivity.
Qed.

Lemma Cmul_linear (e c x y : C) :
  Cmul e (Cadd (Cmul c x) y) = Cadd (Cmul c (Cmul e x)) (Cmul e y).
Proof. unfold Cmul, Cadd. cbn [fst snd]. f_equal; lra. Qed.

Variables (b n : nat) (ws : list nat).
Hypothesis Hnd : NoDup ws.
Hypothesis Hws : Forall (fun w => w < n) ws.
Hypothesis Hfit : n + length ws <= 25.

Lemma wire_sum_linear (c : C) (s1 s2 m : tensor C) (i : nat) (o : list nat) :
  shape s1 = b :: repeat 2 n -> shape s2 = b :: repeat 2 n -> wf s1 -> wf s2 ->
  i < b -> In o (all_indices (repeat 2 n)) ->
  wire_sum (tadd (tscale c s1) s2) m n ws i o
  = Cadd (Cmul c (wire_sum s1 m n ws i o)) (wire_sum s2 m n ws i o).
Proof.
  intros H1 H2 Hwf1 Hwf2 Hi Ho. unfold wf in Hwf1, Hwf2.
  rewrite H1 in Hwf1. rewrite H2 in Hwf2.
  change (numel (b :: repeat 2 n)) with (b * numel (repeat 2 n)) in Hwf1, Hwf2.
  rewrite numel_repeat2 in Hwf1, Hwf2.
  unfold wire_sum. rewrite Csum_mul_l, <- Csum_add.
  apply Csum_map_ext. intros si Hsi.
  pose proof (merge_in_range n ws o si Ho Hsi) as Hm.
  apply ravel_lt in Hm. rewrite numel_repeat2 in Hm.
  rewrite nth_tadd_tscale.
  - apply Cmul_linear.
  - rewrite Hwf1, Hwf2. reflexivity.
  - rewrite Hwf1. nia.
Qed.

Lemma apply_unitary_einsum_linear_nat (c : C) (s1 s2 m : tensor C) :
  shape s1 = b :: repeat 2 n -> shape s2 = b :: repeat 2 n -> wf s1 -> wf s2 ->
  shape m = [2 ^ length ws; 2 ^ length ws] ->
  apply_unitary_einsum (tadd (tscale c s1) s2) m (map Z.of_nat ws)
  = (let* o1 := apply_unitary_einsum s1 m (map Z.of_nat ws) in
     let* o2 := apply_unitary_einsum s2 m (map Z.of_nat ws) in
     Ok (tadd (tscale c o1) o2)).
Proof.
  intros H1 H2 Hwf1 Hwf2 Hm.
  rewrite (apply_unitary_einsum_wire_sums b n ws Hnd Hws Hfit (tadd (tscale c s1) s2) m)
    by assumption.
  rewrite (apply_unitary_einsum_wire_sums b n ws Hnd Hws Hfit s1 m) by assumption.
  rewrite (apply_unitary_einsum_wire_sums b n ws Hnd Hws Hfit s2 m) by assumption.
  cbn [bind]. f_equal. unfold tadd, tscale, tmap. cbn [shape data]. f_equal.
  rewrite map_map, combine_map_map, map_map. cbn [fst snd].
  apply map_ext_in. intros idx Hidx.
  apply all_indices_cons in Hidx as (i & o & -> & Hi & Ho). cbn [hd tl].
  apply wire_sum_linear; assumption.
Qed.

End Linear.

Section Superposition.

(** The engine is linear in the state: on [c] times a state plus another
    state it returns [c] times the result for the first plus the result
    for the second. *)
Theorem apply_unitary_einsum_linear (c : C) (s1 s2 m : tensor C) (b n : nat)
    (wires : list Z) :
  shape s1 = b :: repeat 2 n ->
  shape s2 = b :: repeat 2 n ->
  wf s1 -> wf s2 ->
  shape m = [2 ^ length wires; 2 ^ length wires] ->
  NoDup wires ->
  Forall (fun w => (0 <= w < Z.of_nat n)%Z) wires ->
  n + length wires <= 25 ->
  apply_unitary_einsum (tadd (tscale c s1) s2) m wires
  = (let* o1 := apply_unitary_einsum s1 m wires in
     let* o2 := apply_unitary_einsum s2 m wires in
     Ok (tadd (tscale c o1) o2)).
Proof.
  intros H1 H2 Hwf1 Hwf2 Hm Hnd Hws Hfit.
  rewrite (wires_as_nat wires (wires_nonneg _ _ Hws)).
  apply (apply_unitary_einsum_linear_nat b n (map Z.to_nat wires)).
  - apply wires_nat_NoDup; [exact (wires_nonneg _ _ Hws) | exact Hnd].
  - apply wires_nat_lt. exact Hws.
  - rewrite length_map. exact Hfit.
  - exact H1.
  - exact H2.
  - exact Hwf1.
  - exact Hwf2.
  - rewrite length_map. exact Hm.
Qed.

Lemma apply_unitary_einsum_linear_example :
  apply_unitary_einsum (tadd (tscale Ci ket01) (mkTensor [1; 2; 2] [C1; C0; C0; C0]))
    cnot_mat [1; 0]%Z
  = (let* o1 := apply_unitary_einsum ket01 cnot_mat [1; 0]%Z in
     let* o2 := apply_unitary_einsum (mkTensor [1; 2; 2] [C1; C0; C0; C0])
                  cnot_mat [1; 0]%Z in
     Ok (tadd (tscale Ci o1) o2)).
Proof.
  apply (apply_unitary_einsum_linear Ci ket01 (mkTensor [1; 2; 2] [C1; C0; C0; C0])
           cnot_mat 1 2 [1; 0]%Z).
  - reflexivity.
  - reflexivity.
  - reflexivity.
  - reflexivity.
  - reflexivity.
  - repeat constructor; cbn; intuition discriminate.
  - repeat constructor; cbn; lia.
  - cbn. lia.
Defined.

End Superposition.

(** * A unitary matrix keeps the norm *)

Section Conjugates.
Local Open Scope R_scope.

Lemma Cconj_add (x y : C) : Cconj (Cadd x y) = Cadd (Cconj x) (Cconj y).
Proof. unfold Cconj, Cadd. cbn [fst snd]. f_equal; lra. Qed.

Lemma Cconj_mul (x y : C) : Cconj (Cmul x y) = Cmul (Cconj x) (Cconj y).
Proof. unfold Cconj, Cmul. cbn [fst snd]. f_equal; lra. Qed.

Lemma Cconj_sum {A} (f : A -> C) (l : list A) :
  Cconj (Csum (map f l)) = Csum (map (fun a => Cconj (f a)) l).
Proof.
  induction l as [| a l IH]; cbn [map Csum fold_right].
  - unfold Cconj, C0. cbn [fst snd]. f_equal; lra.
  - fold (Csum (map f l)). fold (Csum (map (fun a => Cconj (f a)) l)).
    rewrite Cconj_add, IH. reflexivity.
Qed.

Lemma fst_Csum_norm {A} (e : A -> C) (l : list A) :
  fst (Csum (map (fun a => Cmul (Cconj (e a)) (e a)) l))
  = fold_right Rplus 0 (map Cnorm2 (map e l)).
Proof.
  induction l as [| a l IH]; [reflexivity |].
  cbn [map Csum fold_right]. fold (Csum (map (fun a => Cmul (Cconj (e a)) (e a)) l)).
  rewrite <- IH. unfold Cadd, Cmul, Cconj, Cnorm2. cbn [fst snd]. lra.
Qed.

Lemma Csum_if_count {A} (p : A -> bool) (x : C) (l : list A) :
  Csum (map (fun a => if p a then x else C0) l)
  = Cmul (RtoC (INR (length (filter p l)))) x.
Proof.
  induction l as [| a l IH].
  - cbn. unfold Cmul, RtoC, C0. cbn [fst snd]. f_equal; lra.
  - cbn [map Csum fold_right filter].
    fold (Csum (map (fun a => if p a then x else C0) l)). rewrite IH.
    destruct (p a).
    + cbn [length]. rewrite S_INR. unfold Cmul, Cadd, RtoC. cbn [fst snd]. f_equal; lra.
    + apply Cadd_0_l.
Qed.

Lemma Cmul_nat_cancel (k : nat) (x y : C) :
  (0 < k)%nat -> Cmul (RtoC (INR k)) x = Cmul (RtoC (INR k)) y -> x = y.
Proof.
  intros Hk H. apply lt_0_INR in Hk.
  unfold Cmul, RtoC in H. cbn [fst snd] in H. injection H as H1 H2.
  destruct x as [x1 x2], y as [y1 y2]. cbn [fst snd] in *.
  f_equal; apply (Rmult_eq_reg_l (INR k)); lra.
Qed.

Lemma Cmul_if (c : bool) (x : C) : Cmul x (if c then C1 else C0) = if c then x else C0.
Proof.
  destruct c; unfold Cmul, C1, C0; destruct x as [x1 x2]; cbn [fst snd]; f_equal; lra.
Qed.

Lemma Cmul_conj_pairs (a v a' v' : C) :
  Cmul (Cconj (Cmul a v)) (Cmul a' v') = Cmul (Cmul (Cconj v) v') (Cmul (Cconj a) a').
Proof. unfold Cmul, Cconj. cbn [fst snd]. f_equal; ring. Qed.

End Conjugates.

Section Isometry.
Variables (mat : tensor C) (k : nat).
Hypothesis Hmat : shape mat = [2 ^ k; 2 ^ k].
Hypothesis Hunitary : unitary mat.

Lemma Csum_delta (s x : list nat) (F : list nat -> C) :
  Forall2 lt x s ->
  Csum (map (fun y => if ravel s x =? ravel s y then F y else C0) (all_indices s)) = F x.
Proof.
  intros Hx. rewrite Csum_map_filter.
  rewrite (filter_singleton _ _ x).
  - cbn [map Csum fold_right]. apply Cadd_0_r.
  - apply all_indices_NoDup.
  - apply all_indices_In. exact Hx.
  - intros y Hy. apply all_indices_In in Hy. rewrite Nat.eqb_eq. split.
    + intros H. symmetry. apply (ravel_inj _ _ _ Hx Hy H).
    + intros ->. reflexivity.
Qed.

(** The columns of a unitary matrix are orthonormal. *)
Lemma unitary_columns (s s' : list nat) :
  Forall2 lt s (repeat 2 k) -> Forall2 lt s' (repeat 2 k) ->
  Csum (map (fun t =>
               Cmul (Cconj (nth (ravel (repeat 2 k) t * 2 ^ k + ravel (repeat 2 k) s)
                                (data mat) C0))
                    (nth (ravel (repeat 2 k) t * 2 ^ k + ravel (repeat 2 k) s')
                         (data mat) C0))
            (all_indices (repeat 2 k)))
  = if ravel (repeat 2 k) s =? ravel (repeat 2 k) s' then C1 else C0.
Proof.
  intros Hs Hs'.
  pose proof (ravel_lt _ _ Hs) as Hr. pose proof (ravel_lt _ _ Hs') as Hr'.
  rewrite numel_repeat2 in Hr, Hr'.
  pose proof Hunitary as H. unfold unitary in H. rewrite Hmat in H. cbn [nth] in H.
  apply (f_equal (fun m => nth (ravel (repeat 2 k) s * 2 ^ k + ravel (repeat 2 k) s')
                               (data m) C0)) in H.
  rewrite eye_entry in H by assumption.
  rewrite matmul_entry in H
    by (assumption || (unfold dagger; rewrite Hmat; reflexivity)).
  rewrite <- H.
  replace (seq 0 (2 ^ k))
    with (map (ravel (repeat 2 k)) (all_indices (repeat 2 k)))
    by (rewrite map_ravel_all_indices, numel_repeat2; reflexivity).
  rewrite map_map. apply Csum_map_ext. intros t Ht.
  apply all_indices_In, ravel_lt in Ht. rewrite numel_repeat2 in Ht.
  f_equal. unfold dagger. rewrite Hmat. cbn [nth data].
  rewrite nth_flat_map_rows by assumption.
  unfold tget. rewrite Hmat. cbn [ravel numel fold_right].
  rewrite !Nat.mul_1_r, Nat.add_0_r. reflexivity.
Qed.

(** A unitary matrix keeps the sum of the squared moduli of a vector. *)
Lemma unitary_isometry (V : list nat -> C) :
  Csum (map (fun t =>
     Cmul (Cconj (Csum (map (fun s =>
                     Cmul (nth (ravel (repeat 2 k) t * 2 ^ k + ravel (repeat 2 k) s)
                               (data mat) C0) (V s))
                   (all_indices (repeat 2 k)))))
          (Csum (map (fun s =>
                     Cmul (nth (ravel (repeat 2 k) t * 2 ^ k + ravel (repeat 2 k) s)
                               (data mat) C0) (V s))
                   (all_indices (repeat 2 k)))))
     (all_indices (repeat 2 k)))
  = Csum (map (fun s => Cmul (Cconj (V s)) (V s)) (all_indices (repeat 2 k))).
Proof.
  set (M := fun t s => nth (ravel (repeat 2 k) t * 2 ^ k + ravel (repeat 2 k) s)
                           (data mat) C0).
  set (all := all_indices (repeat 2 k)).
  transitivity
    (Csum (map (fun t => Csum (map (fun s => Csum (map (fun s' =>
        Cmul (Cmul (Cconj (V s)) (V s')) (Cmul (Cconj (M t s)) (M t s'))) all)) all)) all)).
  { apply Csum_map_ext. intros t _.
    rewrite Cconj_sum, Csum_mul_r. apply Csum_map_ext. intros s _.
    rewrite Csum_mul_l. apply Csum_map_ext. intros s' _.
    apply Cmul_conj_pairs. }
  rewrite Csum_swap. apply Csum_map_ext. intros s Hs.
  rewrite Csum_swap.
  rewrite <- (Csum_delta (repeat 2 k) s (fun s' => Cmul (Cconj (V s)) (V s')))
    by (apply all_indices_In; exact Hs).
  apply Csum_map_ext. intros s' Hs'.
  rewrite <- Csum_mul_l. unfold M, all.
  rewrite unitary_columns by (apply all_indices_In; assumption).
  apply Cmul_if.
Qed.

End Isometry.

Section Orbits.
Variables (n : nat) (ws : list nat).
Hypothesis Hnd : NoDup ws.
Hypothesis Hws : Forall (fun w => w < n) ws.

Lemma agree_outside_sym (o c : list nat) :
  length o = length c -> agree_outside ws o c = agree_outside ws c o.
Proof.
  intros Hlen. unfold agree_outside. rewrite Hlen.
  induction (seq 0 (length c)) as [| q l IH]; [reflexivity |].
  cbn [forallb]. rewrite IH. f_equal.
  destruct (index_of q ws); [reflexivity | apply Nat.eqb_sym].
Qed.

(** Every basis state agrees outside the wires with [2 ^ k] basis states. *)
Lemma agree_outside_count (c : list nat) :
  In c (all_indices (repeat 2 n)) ->
  length (filter (fun o => agree_outside ws o c) (all_indices (repeat 2 n)))
  = 2 ^ length ws.
Proof.
  intros Hc. apply all_indices_bits in Hc as [Hlen Hbits].
  rewrite (filter_ext_in _ (agree_outside ws c)).
  - rewrite (Permutation_length (merge_permutation n ws Hnd Hws c Hlen Hbits)).
    rewrite length_map, all_indices_length. apply numel_repeat2.
  - intros o Ho. apply all_indices_bits in Ho as [Ho _].
    apply agree_outside_sym. rewrite Ho, Hlen. reflexivity.
Qed.

(** Summing a function over all ways of changing the wire bits of all
    basis states counts every basis state [2 ^ k] times. *)
Lemma Csum_orbits (G : list nat -> C) :
  Csum (map (fun o => Csum (map (fun t => G (merge ws o t))
                              (all_indices (repeat 2 (length ws)))))
            (all_indices (repeat 2 n)))
  = Cmul (RtoC (INR (2 ^ length ws))) (Csum (map G (all_indices (repeat 2 n)))).
Proof.
  transitivity
    (Csum (map (fun o => Csum (map (fun c => if agree_outside ws o c then G c else C0)
                                 (all_indices (repeat 2 n))))
               (all_indices (repeat 2 n)))).
  { apply Csum_map_ext. intros o Ho. apply all_indices_bits in Ho as [Hlen Hbits].
    rewrite Csum_map_filter, <- map_map.
    symmetry. apply Csum_perm, Permutation_map.
    apply (merge_permutation n ws Hnd Hws o Hlen Hbits). }
  rewrite Csum_swap, Csum_mul_l. apply Csum_map_ext. intros c Hc.
  rewrite (Csum_if_count (fun o => agree_outside ws o c)).
  rewrite agree_outside_count by exact Hc. reflexivity.
Qed.

End Orbits.

Section NormOfRows.
Variables (b n : nat) (ws : list nat).
Hypothesis Hnd : NoDup ws.
Hypothesis Hws : Forall (fun w => w < n) ws.
Hypothesis Hfit : n + length ws <= 25.
Variables (state mat : tensor C).
Hypothesis Hstate : shape state = b :: repeat 2 n.
Hypothesis Hwf : wf state.
Hypothesis Hmat : shape mat = [2 ^ length ws; 2 ^ length ws].
Hypothesis Hunitary : unitary mat.

(** Batch element [i] of a state, entry by entry. *)
Lemma tslice1_entries (i : nat) :
  i < b ->
  data (tslice1 state i)
  = map (fun o => nth (i * 2 ^ n + ravel (repeat 2 n) o) (data state) C0)
        (all_indices (repeat 2 n)).
Proof.
  intros Hi. unfold tslice1. rewrite Hstate. cbn [tl data]. rewrite numel_repeat2.
  unfold wf in Hwf. rewrite Hstate in Hwf.
  change (numel (b :: repeat 2 n)) with (b * numel (repeat 2 n)) in Hwf.
  rewrite numel_repeat2 in Hwf.
  rewrite (firstn_skipn_seq _ _ _ C0) by (rewrite Hwf; nia).
  rewrite <- map_add_seq, map_map.
  replace (seq 0 (2 ^ n)) with (map (ravel (repeat 2 n)) (all_indices (repeat 2 n)))
    by (rewrite map_ravel_all_indices, numel_repeat2; reflexivity).
  rewrite map_map. reflexivity.
Qed.

(** The sums of the squared moduli, before and after the gate, for batch
    element [i]. *)
Lemma wire_sum_norm (i : nat) :
  Csum (map (fun o => Cmul (Cconj (wire_sum state mat n ws i o))
                           (wire_sum state mat n ws i o))
            (all_indices (repeat 2 n)))
  = Csum (map (fun o => Cmul (Cconj (nth (i * 2 ^ n + ravel (repeat 2 n) o)
                                         (data state) C0))
                             (nth (i * 2 ^ n + ravel (repeat 2 n) o) (data state) C0))
              (all_indices (repeat 2 n))).
Proof.
  apply (Cmul_nat_cancel (2 ^ length ws)).
  { apply Nat.neq_0_lt_0, Nat.pow_nonzero. discriminate. }
  rewrite <- !(Csum_orbits n ws Hnd Hws).
  apply Csum_map_ext. intros o Ho. pose proof Ho as Hob.
  apply all_indices_bits in Hob as [Hlen _].
  rewrite <- (unitary_isometry mat (length ws) Hmat Hunitary
                (fun s => nth (i * 2 ^ n + ravel (repeat 2 n) (merge ws o s))
                              (data state) C0)).
  apply Csum_map_ext. intros t Ht. pose proof Ht as Htb.
  apply all_indices_bits in Htb as [Htlen _].
  unfold wire_sum.
  rewrite (select_merge n ws Hnd Hws o t Hlen Htlen).
  f_equal; [f_equal |]; apply Csum_map_ext; intros s _;
    rewrite (merge_merge n ws Hfit); reflexivity.
Qed.

(** A unitary matrix on distinct wires in range keeps the squared norm
    of every batch element. *)
Lemma apply_unitary_einsum_norm_nat :
  exists out,
    apply_unitary_einsum state mat (map Z.of_nat ws) = Ok out
    /\ forall i, i < b -> norm2 (tslice1 out i) = norm2 (tslice1 state i).
Proof.
  eexists. split.
  - apply (apply_unitary_einsum_wire_sums b n ws); assumption.
  - intros i Hi. unfold norm2. rewrite (tslice1_entries i Hi).
    unfold tslice1 at 1. cbn [shape data tl].
    cbn [all_indices]. rewrite map_flat_map.
    rewrite (block_flat_map _ (numel (repeat 2 n)) 0 b i).
    + cbn [Nat.add]. rewrite (map_map (cons i)). cbn [hd tl].
      rewrite <- !fst_Csum_norm. f_equal. apply wire_sum_norm.
    + intros j. rewrite !length_map. apply all_indices_length.
    + exact Hi.
Qed.

End NormOfRows.

Section Norm.

(** A unitary matrix on distinct wires in range keeps the squared norm
    of every batch element of a well-formed state. *)
Theorem apply_unitary_einsum_preserves_norm (state mat : tensor C) (b n : nat)
    (wires : list Z) :
  shape state = b :: repeat 2 n ->
  wf state ->
  shape mat = [2 ^ length wires; 2 ^ length wires] ->
  unitary mat ->
  NoDup wires ->
  Forall (fun w => (0 <= w < Z.of_nat n)%Z) wires ->
  n + length wires <= 25 ->
  exists out,
    apply_unitary_einsum state mat wires = Ok out
    /\ forall i, i < b -> norm2 (tslice1 out i) = norm2 (tslice1 state i).
Proof.
  intros Hstate Hwf Hmat Hunitary Hnd Hws Hfit.
  rewrite (wires_as_nat wires (wires_nonneg _ _ Hws)).
  apply (apply_unitary_einsum_norm_nat b n (map Z.to_nat wires)).
  - apply wires_nat_NoDup; [exact (wires_nonneg _ _ Hws) | exact Hnd].
  - apply wires_nat_lt. exact Hws.
  - rewrite length_map. exact Hfit.
  - exact Hstate.
  - exact Hwf.
  - rewrite length_map. exact Hmat.
  - exact Hunitary.
Qed.

Lemma apply_unitary_einsum_preserves_norm_example :
  exists out,
    apply_unitary_einsum ket01 cy_mat [0; 1]%Z = Ok out
    /\ forall i, i < 1 -> norm2 (tslice1 out i) = norm2 (tslice1 ket01 i).
Proof.
  apply (apply_unitary_einsum_preserves_norm ket01 cy_mat 1 2 [0; 1]%Z).
  - reflexivity.
  - reflexivity.
  - reflexivity.
  - unfold unitary. eval_entries. entries_by lra.
  - repeat constructor; cbn; intuition discriminate.
  - repeat constructor; cbn; lia.
  - cbn. lia.
Defined.

End Norm.
